(** * The DeepSeek reviewer pipeline of [src/reviewers/deepseek.js]

    A shallow embedding of the chunking / retry / aggregation pipeline:
    [splitCodeIntoChunks], [reviewCodeChunk], [processChunkWithRetry],
    [extractSection], [extractIssuesBySeverity], [parseReviewResponse],
    [combineChunkResults], [enhanceOutputFormat] and [reviewWithDeepseek].

    - JavaScript strings are sequences of UTF-16 code units; they are
      embedded as lists of code units ([N]): [s.length] is [length s] and
      [+] on strings is [++].
    - Objects are records; a property that an object may lack is an
      [option] ([None] is [undefined]).
    - [throw] and promise rejection are the [Throw] case of [result].
    - The remote API, the timer, [Math.random] and the order in which the
      chunk tasks complete are inputs to the model.
    - The built-ins of the engine that cannot be written out here, the
      Unicode case tables of [toLowerCase] and [JSON.parse], are
      parameters of the model.
    - Numbers that are delays are binary64 numbers, embedded as the
      rationals they are ([Q]); every operation on them rounds its exact
      result to the nearest binary64 number ([Double.round]).
    - [console.log] output is not part of the model of the pipeline; the
      progress line and what the entry point prints are modelled on their
      own, further down. *)

From Stdlib Require Import Ascii String NArith QArith Qminmax Qround Qabs Qpower Lqa Lia
  DecimalString.
From Stdlib Require SpecFloat PrimFloat FloatOps.
From stdpp Require Import base option list gmap sets.

Local Open Scope nat_scope.
Local Open Scope list_scope.

(** ** Strings *)

Module Js.

Definition text := list N.

(** An ASCII literal as a JavaScript string. *)
Definition lit (s : string) : text := N_of_ascii <$> list_ascii_of_string s.

Definition LF : N := 10%N.
Definition nl : text := [LF].

(** Template interpolation of a non-negative integer. *)
Definition of_nat (n : nat) : text := lit (NilEmpty.string_of_uint (Nat.to_uint n)).

(** [s.split('\n')]: never empty, [''.split('\n')] is [['']]. *)
Fixpoint split_lines (s : text) : list text :=
  match s with
  | [] => [[]]
  | c :: s' =>
      if (c =? LF)%N then [] :: split_lines s'
      else match split_lines s' with
           | l :: ls => (c :: l) :: ls
           | [] => [[c]]
           end
  end.

(** [parts.join(sep)]. *)
Fixpoint join (sep : text) (parts : list text) : text :=
  match parts with
  | [] => []
  | [p] => p
  | p :: ps => p ++ sep ++ join sep ps
  end.

(** [s.substring(a, b)]: the arguments are swapped when [a > b] and
    clamped to the length. *)
Definition substring (a b : nat) (s : text) : text :=
  take (Nat.max a b - Nat.min a b) (drop (Nat.min a b) s).

Definition mem (c : N) (l : list N) : bool := existsb (N.eqb c) l.

(** White space and line terminators: what [trim] strips and what [\s]
    matches. *)
Definition is_space (c : N) : bool :=
  mem c [9; 10; 11; 12; 13; 32; 160; 5760; 8232; 8233; 8239; 8287; 12288; 65279]%N
  || ((8192 <=? c) && (c <=? 8202))%N.

Definition is_digit (c : N) : bool := ((48 <=? c) && (c <=? 57))%N.
Definition is_upper (c : N) : bool := ((65 <=? c) && (c <=? 90))%N.
Definition is_lower (c : N) : bool := ((97 <=? c) && (c <=? 122))%N.

(** [\w], which decides [\b]. *)
Definition is_word (c : N) : bool :=
  is_upper c || is_lower c || is_digit c || (c =? 95)%N.

Fixpoint trim_start (s : text) : text :=
  match s with
  | c :: s' => if is_space c then trim_start s' else s
  | [] => []
  end.

Definition trim (s : text) : text := reverse (trim_start (reverse (trim_start s))).

(** The lower case of a code unit of the Basic Latin and Latin-1 blocks:
    [A-Z] and [U+00C0-U+00DE] without the multiplication sign move by 32. *)
Definition lower_unit (c : N) : N :=
  if is_upper c then (c + 32)%N
  else if ((192 <=? c) && (c <=? 222) && negb (c =? 215))%N then (c + 32)%N
  else c.

(** [s.toLowerCase()].  In a text of the Basic Latin and Latin-1 blocks
    every code unit is mapped on its own, as above, and no rule that
    looks at the context applies.  The lower case of any other text is
    what the Unicode case tables of the engine make of it: [case_tables]
    is that function, a parameter of the model. *)
Definition toLowerCase (case_tables : text → text) (s : text) : text :=
  if forallb (λ c, (c <=? 255)%N) s then lower_unit <$> s else case_tables s.

(** Canonicalisation of an [i]-flag match on a Basic Latin pattern
    character: a code unit above 127 never canonicalises to one below. *)
Definition canon (c : N) : N := if is_lower c then (c - 32)%N else c.

Definition text_eqb (a b : text) : bool := bool_decide (a = b).

(** [s.startsWith(p)] and [s.includes(p)]. *)
Fixpoint startsWith (p s : text) : bool :=
  match p, s with
  | [], _ => true
  | a :: p', b :: s' => (a =? b)%N && startsWith p' s'
  | _ :: _, [] => false
  end.

Fixpoint includes (p s : text) : bool :=
  startsWith p s || match s with _ :: s' => includes p s' | [] => false end.

End Js.

Import Js.

(** ** Regular expressions

    The fragment of the regular expressions that the program uses, with
    the backtracking semantics of the language: alternatives are tried
    left to right, a greedy repetition tries the longest run first and a
    lazy one the shortest.  Repetition is over one code unit (a literal,
    a class or the dot), which is all the program repeats. *)

Module Regex.

Inductive re :=
| Chr (p : N → bool)                  (* one code unit: literal, class, dot *)
| Seq (r1 r2 : re)
| Alt (r1 r2 : re)
| Star (greedy : bool) (p : N → bool) (* p* and p*? *)
| WordB                               (* \b *)
| Eoi                                 (* $ without the m flag *)
| Ahead (r : re)                      (* (?=r) *)
| Eps.

(** A position is the code unit before it and the text after it. *)
Definition cont := option N → text → option text.

Fixpoint star (greedy : bool) (p : N → bool) (prev : option N) (s : text) (k : cont)
    : option text :=
  let more :=
    match s with
    | c :: s' => if p c then star greedy p (Some c) s' k else None
    | [] => None
    end in
  if greedy
  then match more with Some r => Some r | None => k prev s end
  else match k prev s with Some r => Some r | None => more end.

Definition word_at (c : option N) : bool :=
  match c with Some c => is_word c | None => false end.

Fixpoint run (r : re) (prev : option N) (s : text) (k : cont) : option text :=
  match r with
  | Chr p =>
      match s with
      | c :: s' => if p c then k (Some c) s' else None
      | [] => None
      end
  | Seq r1 r2 => run r1 prev s (λ prev' s', run r2 prev' s' k)
  | Alt r1 r2 =>
      match run r1 prev s k with
      | Some res => Some res
      | None => run r2 prev s k
      end
  | Star greedy p => star greedy p prev s k
  | WordB => if xorb (word_at prev) (word_at (head s)) then k prev s else None
  | Eoi => match s with [] => k prev s | _ => None end
  | Ahead r1 =>
      match run r1 prev s (λ _ rest, Some rest) with
      | Some _ => k prev s
      | None => None
      end
  | Eps => k prev s
  end.

(** A match that starts at the current position: what is left after it. *)
Definition match_at (r : re) (prev : option N) (s : text) : option text :=
  run r prev s (λ _ rest, Some rest).

(** [s.match(r)] without the [g] flag: the leftmost match, as
    [(match.index, match[0].length)]. *)
Fixpoint search (r : re) (prev : option N) (s : text) (index : nat)
    : option (nat * nat) :=
  match match_at r prev s with
  | Some rest => Some (index, length s - length rest)
  | None =>
      match s with
      | c :: s' => search r (Some c) s' (S index)
      | [] => None
      end
  end.

Definition match1 (r : re) (s : text) : option (nat * nat) := search r None s 0.

(** [s.match(r)] with the [g] flag: every match, each search starting
    where the previous match ended (one further after an empty match).
    [skip] counts the code units still covered by the previous match. *)
Fixpoint scan_all (r : re) (prev : option N) (s : text) (skip : nat) : list text :=
  let here := match skip with 0 => match_at r prev s | S _ => None end in
  match here with
  | Some rest =>
      let n := length s - length rest in
      take n s :: match s with
                  | c :: s' => scan_all r (Some c) s' (pred n)
                  | [] => []
                  end
  | None =>
      match s with
      | c :: s' => scan_all r (Some c) s' (pred skip)
      | [] => []
      end
  end.

(** The result is [null] (here [None]) when nothing matches. *)
Definition match_all (r : re) (s : text) : option (list text) :=
  match scan_all r None s 0 with
  | [] => None
  | ms => Some ms
  end.

(** [s.split(r)] for a separator without capture groups.  [piece] is the
    text since the end of the last separator; a separator that is empty
    at the start of a piece does not split. *)
Fixpoint split_scan (r : re) (prev : option N) (s : text) (skip : nat) (piece : text)
    : list text :=
  match s with
  | [] => [piece]
  | c :: s' =>
      match skip with
      | S k => split_scan r (Some c) s' k []
      | 0 =>
          match match_at r prev s with
          | Some rest =>
              match length s - length rest, piece with
              | 0, [] => split_scan r (Some c) s' 0 [c]
              | 0, _ => piece :: split_scan r (Some c) s' 0 [c]
              | S k, _ => piece :: split_scan r (Some c) s' k []
              end
          | None => split_scan r (Some c) s' 0 (piece ++ [c])
          end
      end
  end.

Definition split (r : re) (s : text) : list text :=
  match s with
  | [] => match match_at r None [] with Some _ => [] | None => [[]] end
  | _ => split_scan r None s 0 []
  end.

(** Pattern pieces. *)
Definition cat (rs : list re) : re := foldr Seq Eps rs.
Definition chr (c : N) : re := Chr (N.eqb c).
Definition chr_i (c : N) : re := Chr (λ x, (canon x =? canon c)%N).
(** A word of the pattern under the [i] flag. *)
Definition word_i (w : text) : re := cat (chr_i <$> w).
Definition plus (greedy : bool) (p : N → bool) : re := Seq (Chr p) (Star greedy p).
Definition any : N → bool := λ _, true.

End Regex.

(** ** Numbers

    A number of the language is a binary64 floating-point number.  The
    finite ones are rationals, and [+], [-] and [*] give the exact result
    rounded to the nearest binary64 number, to the one with the even
    significand when two are equally near.  A number has 53 significant
    bits, and below [2^-1022] it is a multiple of [2^-1074].  Results
    beyond the largest finite number would be infinite; the numbers of
    the program stay far below it. *)

Module Double.

Definition pow2 (e : Z) : Q := (2 ^ e)%Q.

(** The binade of a positive number: the [m] with [2^m <= x < 2^(m+1)].
    The difference of the binary logarithms of numerator and denominator
    is [m] or [m + 1]. *)
Definition mag (x : Q) : Z :=
  let t := (Z.log2 (Qnum x) - Z.log2 (Zpos (Qden x)))%Z in
  if Qle_bool (pow2 t) x then t else (t - 1)%Z.

(** The nearest integer, the even one of two that are equally near. *)
Definition rne (q : Q) : Z :=
  let f := Qfloor q in
  match (q - inject_Z f ?= 1 # 2)%Q with
  | Lt => f
  | Gt => (f + 1)%Z
  | Eq => if Z.even f then f else (f + 1)%Z
  end.

(** The exponent of the unit in the last place around [x]. *)
Definition ulp_exp (x : Q) : Z := (Z.max (mag (Qabs x)) (-1022) - 52)%Z.

(** The binary64 number nearest to [x]. *)
Definition round (x : Q) : Q :=
  (inject_Z (rne (x / pow2 (ulp_exp x))) * pow2 (ulp_exp x))%Q.

Definition add (x y : Q) : Q := round (x + y).
Definition sub (x y : Q) : Q := round (x - y).
Definition mul (x y : Q) : Q := round (x * y).

End Double.

(** ** Chunker: [splitCodeIntoChunks] *)

(** The body of [for (const line of lines)]; the state is
    [(chunks, currentChunk)]. *)
Definition chunk_step (chunkSize : nat) (st : list text * text) (line : text)
    : list text * text :=
  let '(chunks, currentChunk) := st in
  if (chunkSize <? length currentChunk + length line) && (0 <? length currentChunk)
  then (chunks ++ [currentChunk], line ++ nl)
  else (chunks, currentChunk ++ line ++ nl).

Definition splitCodeIntoChunks (code : text) (chunkSize : nat) : list text :=
  if length code <=? chunkSize then [code]
  else
    let lines := split_lines code in
    let '(chunks, currentChunk) := foldl (chunk_step chunkSize) ([], []) lines in
    if 0 <? length currentChunk then chunks ++ [currentChunk] else chunks.

(** ** Section extractor: [extractSection], [extractIssuesBySeverity] *)

Import Regex.

(** [[:\s]*] *)
Definition colon_or_space : N → bool := λ c, (c =? 58)%N || is_space c.

(** The four heading patterns built from a name, in the order of the
    source: the bare word and the word after three, two and one [#].
    The names the program passes are plain words, so the interpolated
    name is a literal. *)
Definition heading_regexes (name : text) : list re :=
  let word := cat [WordB; word_i name; WordB; Star true colon_or_space] in
  let hashes (n : nat) := cat (replicate n (chr_i 35) ++ [Star true is_space; word]) in
  [word; hashes 3; hashes 2; hashes 1].

(** The loop that looks for the start: the earliest match wins, the
    first regex on a tie.  The state is [(startIndex, matchLength)],
    [None] for [startIndex === -1]. *)
Definition start_step (t : text) (st : option (nat * nat)) (regex : re)
    : option (nat * nat) :=
  match match1 regex t, st with
  | Some (index, len), None => Some (index, len)
  | Some (index, len), Some (startIndex, _) =>
      if index <? startIndex then Some (index, len) else st
  | None, _ => st
  end.

Definition find_start (t name : text) : option nat :=
  match foldl (start_step t) None (heading_regexes name) with
  | Some (startIndex, matchLength) => Some (startIndex + matchLength)
  | None => None
  end.

(** The loop that looks for the end. *)
Definition end_step (t : text) (startIndex : nat) (endIndex : nat) (regex : re) : nat :=
  match match1 regex t with
  | Some (index, _) =>
      if (startIndex <? index) && (index <? endIndex) then index else endIndex
  | None => endIndex
  end.

Definition extractSection (t sectionName : text) (nextSectionName : option text) : text :=
  match t with
  | [] => []
  | _ =>
      match find_start t sectionName with
      | None => []
      | Some startIndex =>
          let endIndex :=
            match nextSectionName with
            | Some next => foldl (end_step t startIndex) (length t) (heading_regexes next)
            | None => length t
            end in
          trim (substring startIndex endIndex t)
      end
  end.

Definition severities : list text :=
  [lit "Critical"; lit "High"; lit "Medium"; lit "Low"].

(** [/\d+\.\s+.+?(?=\n\d+\.|\n\s*$|$)/gs] *)
Definition numbered_item : re :=
  cat [plus true is_digit; chr 46; plus true is_space; plus false any;
       Ahead (Alt (cat [chr LF; plus true is_digit; chr 46])
             (Alt (cat [chr LF; Star true is_space; Eoi])
                  Eoi))].

(** [/\n\s*[-*•]\s*|\n\s*\d+\.\s+/] *)
Definition item_separator : re :=
  Alt (cat [chr LF; Star true is_space; Chr (λ c, mem c [45; 42; 8226]%N); Star true is_space])
      (cat [chr LF; Star true is_space; plus true is_digit; chr 46; plus true is_space]).

Definition extractIssuesBySeverity (case_tables : text → text)
    (issuesText severity : text) : list text :=
  match issuesText with
  | [] => []
  | _ =>
      match find_start issuesText severity with
      | None => []
      | Some startIndex =>
          let nextSeverities :=
            List.filter (λ s, negb (text_eqb (toLowerCase case_tables s)
                                             (toLowerCase case_tables severity)))
                        severities in
          let endIndex :=
            foldl (λ e nextSeverity,
                     foldl (end_step issuesText startIndex) e (heading_regexes nextSeverity))
                  (length issuesText) nextSeverities in
          let severityText := trim (substring startIndex endIndex issuesText) in
          match match_all numbered_item severityText with
          | Some numberedMatches => trim <$> numberedMatches
          | None =>
              trim <$> List.filter (λ issue, negb (text_eqb (trim issue) []))
                                   (split item_separator severityText)
          end
      end
  end.

(** ** Data model *)

Module Issues.
Record t := mk { critical : list text; high : list text; medium : list text; low : list text }.
Definition empty : t := mk [] [] [] [].
End Issues.

Module Count.
Record t := mk { critical : nat; high : nat; medium : nat; low : nat; total : option nat }.
End Count.

(** An entry of the [errors] list of the orchestrator. *)
Module Failure.
Record t := mk { chunkNumber : nat; error : text; code : text }.
End Failure.

(** Error objects: [Error], [DeepseekApiError], [DeepseekTimeoutError],
    [DeepseekParsingError] and the properties the program adds. *)
Module Err.
Record t := mk {
  name : text;
  message : text;
  statusCode : option nat;
  chunkNumber : option nat;
  retryAttempts : option nat;
  retrySuccess : option bool }.

Definition Error (msg : text) : t := mk (lit "Error") msg None None None None.
Definition DeepseekApiError (msg : text) (status : nat) : t :=
  mk (lit "DeepseekApiError") msg (Some status) None None None.
Definition DeepseekTimeoutError (msg : text) (chunk : nat) : t :=
  mk (lit "DeepseekTimeoutError") msg None (Some chunk) None None.
Definition DeepseekParsingError (msg : text) : t :=
  mk (lit "DeepseekParsingError") msg None None None None.
Definition TypeError (msg : text) : t := mk (lit "TypeError") msg None None None None.
Definition SyntaxError (msg : text) : t := mk (lit "SyntaxError") msg None None None None.

(** [error.retryAttempts = n; error.retrySuccess = b] *)
Definition with_retry (n : nat) (b : bool) (e : t) : t :=
  mk (name e) (message e) (statusCode e) (chunkNumber e) (Some n) (Some b).
End Err.

Inductive result (A : Type) :=
| Return (a : A)
| Throw (e : Err.t).
Arguments Return {A} a.
Arguments Throw {A} e.

(** The object that [parseReviewResponse] builds, [processChunkWithRetry]
    annotates, [combineChunkResults] merges and [reviewWithDeepseek]
    returns.  A ChunkResult has [chunkNumber]; a merged report has
    [issueCount] and [processedChunks]. *)
#[local] Unset Elimination Schemes.
Inductive Review := mkReview {
  model : text;
  focusAreas : list text;
  summary : text;
  issues : Issues.t;
  recommendations : text;
  strengths : text;
  rawResponse : text;
  chunkNumber : option nat;
  totalChunks : nat;
  retryAttempts : option nat;
  retrySuccess : option bool;
  issueCount : option Count.t;
  processedChunks : option nat;
  chunkResults : option (list Review);
  errors : option (list Failure.t);
  partialSuccess : option bool }.
#[local] Set Elimination Schemes.

(** [r.summary = s] *)
Definition set_summary (s : text) (r : Review) : Review :=
  mkReview (model r) (focusAreas r) s (issues r) (recommendations r) (strengths r)
           (rawResponse r) (chunkNumber r) (totalChunks r) (retryAttempts r)
           (retrySuccess r) (issueCount r) (processedChunks r) (chunkResults r)
           (errors r) (partialSuccess r).

(** [r.retryAttempts = n; r.retrySuccess = true] *)
Definition set_retry (n : nat) (r : Review) : Review :=
  mkReview (model r) (focusAreas r) (summary r) (issues r) (recommendations r)
           (strengths r) (rawResponse r) (chunkNumber r) (totalChunks r) (Some n)
           (Some true) (issueCount r) (processedChunks r) (chunkResults r)
           (errors r) (partialSuccess r).

(** [r.errors = errs; r.partialSuccess = true] *)
Definition set_failures (errs : list Failure.t) (r : Review) : Review :=
  mkReview (model r) (focusAreas r) (summary r) (issues r) (recommendations r)
           (strengths r) (rawResponse r) (chunkNumber r) (totalChunks r)
           (retryAttempts r) (retrySuccess r) (issueCount r) (processedChunks r)
           (chunkResults r) (Some errs) (Some true).

(** ** [parseReviewResponse] *)

Definition parseReviewResponse (case_tables : text → text) (reviewText : text)
    (focus : list text) (chunk total : nat) : Review :=
  let s_summary := extractSection reviewText (lit "Summary") (Some (lit "Issues")) in
  let s_issues := extractSection reviewText (lit "Issues") (Some (lit "Recommendations")) in
  let s_recommendations :=
    extractSection reviewText (lit "Recommendations") (Some (lit "Strengths")) in
  let s_strengths := extractSection reviewText (lit "Strengths") None in
  let found :=
    Issues.mk (extractIssuesBySeverity case_tables s_issues (lit "Critical"))
              (extractIssuesBySeverity case_tables s_issues (lit "High"))
              (extractIssuesBySeverity case_tables s_issues (lit "Medium"))
              (extractIssuesBySeverity case_tables s_issues (lit "Low")) in
  {| model := lit "deepseek-chat";
     focusAreas := focus;
     summary := match s_summary with [] => reviewText | _ => s_summary end;
     issues := found;
     recommendations := s_recommendations;
     strengths := s_strengths;
     rawResponse := reviewText;
     chunkNumber := Some chunk;
     totalChunks := total;
     retryAttempts := None; retrySuccess := None; issueCount := None;
     processedChunks := None; chunkResults := None; errors := None;
     partialSuccess := None |}.

(** ** Result merger: [combineChunkResults] *)

Module Sev.
Inductive t := Critical | High | Medium | Low.
Definition all : list t := [Critical; High; Medium; Low].

#[global] Instance eq_dec : EqDecision t.
Proof. solve_decision. Defined.

(** [issues[severity]] *)
Definition get (s : t) (i : Issues.t) : list text :=
  match s with
  | Critical => Issues.critical i
  | High => Issues.high i
  | Medium => Issues.medium i
  | Low => Issues.low i
  end.

(** [issues[severity].push(issue)] *)
Definition push (s : t) (issue : text) (i : Issues.t) : Issues.t :=
  match s with
  | Critical => Issues.mk (Issues.critical i ++ [issue]) (Issues.high i) (Issues.medium i) (Issues.low i)
  | High => Issues.mk (Issues.critical i) (Issues.high i ++ [issue]) (Issues.medium i) (Issues.low i)
  | Medium => Issues.mk (Issues.critical i) (Issues.high i) (Issues.medium i ++ [issue]) (Issues.low i)
  | Low => Issues.mk (Issues.critical i) (Issues.high i) (Issues.medium i) (Issues.low i ++ [issue])
  end.
End Sev.

Section Merger.

(** The Unicode case tables of the engine, for [toLowerCase]. *)
Variable case_tables : text → text.

(** [issue.toLowerCase().trim()] *)
Definition normalize (issue : text) : text := trim (toLowerCase case_tables issue).

(** The three nested loops over results, severities and issues; the
    state is [(uniqueIssues, combinedIssues)], one [Set] for all
    severities. *)
Definition issue_step (severity : Sev.t) (st : gset text * Issues.t) (issue : text)
    : gset text * Issues.t :=
  let normalizedIssue := normalize issue in
  if decide (normalizedIssue ∈ st.1) then st
  else ({[normalizedIssue]} ∪ st.1, Sev.push severity issue st.2).

Definition severity_step (found : Issues.t) (st : gset text * Issues.t) (severity : Sev.t)
    : gset text * Issues.t :=
  foldl (issue_step severity) st (Sev.get severity found).

Definition result_step (st : gset text * Issues.t) (r : Review) : gset text * Issues.t :=
  foldl (severity_step (issues r)) st Sev.all.

Definition combine_issues (rs : list Review) : Issues.t :=
  (foldl result_step (∅, Issues.empty) rs).2.

(** Recommendations and strengths: split on runs of line feeds, trim,
    drop the empty items, keep the first of each normalised item. *)
Definition items_of (block : text) : list text :=
  List.filter (λ item, 0 <? length item) (trim <$> Regex.split (plus true (N.eqb LF)) block).

Definition item_step (st : gset text * list text) (item : text) : gset text * list text :=
  let normalized := normalize item in
  if decide (normalized ∈ st.1) then st else ({[normalized]} ∪ st.1, st.2 ++ [item]).

Definition block_step (st : gset text * list text) (block : text) : gset text * list text :=
  match block with
  | [] => st
  | _ => foldl item_step st (items_of block)
  end.

Definition combine_blocks (blocks : list text) : text :=
  join (nl ++ nl) (foldl block_step (∅, []) blocks).2.

Definition chunk_summary (index : nat) (r : Review) : text :=
  lit "Chunk " ++ of_nat (index + 1) ++ lit ": "
  ++ match summary r with [] => lit "No summary available" | s => s end.

(** The function first builds an object [combinedResults] that holds
    [chunkResults] (for retry tracking, its comment says) and then returns
    either [chunkResults[0]] or a second object, built at the end: the
    first object is never returned, so it leaves no trace here. *)
Definition combineChunkResults (rs : list Review) (focus : list text) : result Review :=
  match rs with
  | [] => Throw (Err.Error (lit "No chunk results to combine"))
  | [only] => Return only
  | first :: _ =>
      let summaries := imap chunk_summary rs in
      let combinedSummary :=
        lit "Code Review Summary (" ++ of_nat (length rs) ++ lit " chunks):" ++ nl ++ nl
        ++ join (nl ++ nl) summaries in
      let combinedIssues := combine_issues rs in
      let count :=
        Count.mk (length (Issues.critical combinedIssues))
                 (length (Issues.high combinedIssues))
                 (length (Issues.medium combinedIssues))
                 (length (Issues.low combinedIssues))
                 (Some (length (Issues.critical combinedIssues)
                        + length (Issues.high combinedIssues)
                        + length (Issues.medium combinedIssues)
                        + length (Issues.low combinedIssues))) in
      Return {| model := lit "deepseek-chat";
                focusAreas := focus;
                summary := combinedSummary;
                issues := combinedIssues;
                issueCount := Some count;
                recommendations := combine_blocks (recommendations <$> rs);
                strengths := combine_blocks (strengths <$> rs);
                rawResponse := join (nl ++ nl ++ lit "---" ++ nl ++ nl) (rawResponse <$> rs);
                processedChunks := Some (length rs);
                totalChunks := totalChunks first;
                chunkNumber := None; retryAttempts := None; retrySuccess := None;
                chunkResults := None; errors := None; partialSuccess := None |}
  end.

End Merger.

(** ** Output formatting: [enhanceOutputFormat] *)

Definition numbered (items : list text) : text :=
  join nl (imap (λ i issue, of_nat (i + 1) ++ lit ". " ++ issue) items).

(** [results.issueCount || { critical: ..., high: ..., medium: ..., low: ... }] *)
Definition issueCount_or_lengths (results : Review) : Count.t :=
  match issueCount results with
  | Some c => c
  | None => Count.mk (length (Issues.critical (issues results)))
                     (length (Issues.high (issues results)))
                     (length (Issues.medium (issues results)))
                     (length (Issues.low (issues results))) None
  end.

Definition retrySuccessCount (results : Review) : nat :=
  match chunkResults results with
  | Some chunks =>
      length (List.filter (λ chunk, bool_decide (retrySuccess chunk = Some true)) chunks)
  | None => 0
  end.

(** [n || 1] *)
Definition or_one (n : option nat) : nat :=
  match n with Some (S k) => S k | _ => 1 end.

Definition quickStats (results : Review) : text :=
  let count := issueCount_or_lengths results in
  let totalIssues := Count.critical count + Count.high count + Count.medium count
                     + Count.low count in
  nl ++ lit "## Quick Stats" ++ nl
  ++ lit "- **Total Issues**: " ++ of_nat totalIssues ++ nl
  ++ lit "- **Critical**: " ++ of_nat (Count.critical count) ++ nl
  ++ lit "- **High**: " ++ of_nat (Count.high count) ++ nl
  ++ lit "- **Medium**: " ++ of_nat (Count.medium count) ++ nl
  ++ lit "- **Low**: " ++ of_nat (Count.low count) ++ nl
  ++ lit "- **Focus Areas**: " ++ join (lit ", ") (focusAreas results) ++ nl
  ++ lit "- **Chunks Processed**: " ++ of_nat (or_one (processedChunks results))
  ++ lit "/" ++ of_nat (or_one (Some (totalChunks results))) ++ nl
  ++ (if 0 <? retrySuccessCount results
      then lit "- **Chunks Recovered**: " ++ of_nat (retrySuccessCount results)
           ++ lit " (via retry mechanism)"
      else [])
  ++ nl.

Definition keyIssues (results : Review) : text :=
  let count := issueCount_or_lengths results in
  if (0 <? Count.critical count) || (0 <? Count.high count)
  then nl ++ lit "## Key Issues to Address" ++ nl ++ nl
       ++ (if 0 <? Count.critical count
           then lit "### Critical Issues" ++ nl
                ++ numbered (Issues.critical (issues results)) ++ nl
           else [])
       ++ nl ++ nl
       ++ (if 0 <? Count.high count
           then lit "### High Priority Issues" ++ nl
                ++ numbered (Issues.high (issues results)) ++ nl
           else [])
       ++ nl
  else [].

Definition enhanceOutputFormat (results : Review) : Review :=
  let enhanced :=
    quickStats results ++ keyIssues results ++ nl ++ lit "**" ++ nl ++ nl
    ++ summary results in
  set_summary
    (if 0 <? retrySuccessCount results
     then enhanced ++ nl ++ nl ++ lit "**Note:** " ++ of_nat (retrySuccessCount results)
          ++ lit " chunk(s) initially failed but were successfully recovered through the automatic retry mechanism."
     else enhanced)
    results.

(** ** Request executor: [reviewCodeChunk] *)

(** Values that [JSON.parse] produces.  A number is carried as its
    rendering in a template ([String(n)]). *)
Module Json.
#[local] Unset Elimination Schemes.
Inductive value :=
| Null
| Bool (b : bool)
| Num (rendering : text)
| Str (s : text)
| Arr (items : list value)
| Obj (fields : list (text * value)).
#[local] Set Elimination Schemes.

(** [v[key]] for a [key] that is no built-in property of strings, arrays,
    numbers or booleans: [None] is [undefined], reading a property of
    [null] throws. *)
Definition get (v : value) (key : text) : result (option value) :=
  match v with
  | Null =>
      Throw (Err.TypeError (lit "Cannot read properties of null (reading '" ++ key ++ lit "')"))
  | Obj fields => Return (snd <$> List.find (λ kv, text_eqb kv.1 key) fields)
  | _ => Return None
  end.

(** [v?.[key]] *)
Definition get_opt (v : option value) (key : text) : option value :=
  match v with
  | None | Some Null => None
  | Some v => match get v key with Return x => x | Throw _ => None end
  end.

Definition truthy (v : option value) : bool :=
  match v with
  | None | Some Null => false
  | Some (Bool b) => b
  | Some (Num r) => negb (text_eqb r (lit "0"))
  | Some (Str s) => 0 <? length s
  | Some (Arr _) | Some (Obj _) => true
  end.

(** Interpolation in a template. *)
Fixpoint to_text (v : value) : text :=
  match v with
  | Null => lit "null"
  | Bool true => lit "true"
  | Bool false => lit "false"
  | Num r => r
  | Str s => s
  | Arr items =>
      join (lit ",") ((λ x, match x with Null => [] | _ => to_text x end) <$> items)
  | Obj _ => lit "[object Object]"
  end.
End Json.

(** What the remote end and the timer do for one call.  The race of the
    request against the timer is decided by the environment: either the
    timer fires first, or the request settles first in one of the ways
    the code distinguishes.  A success response whose completion is not a
    string is outside the model. *)
Inductive Exchange :=
| TimedOut
| Rejected (e : Err.t)                         (* [fetch] or [response.json()] rejects *)
| HttpFailure (status : nat) (statusText body : text)  (* [!response.ok] *)
| NoCompletion                                 (* no [choices[0].message] *)
| Completion (content : text).                 (* [choices[0].message.content] *)

Section Reviewer.

(** The Unicode case tables of the engine, for [toLowerCase]. *)
Variable case_tables : text → text.

(** [JSON.parse]: [None] when it throws a [SyntaxError]. *)
Variable JSON_parse : text → option Json.value.

(** The [try] block of the [!response.ok] branch.  Every path through it
    ends in a [throw]. *)
Definition api_error_try (status : nat) (body : text) : result Review :=
  match JSON_parse body with
  | None => Throw (Err.SyntaxError (lit "Unexpected token in JSON"))
  | Some errorData =>
      match Json.get errorData (lit "error") with
      | Throw e => Throw e
      | Return error =>
          let detail :=
            if Json.truthy (Json.get_opt error (lit "message"))
            then from_option Json.to_text [] (Json.get_opt error (lit "message"))
            else if Json.truthy error then from_option Json.to_text [] error
            else body in
          Throw (Err.DeepseekApiError
                   (lit "DeepSeek API error: " ++ of_nat status ++ lit " - " ++ detail)
                   status)
      end
  end.

(** [try { ... } catch (e) { throw new DeepseekApiError(...) }] *)
Definition api_error (status : nat) (statusText body : text) : result Review :=
  match api_error_try status body with
  | Return v => Return v
  | Throw _ =>
      Throw (Err.DeepseekApiError
               (lit "DeepSeek API error: " ++ of_nat status ++ lit " " ++ statusText
                ++ lit " - " ++ body)
               status)
  end.

(** The prompt that is sent is not observed by the model: the answer is
    the [Exchange]. *)
Definition reviewCodeChunk (focus : list text) (chunk total : nat) (x : Exchange)
    : result Review :=
  match x with
  | TimedOut =>
      Throw (Err.DeepseekTimeoutError
               (lit "DeepSeek API request timed out for chunk " ++ of_nat chunk) chunk)
  | Rejected e => Throw e
  | HttpFailure status statusText body => api_error status statusText body
  | NoCompletion => Throw (Err.DeepseekParsingError (lit "Invalid response from DeepSeek API"))
  | Completion review => Return (parseReviewResponse case_tables review focus chunk total)
  end.

(** ** Retry controller: [processChunkWithRetry] *)

Inductive ChunkStatus := pending | in_progress | retrying | completed | failed.

(** What the controller does besides returning: the calls it makes, the
    status it reports, the time it waits (milliseconds). *)
Inductive Event :=
| Called (attempt : nat)
| Reported (s : ChunkStatus)
| Waited (ms : Q).

Definition MAX_RETRIES : nat := 3.
Definition BASE_DELAY : Q := 1000.
Definition MAX_DELAY : Q := 10000.

(** [Math.min(MAX_DELAY, BASE_DELAY * Math.pow(2, attempt))]; the power
    of two is exact. *)
Definition exponentialDelay (attempt : nat) : Q :=
  Qmin MAX_DELAY (Double.mul BASE_DELAY (inject_Z (2 ^ Z.of_nat attempt))).

(** [0.2 * exponentialDelay * (Math.random() - 0.5)]: the literal [0.2]
    is the binary64 number nearest to one fifth, the product is taken from
    left to right, and [random] is the value of [Math.random()]. *)
Definition jitter (attempt : nat) (random : Q) : Q :=
  Double.mul (Double.mul (Double.round 0.2) (exponentialDelay attempt))
             (Double.sub random 0.5).

(** [Math.max(100, exponentialDelay + jitter)] *)
Definition delayWithJitter (attempt : nat) (random : Q) : Q :=
  Qmax 100 (Double.add (exponentialDelay attempt) (jitter attempt random)).

(** The [for] loop.  [fuel] is the number of iterations left
    ([attempt + fuel = MAX_RETRIES + 1]); [call attempt] is the outcome of
    [reviewCodeChunk] in iteration [attempt] and [random attempt] the
    draw made after it fails. *)
Fixpoint retry_loop (call : nat → result Review) (random : nat → Q)
    (fuel attempt : nat) (lastError : option Err.t) (retries : nat)
    : result Review * list Event :=
  match fuel with
  | 0 =>
      (* [throw lastError] after the loop *)
      (Throw (default (Err.Error []) lastError), [])
  | S fuel' =>
      let retries := if 0 <? attempt then attempt else retries in
      let before := if 0 <? attempt then [Reported retrying] else [] in
      match call attempt with
      | Return r =>
          (Return (if 0 <? retries then set_retry retries r else r),
           before ++ [Called attempt])
      | Throw error =>
          if attempt =? MAX_RETRIES
          then (Throw (Err.with_retry MAX_RETRIES false error), before ++ [Called attempt])
          else
            let '(outcome, events) :=
              retry_loop call random fuel' (S attempt) (Some error) retries in
            (outcome,
             before ++ [Called attempt; Waited (delayWithJitter attempt (random attempt))]
             ++ events)
      end
  end.

Definition processChunkWithRetry (call : nat → result Review) (random : nat → Q)
    : result Review * list Event :=
  retry_loop call random (S MAX_RETRIES) 0 None 0.

(** The number of calls of [reviewCodeChunk] in a run. *)
Definition calls (events : list Event) : nat :=
  length (List.filter (λ e, match e with Called _ => true | _ => false end) events).

(** ** Chunk orchestrator: [reviewWithDeepseek] *)

(** The environment of one review: what each call gets ([exchange i a]
    for attempt [a] of the chunk of index [i]), the random draws, and the
    order in which the chunk tasks complete. *)
Record Env := {
  exchange : nat → nat → Exchange;
  draw : nat → nat → Q;
  completion : list nat }.

Record Orch := {
  results : list Review;         (* [chunkResults] *)
  failures : list Failure.t;     (* [errors] *)
  status : list ChunkStatus }.   (* [chunkStatus] *)

Section Orchestrator.
Variables (chunks : list text) (focus : list text) (env : Env).

(** [processChunkWithRetry(chunks[i], ..., i+1, totalChunks, ...)] *)
Definition chunk_run (i : nat) : result Review * list Event :=
  processChunkWithRetry
    (λ attempt, reviewCodeChunk focus (i + 1) (length chunks) (exchange env i attempt))
    (draw env i).

Definition chunk_outcome (i : nat) : result Review := (chunk_run i).1.

(** The synchronous start of every task: [chunkStatus[i] = 'in-progress']. *)
Definition started : Orch :=
  {| results := []; failures := [];
     status := foldl (λ st i, <[i:=in_progress]> st) (replicate (length chunks) pending)
                     (seq 0 (length chunks)) |}.

(** The end of the task of chunk [i]: the [push] after the [await], or
    the [catch]. *)
Definition complete (st : Orch) (i : nat) : Orch :=
  match chunks !! i with
  | None => st
  | Some chunk =>
      match chunk_outcome i with
      | Return chunkResult =>
          {| results := results st ++ [chunkResult];
             failures := failures st;
             status := <[i:=completed]> (status st) |}
      | Throw error =>
          {| results := results st;
             failures := failures st
                         ++ [Failure.mk (i + 1) (Err.message error)
                                        (substring 0 100 chunk ++ lit "...")];
             status := <[i:=failed]> (status st) |}
      end
  end.

(** The state after [await Promise.all(chunkPromises)]. *)
Definition settled : Orch := foldl complete started (completion env).

(** U+26A0 U+FE0F *)
Definition warning_sign : text := [9888; 65039]%N.

Definition warning (failedCount : nat) : text :=
  warning_sign ++ lit " Note: " ++ of_nat failedCount ++ lit " of "
  ++ of_nat (length chunks)
  ++ lit " chunks failed to process. The review is incomplete." ++ nl ++ nl.

(** [combinedResults] before [enhanceOutputFormat]. *)
Definition combined : result Review :=
  let st := settled in
  match results st, failures st with
  | [], first :: _ =>
      Throw (Err.Error (lit "All " ++ of_nat (length (failures st))
                        ++ lit " chunks failed to process. First error: "
                        ++ Failure.error first))
  | _, _ =>
      match combineChunkResults case_tables (results st) focus with
      | Throw e => Throw e
      | Return combinedResults =>
          Return (match failures st with
                  | [] => combinedResults
                  | _ => set_summary (warning (length (failures st)) ++ summary combinedResults)
                                     (set_failures (failures st) combinedResults)
                  end)
      end
  end.

Definition reviewChunks : result Review :=
  match combined with
  | Throw e => Throw e
  | Return combinedResults => Return (enhanceOutputFormat combinedResults)
  end.

End Orchestrator.

(** [config.DEEPSEEK_API_KEY || config.NEXT_PUBLIC_DEEPSEEK_API_KEY] *)
Record Config := {
  DEEPSEEK_API_KEY : option text;
  NEXT_PUBLIC_DEEPSEEK_API_KEY : option text }.

Definition apiKey (config : Config) : option text :=
  match DEEPSEEK_API_KEY config with
  | Some (c :: k) => Some (c :: k)
  | _ => NEXT_PUBLIC_DEEPSEEK_API_KEY config
  end.

Definition reviewWithDeepseek (code : text) (focus : list text) (config : Config)
    (env : Env) : result Review :=
  match apiKey config with
  | None | Some [] =>
      Throw (Err.Error (lit "DeepSeek API key not found. Set DEEPSEEK_API_KEY or NEXT_PUBLIC_DEEPSEEK_API_KEY in .env or .aicodereviewrc"))
  | Some _ => reviewChunks (splitCodeIntoChunks code 3000) focus env
  end.

End Reviewer.

(** * Definitions used by the statements and the proofs *)

(** The chunk that holds the given lines: each followed by a line feed. *)
Definition render (group : list text) : text := concat ((λ l, l ++ nl) <$> group).

(** A group of lines in which every line but the first was added to a
    chunk in which it fitted: the length of the lines before it, with
    their line feeds, plus its own length is at most [n]. *)
Definition packed (n : nat) (group : list text) : Prop :=
  ∀ before line after,
    group = before ++ line :: after → before ≠ [] →
    length (render before) + length line ≤ n.

(** Of two groups that follow each other, the first line of the second
    did not fit in the chunk of the first. *)
Definition closed_when_full (n : nat) (groups : list (list text)) : Prop :=
  ∀ i g1 g2 line,
    groups !! i = Some g1 → groups !! (S i) = Some g2 → head g2 = Some line →
    n < length (render g1) + length line.

(** The groups of lines of the chunks closed so far and of the running
    chunk, for the loop invariant. *)
Definition groups_of (n : nat) (gs : list (list text)) (g : list text)
    (st : list text * text) : Prop :=
  st = (render <$> gs, render g)
  ∧ Forall (λ g, g ≠ []) gs
  ∧ Forall (packed n) (gs ++ [g])
  ∧ closed_when_full n (gs ++ [g]).

(** Case tables for the examples: their texts are in the Latin-1 block,
    where the case tables are not asked anything. *)
Definition no_tables (s : text) : text := s.

(** The response of the example of the section extractor. *)
Definition example_review : text :=
  join nl [lit "## Summary"; lit "All good"; lit "## Issues"; lit "### Critical";
           lit "1. SQL injection"; lit "### High"; lit "1. No input validation";
           lit "## Recommendations"; lit "Add tests"; lit "## Strengths";
           lit "Clear naming"].

(** A stub of the underlying call: it fails on the first [n] attempts
    and succeeds afterwards. *)
Definition fails_then_succeeds (n : nat) (e : Err.t) (r : Review) (attempt : nat)
    : result Review :=
  if attempt <? n then Throw e else Return r.

Definition always_fails (e : Err.t) (attempt : nat) : result Review := Throw e.

Definition example_result : Review := parseReviewResponse no_tables example_review [] 1 1.

(** An error body whose message has an escaped line feed:
    [{"error":{"message":"quota exceeded\nretry later"}}]. *)
Definition quote : text := [34%N].
Definition example_error_body : text :=
  lit "{" ++ quote ++ lit "error" ++ quote ++ lit ":{" ++ quote ++ lit "message" ++ quote
  ++ lit ":" ++ quote ++ lit "quota exceeded\nretry later" ++ quote ++ lit "}}".

Definition example_error_detail : text := lit "quota exceeded" ++ nl ++ lit "retry later".

(** What [JSON.parse] makes of that body; nothing else is asked of it. *)
Definition example_JSON_parse (t : text) : option Json.value :=
  if text_eqb t example_error_body
  then Some (Json.Obj [(lit "error", Json.Obj [(lit "message", Json.Str example_error_detail)])])
  else None.

(** Every issue of the results with its severity, in the order in which
    the merge visits them: result by result, severity by severity. *)
Definition tagged_issues (rs : list Review) : list (Sev.t * text) :=
  r ← rs; sev ← Sev.all; pair sev <$> Sev.get sev (issues r).

(** De-duplication in the words of the specification: of the issues with
    the same key, the first one seen is kept, in the order in which it
    was seen.  [seen] holds the keys met so far. *)
Fixpoint first_seen (key : text → text) (seen : list text) (l : list (Sev.t * text))
    : list (Sev.t * text) :=
  match l with
  | [] => []
  | (sev, issue) :: l' =>
      if bool_decide (key issue ∈ seen) then first_seen key seen l'
      else (sev, issue) :: first_seen key (key issue :: seen) l'
  end.

(** One step of the merge on a tagged issue. *)
Definition tagged_step (case_tables : text → text) (st : gset text * Issues.t)
    (p : Sev.t * text) : gset text * Issues.t :=
  issue_step case_tables p.1 st p.2.

Definition bucket (sev : Sev.t) (l : list (Sev.t * text)) : list text :=
  snd <$> filter (λ p, p.1 = sev) l.

Definition all_issues (i : Issues.t) : list text :=
  Issues.critical i ++ Issues.high i ++ Issues.medium i ++ Issues.low i.

(** A chunk result with the given high-severity issues. *)
Definition result_with_high (chunk : nat) (found : list text) : Review :=
  {| model := lit "deepseek-chat"; focusAreas := []; summary := lit "ok";
     issues := Issues.mk [] found [] []; recommendations := []; strengths := [];
     rawResponse := lit "ok"; chunkNumber := Some chunk; totalChunks := 3;
     retryAttempts := None; retrySuccess := None; issueCount := None;
     processedChunks := None; chunkResults := None; errors := None;
     partialSuccess := None |}.

Definition example_results : list Review :=
  [result_with_high 1 [lit "Missing null check"; lit "Unused import"];
   result_with_high 3 [lit "  missing NULL check "; lit "Dead code"]].

(** Two results that were both obtained on a retry. *)
Definition example_recovered : list Review :=
  [set_retry 1 (result_with_high 1 []); set_retry 2 (result_with_high 2 [])].

Section Outcomes.
Variables (case_tables : text → text) (JSON_parse : text → option Json.value).
Variables (chunks : list text) (focus : list text) (env : Env).

(** What the task of chunk [i] adds to [chunkResults] or to [errors]. *)
Definition success_of (i : nat) : option Review :=
  match chunks !! i, chunk_outcome case_tables JSON_parse chunks focus env i with
  | Some _, Return r => Some r
  | _, _ => None
  end.

Definition failure_of (i : nat) : option Failure.t :=
  match chunks !! i, chunk_outcome case_tables JSON_parse chunks focus env i with
  | Some chunk, Throw e =>
      Some (Failure.mk (i + 1) (Err.message e) (substring 0 100 chunk ++ lit "..."))
  | _, _ => None
  end.

(** The successes and the failures, in the order of completion. *)
Definition succeeded : list Review := omap success_of (completion env).
Definition failed_entries : list Failure.t := omap failure_of (completion env).

End Outcomes.

Definition is_settled (s : ChunkStatus) : Prop := s = completed ∨ s = failed.

(** What the results of the chunks have in common: the properties that
    only a merge sets are absent. *)
Definition is_chunk_result (r : Review) : Prop :=
  processedChunks r = None ∧ chunkResults r = None ∧ issueCount r = None
  ∧ errors r = None ∧ partialSuccess r = None.

(** Example runs.  No error body occurs in them, so [JSON.parse] is not
    asked anything. *)
Definition no_JSON (t : text) : option Json.value := None.

(** Five chunks; those of index 1 and 3 time out on every attempt, the
    others get the example response; the tasks complete out of order. *)
Definition example_chunks : list text := [lit "a"; lit "b"; lit "c"; lit "d"; lit "e"].

Definition example_env : Env :=
  {| exchange := λ i _, if bool_decide (i ∈ [1; 3]) then TimedOut
                        else Completion example_review;
     draw := λ _ _, 0%Q;
     completion := [2; 0; 3; 4; 1] |}.

(** Two chunks, of which the second times out on every attempt. *)
Definition example_pair : list text := [lit "a"; lit "b"].

Definition example_pair_env : Env :=
  {| exchange := λ i _, if bool_decide (i = 1) then TimedOut
                        else Completion example_review;
     draw := λ _ _, 0%Q;
     completion := [0; 1] |}.

(** Every attempt of every chunk times out. *)
Definition example_dead_env : Env :=
  {| exchange := λ _ _, TimedOut; draw := λ _ _, 0%Q; completion := [1; 0] |}.

Definition example_config : Config :=
  {| DEEPSEEK_API_KEY := Some (lit "sk-test"); NEXT_PUBLIC_DEEPSEEK_API_KEY := None |}.

(** One chunk, answered at once. *)
Definition example_single_env : Env :=
  {| exchange := λ _ _, Completion example_review; draw := λ _ _, 0%Q;
     completion := [0] |}.

(** A text of two long lines, which the chunker splits in two. *)
Definition example_long_code : text := replicate 2000 97%N ++ nl ++ replicate 2000 98%N.

(** A text of three long lines, for three chunks, of which the second
    times out on every attempt; the tasks complete out of order. *)
Definition example_three_code : text :=
  replicate 2000 97%N ++ nl ++ replicate 2000 98%N ++ nl ++ replicate 2000 99%N.

Definition example_three_env : Env :=
  {| exchange := λ i _, if bool_decide (i = 1) then TimedOut
                        else Completion example_review;
     draw := λ _ _, 0%Q;
     completion := [2; 1; 0] |}.

(** The largest binary64 number below 1: [1 - 2^-53]. *)
Definition largest_draw : Q := (1 - (1 # 9007199254740992))%Q.

(** The binary64 numbers of the kernel, to compare [Double] with: the
    rational that a finite number is, and the expression of the delay on
    them. *)
Section Kernel.
Import PrimFloat.

Definition Q_of_float (f : PrimFloat.float) : option Q :=
  match FloatOps.Prim2SF f with
  | SpecFloat.S754_zero _ => Some 0%Q
  | SpecFloat.S754_finite s m e =>
      Some ((if s then -1 else 1) * inject_Z (Zpos m) * Double.pow2 e)%Q
  | _ => None
  end.

Definition float_max (x y : PrimFloat.float) : PrimFloat.float :=
  if PrimFloat.ltb x y then y else x.

Definition float_min (x y : PrimFloat.float) : PrimFloat.float :=
  if PrimFloat.ltb y x then y else x.

Definition delayWithJitter_kernel (attempt : nat) (random : PrimFloat.float)
    : PrimFloat.float :=
  let exponentialDelay :=
    float_min 10000%float
              (PrimFloat.mul 1000%float (FloatOps.Z.ldexp 1%float (Z.of_nat attempt))) in
  let jitter :=
    PrimFloat.mul (PrimFloat.mul 0x1.999999999999ap-3%float exponentialDelay)
                  (PrimFloat.sub random 0.5%float) in
  float_max 100%float (PrimFloat.add exponentialDelay jitter).

(** Draws over the range, with the smallest and the largest ones. *)
Definition float_below_1 : PrimFloat.float := 0x1.fffffffffffffp-1%float.

Definition example_draws : list PrimFloat.float :=
  [0%float; 0x1p-1074%float; 0x1p-53%float; 0x1.999999999999ap-4%float; 0.25%float;
   0x1.5555555555555p-2%float; 0.5%float; 0x1.0000000000001p-1%float; 0.75%float;
   0x1.ccccccccccccdp-1%float; 0x1.ffffffffffffep-1%float; float_below_1].

End Kernel.

Definition agrees_with_kernel (attempt : nat) (random : PrimFloat.float) : bool :=
  match Q_of_float random, Q_of_float (delayWithJitter_kernel attempt random) with
  | Some r, Some delay => Qeq_bool (delayWithJitter attempt r) delay
  | _, _ => false
  end.

(** * More of the program, and what is proved about it *)

(** ** Slices of a text *)

(** [a] occurs in [b] as a contiguous run of code units. *)
Definition slice_of (a b : text) : Prop := ∃ pre post, b = pre ++ a ++ post.

(** Nothing to strip at either end. *)
Definition trimmed (s : text) : Prop := trim s = s.

(** ** Retry controller: what a run waits and reports *)




(** ** Result merger: the issues that go in *)

(** The issues of one severity of all results, in the order of the
    results. *)
Definition issues_in (sev : Sev.t) (rs : list Review) : list text :=
  r ← rs; Sev.get sev (issues r).

(** The normalised texts of all the issues of all the results. *)
Definition issue_keys (case_tables : text → text) (rs : list Review) : gset text :=
  list_to_set (normalize case_tables <$> (snd <$> tagged_issues rs)).

(** ** Result merger: recommendations and strengths *)



(** ** Chunk orchestrator: more example runs *)

(** Every chunk is answered at once; the second task completes first. *)
Definition example_ok_env : Env :=
  {| exchange := λ _ _, Completion example_review; draw := λ _ _, 0%Q;
     completion := [1; 0] |}.

(** ** The prompt: [constructSimplifiedPrompt] *)

(** [s.replace(r, '')] without the [g] flag: the leftmost match is
    removed. *)
Definition remove_first (r : re) (s : text) : text :=
  match match1 r s with
  | Some (index, len) => take index s ++ drop (index + len) s
  | None => s
  end.

(** [focusAreas.includes(name)] *)
Definition has_focus (focus : list text) (name : text) : bool :=
  existsb (text_eqb name) focus.

(** The names that the prompt knows, in the order of the four tests. *)
Definition prompt_focus_names : list text :=
  [lit "security"; lit "performance"; lit "readability"; lit "maintainability"].

(** [focusInstructions] at the end of the function: the four [if]s, the
    [replace] of [/, $/] (a comma and a space before the end of the
    text) and the default. *)
Definition focusInstructions (focus : list text) : text :=
  let s := [] in
  let s := if has_focus focus (lit "security") then s ++ lit "security, " else s in
  let s := if has_focus focus (lit "performance") then s ++ lit "performance, " else s in
  let s := if has_focus focus (lit "readability") then s ++ lit "readability, " else s in
  let s := if has_focus focus (lit "maintainability") then s ++ lit "maintainability, "
           else s in
  let s := remove_first (cat [chr 44; chr 32; Eoi]) s in
  match s with
  | [] => lit "general code quality"
  | _ => s
  end.

Definition constructSimplifiedPrompt (code : text) (focus : list text)
    (chunkNumber totalChunks : nat) : text :=
  lit "Review this code (chunk " ++ of_nat chunkNumber ++ lit "/" ++ of_nat totalChunks
  ++ lit ") focusing on " ++ focusInstructions focus ++ lit "." ++ nl
  ++ lit "Provide a brief summary, list issues by severity (Critical/High/Medium/Low), and suggest improvements."
  ++ nl ++ nl ++ lit "CODE:" ++ nl ++ lit "```" ++ nl ++ code ++ nl ++ lit "```".

(** ** The command line: the focus areas of [runCLI] *)

(** [s.split(',')] *)
Fixpoint split_on (sep : N) (s : text) : list text :=
  match s with
  | [] => [[]]
  | c :: s' =>
      if (c =? sep)%N then [] :: split_on sep s'
      else match split_on sep s' with
           | l :: ls => (c :: l) :: ls
           | [] => [[c]]
           end
  end.

Definition validFocusAreas : list text :=
  [lit "security"; lit "performance"; lit "readability"; lit "maintainability";
   lit "general"].

Definition is_valid_focus (area : text) : bool := existsb (text_eqb area) validFocusAreas.

(** The focus areas that [runCLI] passes on, from the value of
    [--focus]: the list is emptied and refilled with the valid areas when
    an area is unknown, with [general] when none is valid. *)
Definition runCLI_focusAreas (focus : text) : list text :=
  let focusAreas := trim <$> split_on 44 focus in
  let invalidFocusAreas := List.filter (λ area, negb (is_valid_focus area)) focusAreas in
  if 0 <? length invalidFocusAreas
  then
    let filteredFocusAreas := List.filter is_valid_focus focusAreas in
    match filteredFocusAreas with
    | [] => [lit "general"]
    | _ => filteredFocusAreas
    end
  else focusAreas.

(** ** Configuration: [loadConfig], [validateConfig] *)

Definition KEY : text := lit "DEEPSEEK_API_KEY".
Definition LEGACY_KEY : text := lit "NEXT_PUBLIC_DEEPSEEK_API_KEY".

(** A configuration object, as the map of its own properties.  The
    values are what the parsers give ([V]); the code only tests whether
    they are truthy.  The keys are not names of [Object.prototype]. *)
Section Config.
Context {V : Type} (truthy : V → bool).

(** [config[key]] as a condition *)
Definition truthy_at (config : gmap text V) (key : text) : bool :=
  from_option truthy false (config !! key).

(** [dotenv] and [rc] are the parsed [.env] and [.aicodereviewrc], [None]
    when the file is absent or cannot be read or parsed (the [catch]
    only warns); [process_env] is [process.env].  A spread
    [{ ...config, ...more }] is [more ∪ config]. *)
Definition loadConfig (dotenv rc : option (gmap text V)) (process_env : gmap text V)
    : gmap text V :=
  let config : gmap text V := ∅ in
  let config := match dotenv with Some envConfig => envConfig ∪ config | None => config end in
  let config := match rc with Some rcConfig => rcConfig ∪ config | None => config end in
  let config := process_env ∪ config in
  if truthy_at config LEGACY_KEY && negb (truthy_at config KEY)
  then match config !! LEGACY_KEY with
       | Some v => <[KEY := v]> config
       | None => config
       end
  else config.

Definition validateConfig (config : gmap text V) (requiredKeys : list text) : list text :=
  List.filter (λ key, negb (truthy_at config key)) requiredKeys.

End Config.

(** A text is truthy when it is not empty. *)
Definition nonempty (s : text) : bool := 0 <? length s.

(** The two keys that [reviewWithDeepseek] reads, from a configuration
    whose values are texts. *)
Definition config_of (config : gmap text text) : Config :=
  {| DEEPSEEK_API_KEY := config !! KEY;
     NEXT_PUBLIC_DEEPSEEK_API_KEY := config !! LEGACY_KEY |}.

(** [!apiKey] is false. *)
Definition key_found (config : Config) : bool :=
  match apiKey config with
  | Some (_ :: _) => true
  | _ => false
  end.

(** ** Chunk orchestrator: the status table and [updateProgress] *)

#[global] Instance ChunkStatus_eq_dec : EqDecision ChunkStatus.
Proof. solve_decision. Defined.

(** [chunkStatus.filter(status => status === s).length] *)
Definition count_status (s : ChunkStatus) (chunkStatus : list ChunkStatus) : nat :=
  length (List.filter (λ x, bool_decide (x = s)) chunkStatus).

(** The glyph of a status in the progress bar: U+2713, U+2717, U+22EF,
    U+21BB and, for anything else, U+25CB. *)
Definition glyph (s : ChunkStatus) : text :=
  match s with
  | completed => [10003%N]
  | failed => [10007%N]
  | in_progress => [8943%N]
  | retrying => [8635%N]
  | pending => [9675%N]
  end.

(** The line that [updateProgress] logs. *)
Definition updateProgress (chunkStatus : list ChunkStatus) (totalChunks : nat) : text :=
  let completed := count_status completed chunkStatus in
  let failed := count_status failed chunkStatus in
  let inProgress := count_status in_progress chunkStatus in
  let retrying := count_status retrying chunkStatus in
  let progressBar := join (lit " ") (glyph <$> chunkStatus) in
  lit "Progress [" ++ progressBar ++ lit "] - " ++ of_nat completed ++ lit "/"
  ++ of_nat totalChunks ++ lit " completed, " ++ of_nat failed ++ lit " failed, "
  ++ of_nat retrying ++ lit " retrying, " ++ of_nat inProgress ++ lit " in progress".

(** The status of a chunk when its task is over. *)
Definition final_status (case_tables : text → text)
    (JSON_parse : text → option Json.value) (chunks focus : list text)
    (env : Env) (i : nat) : ChunkStatus :=
  match chunk_outcome case_tables JSON_parse chunks focus env i with
  | Return _ => completed
  | Throw _ => failed
  end.

(** ** Reading the file: [readFileContent] *)

(** An error of the file system: [error.code] and [error.message]. *)
Record FsError := { fs_code : option text; fs_message : text }.

(** The file system, for the path that [path.resolve] gives: [access]
    resolves ([None]) or rejects, [readFile] rejects or gives the
    content. *)
Record Fs := {
  access : text → option FsError;
  readFile : text → FsError + text }.

(** The [catch] of [readFileContent]. *)
Definition read_error (filePath : text) (error : FsError) : Err.t :=
  if bool_decide (fs_code error = Some (lit "ENOENT"))
  then Err.Error (lit "File not found: " ++ filePath)
  else Err.Error (lit "Error reading file " ++ filePath ++ lit ": " ++ fs_message error).

Definition readFileContent (fs : Fs) (filePath : text) : result text :=
  match access fs filePath with
  | Some error => Throw (read_error filePath error)
  | None =>
      match readFile fs filePath with
      | inl error => Throw (read_error filePath error)
      | inr content => Return content
      end
  end.

(** ** The formatter: [formatOutput], [formatText], [formatMarkdown] *)

Module Results.
(** [results.deepseek]: [{ error: message }] or the report. *)
Inductive outcome :=
| Failed (error : text)
| Reviewed (report : Review).

Record t := mk {
  sourceType : text;
  sourceName : text;
  focusAreas : list text;
  deepseek : outcome;
  timestamp : text }.
End Results.

(** The styles of [chalk] that the formatter uses; what a style does to a
    text depends on the terminal. *)
Inductive Style := bold_blue | bold | bold_cyan | red | bold_red | bold_yellow | bold_green.

(** [!summary.includes('## ' + name) && !summary.includes('### ' + name)] *)
Definition section_missing (summary name : text) : bool :=
  negb (includes (lit "## " ++ name) summary)
  && negb (includes (lit "### " ++ name) summary).

(** [items.forEach(issue => { output += prefix + issue + '\n' })] *)
Definition item_lines (prefix : text) (items : list text) : text :=
  concat ((λ issue, prefix ++ issue ++ nl) <$> items).

(** What reading [deepseek.summary.includes] throws when the object has
    no summary. *)
Definition no_summary_error : Err.t :=
  Err.TypeError (lit "Cannot read properties of undefined (reading 'includes')").

Definition markdown_severity (heading : text) (items : list text) : text :=
  if 0 <? length items
  then heading ++ nl ++ nl ++ item_lines (lit "- ") items ++ nl
  else [].

Definition formatMarkdown (results : Results.t) : result text :=
  let header :=
    lit "# AI Code Review Report" ++ nl ++ nl
    ++ lit "**Source:** " ++ Results.sourceName results ++ lit " ("
    ++ Results.sourceType results ++ lit ")  " ++ nl
    ++ lit "**Focus Areas:** " ++ join (lit ", ") (Results.focusAreas results)
    ++ lit "  " ++ nl
    ++ lit "**Timestamp:** " ++ Results.timestamp results ++ lit "  " ++ nl ++ nl
    ++ lit "## DeepSeek Review" ++ nl ++ nl in
  match Results.deepseek results with
  | Results.Failed [] => Throw no_summary_error
  | Results.Failed error =>
      Return (header ++ lit "**Error:** " ++ error ++ nl ++ nl
              ++ lit "## Summary" ++ nl ++ nl
              ++ lit "**No reviews completed successfully.**" ++ nl)
  | Results.Reviewed r =>
      Return (header ++ summary r ++ nl ++ nl
              ++ (if section_missing (summary r) (lit "Issues")
                  then lit "### Issues" ++ nl ++ nl
                       ++ markdown_severity (lit "#### CRITICAL") (Issues.critical (issues r))
                       ++ markdown_severity (lit "#### HIGH") (Issues.high (issues r))
                       ++ markdown_severity (lit "#### MEDIUM") (Issues.medium (issues r))
                       ++ markdown_severity (lit "#### LOW") (Issues.low (issues r))
                  else [])
              ++ (if section_missing (summary r) (lit "Recommendations")
                  then lit "### Recommendations" ++ nl ++ nl ++ recommendations r ++ nl ++ nl
                  else [])
              ++ (if section_missing (summary r) (lit "Strengths")
                  then lit "### Strengths" ++ nl ++ nl ++ strengths r ++ nl ++ nl
                  else [])
              ++ lit "## Summary" ++ nl ++ nl
              ++ lit "DeepSeek review completed successfully." ++ nl)
  end.

Section Formatter.
(** The Unicode case tables of the engine, [chalk] and
    [JSON.stringify(results, null, 2)]. *)
Variable case_tables : text → text.
Variable chalk : Style → text → text.
Variable JSON_stringify : Results.t → text.

Definition text_severity (style : Style) (heading : text) (items : list text) : text :=
  if 0 <? length items
  then chalk style (heading ++ nl) ++ item_lines (lit "  - ") items ++ nl
  else [].

Definition formatText (results : Results.t) : result text :=
  let header :=
    chalk bold_blue (lit "===== AI CODE REVIEW REPORT =====" ++ nl)
    ++ chalk bold (lit "Source:") ++ lit " " ++ Results.sourceName results ++ lit " ("
    ++ Results.sourceType results ++ lit ")" ++ nl
    ++ chalk bold (lit "Focus Areas:") ++ lit " "
    ++ join (lit ", ") (Results.focusAreas results) ++ nl
    ++ chalk bold (lit "Timestamp:") ++ lit " " ++ Results.timestamp results ++ nl ++ nl
    ++ chalk bold_cyan (lit "===== DEEPSEEK REVIEW =====" ++ nl) in
  match Results.deepseek results with
  | Results.Failed [] => Throw no_summary_error
  | Results.Failed error =>
      Return (header ++ chalk red (lit "Error: " ++ error ++ nl ++ nl)
              ++ chalk bold_blue (lit "===== SUMMARY =====" ++ nl)
              ++ chalk red (lit "No reviews completed successfully." ++ nl))
  | Results.Reviewed r =>
      Return (header ++ summary r ++ nl ++ nl
              ++ (if section_missing (summary r) (lit "Issues")
                  then chalk bold (lit "Issues:" ++ nl)
                       ++ text_severity bold_red (lit "CRITICAL:") (Issues.critical (issues r))
                       ++ text_severity bold_yellow (lit "HIGH:") (Issues.high (issues r))
                       ++ text_severity bold_blue (lit "MEDIUM:") (Issues.medium (issues r))
                       ++ text_severity bold_green (lit "LOW:") (Issues.low (issues r))
                  else [])
              ++ (if section_missing (summary r) (lit "Recommendations")
                  then chalk bold (lit "Recommendations:" ++ nl) ++ recommendations r
                       ++ nl ++ nl
                  else [])
              ++ (if section_missing (summary r) (lit "Strengths")
                  then chalk bold (lit "Strengths:" ++ nl) ++ strengths r ++ nl ++ nl
                  else [])
              ++ chalk bold_blue (lit "===== SUMMARY =====" ++ nl)
              ++ lit "DeepSeek review completed successfully." ++ nl)
  end.

(** [switch (format.toLowerCase())] *)
Definition formatOutput (results : Results.t) (format : text) : result text :=
  if text_eqb (toLowerCase case_tables format) (lit "json")
  then Return (JSON_stringify results)
  else if text_eqb (toLowerCase case_tables format) (lit "markdown")
  then formatMarkdown results
  else formatText results.

(** ** The entry point: [reviewCode] *)

(** The options after the defaults of the destructuring; [now] is
    [new Date().toISOString()].  The result is the object returned and
    what the last step logs; the spinner and the verbose log are not
    modelled. *)
Definition reviewCode (JSON_parse : text → option Json.value) (fs : Fs) (now : text)
    (filePath codeSnippet : option text) (focusAreas : option (list text))
    (outputFormat : option text) (config : option Config) (env : Env)
    : result (Results.t * list text) :=
  let focusAreas := default [lit "general"] focusAreas in
  let outputFormat := default (lit "text") outputFormat in
  let config := default {| DEEPSEEK_API_KEY := None; NEXT_PUBLIC_DEEPSEEK_API_KEY := None |}
                        config in
  let review (codeContent sourceType sourceName : text) :=
    let outcome :=
      match reviewWithDeepseek case_tables JSON_parse codeContent focusAreas config env with
      | Return report => Results.Reviewed report
      | Throw error => Results.Failed (Err.message error)
      end in
    let results := Results.mk sourceType sourceName focusAreas outcome now in
    match formatOutput results outputFormat with
    | Throw e => Throw e
    | Return formattedOutput =>
        Return (results,
                if text_eqb outputFormat (lit "text") || text_eqb outputFormat (lit "markdown")
                then [formattedOutput]
                else if text_eqb outputFormat (lit "json") then [JSON_stringify results]
                else [])
    end in
  match filePath, codeSnippet with
  | Some (c :: path), _ =>
      match readFileContent fs (c :: path) with
      | Throw error => Throw error
      | Return codeContent => review codeContent (lit "file") (c :: path)
      end
  | _, Some (c :: snippet) => review (c :: snippet) (lit "snippet") (lit "Code Snippet")
  | _, _ => Throw (Err.Error (lit "Either filePath or codeSnippet must be provided"))
  end.

End Formatter.

(** * Properties *)

(** ** Chunker *)

Lemma split_lines_nonempty s : split_lines s ≠ [].
Proof.
  destruct s as [|c s]; simpl; [done|].
  destruct (c =? LF)%N; [done|]. by destruct (split_lines s).
Qed.






Lemma render_app g1 g2 : render (g1 ++ g2) = render g1 ++ render g2.
Proof. unfold render. by rewrite fmap_app, concat_app. Qed.

Lemma render_nil_inv g : render g = [] → g = [].
Proof. destruct g as [|l g]; [done|]. unfold render. simpl. by destruct l. Qed.

Lemma render_length_pos g : g ≠ [] → 0 < length (render g).
Proof.
  intros Hg. destruct (render g) eqn:E; [|simpl; lia].
  by apply render_nil_inv in E.
Qed.

Lemma packed_singleton n l : packed n [l].
Proof.
  intros before line after Heq Hne. destruct before as [|b before]; [done|].
  injection Heq as _ Heq. by destruct before.
Qed.

Lemma packed_snoc n g l :
  packed n g → length (render g) + length l ≤ n → packed n (g ++ [l]).
Proof.
  intros Hg Hfit before line after Heq Hne.
  destruct after as [|x after _] using rev_ind.
  - apply app_inj_tail in Heq as [-> ->]. done.
  - rewrite app_comm_cons, app_assoc in Heq. apply app_inj_tail in Heq as [-> _].
    by eapply Hg.
Qed.

(** A chunk of lines that were added because they fitted has at most
    [n + 1] code units, unless it is one line longer than [n]. *)
Lemma packed_bound n g :
  g ≠ [] → packed n g →
  length (render g) ≤ n + 1 ∨ ∃ line, g = [line] ∧ n < length line.
Proof.
  intros Hne Hg. destruct g as [|last before _] using rev_ind; [done|].
  destruct before as [|first before].
  - destruct (decide (length last ≤ n)) as [Hle|Hgt].
    + left. unfold render. simpl. rewrite app_nil_r, length_app. simpl. lia.
    + right. exists last. split; [done|lia].
  - left. specialize (Hg (first :: before) last [] eq_refl ltac:(done)).
    rewrite render_app, length_app. unfold render at 2. simpl.
    rewrite app_nil_r, length_app. simpl. lia.
Qed.

(** The loop keeps the chunks made of whole lines, in order; it adds a
    line to the running chunk when the line fits, and closes the chunk
    only before a line that does not. *)
Lemma chunk_fold_groups n lines gs g st :
  groups_of n gs g st → (g = [] → gs = []) →
  ∃ gs' g', groups_of n gs' g' (foldl (chunk_step n) st lines)
            ∧ concat gs' ++ g' = concat gs ++ g ++ lines
            ∧ (g' = [] → lines = [] ∧ g = []).
Proof.
  revert gs g st. induction lines as [|l lines IH]; intros gs g st Hst Hg.
  - exists gs, g. rewrite app_nil_r. done.
  - cbn [foldl]. destruct Hst as (-> & Hne & Hpacked & Hadj). unfold chunk_step at 2.
    rewrite Forall_app, Forall_singleton in Hpacked. destruct Hpacked as [Hpgs Hpg].
    destruct (Nat.ltb_spec n (length (render g) + length l)) as [Hbig|Hfit];
      destruct (Nat.ltb_spec 0 (length (render g))) as [Hpos|Hzero]; cbn [andb].
    + (* the line does not fit: close the chunk *)
      assert (g ≠ []) as Hgne by (intros ->; simpl in Hpos; lia).
      destruct (IH (gs ++ [g]) [l] (render <$> (gs ++ [g]), render [l]))
        as (gs' & g' & Hinv & Hcat & Hnil).
      * split_and!.
        -- done.
        -- apply Forall_app. split; [done|]. by apply Forall_singleton.
        -- rewrite !Forall_app, !Forall_singleton. split_and!; [done|done|].
           apply packed_singleton.
        -- intros i g1 g2 l' H1 H2 Hl'. unfold text in *.
           apply lookup_snoc_Some in H2 as [[Hlt H2]|[Hi <-]].
           ++ apply lookup_snoc_Some in H1 as [[_ H1]|[? _]]; [|lia]. by eapply Hadj.
           ++ apply lookup_snoc_Some in H1 as [[_ H1]|[? _]]; [|lia].
              rewrite length_app in Hi. simpl in Hi.
              apply lookup_snoc_Some in H1 as [[? _]|[_ <-]]; [lia|].
              simpl in Hl'. by injection Hl' as <-.
      * done.
      * rewrite fmap_app in Hinv. simpl in Hinv. unfold render at 3 in Hinv.
        simpl in Hinv. rewrite app_nil_r in Hinv.
        exists gs', g'. split_and!; [exact Hinv| |].
        -- rewrite Hcat, concat_app. simpl. by rewrite app_nil_r, <- !app_assoc.
        -- intros Hg'. by destruct (Hnil Hg').
    + (* a first line that is too long *)
      assert (g = []) as ->.
      { destruct g; [done|]. assert (0 < length (render (t :: g))); [|lia].
        by apply render_length_pos. }
      rewrite (Hg eq_refl) in *. simpl.
      destruct (IH [] [l] ([], render [l])) as (gs' & g' & Hinv & Hcat & Hnil).
      * split_and!; [done|done| |].
        -- apply Forall_singleton, packed_singleton.
        -- intros i g1 g2 l' H1 H2. by destruct i.
      * done.
      * unfold render in Hinv at 1. simpl in Hinv. rewrite app_nil_r in Hinv.
        exists gs', g'. split_and!; [exact Hinv|exact Hcat|].
        intros Hg'. by destruct (Hnil Hg').
    + (* the line fits in a chunk that is not empty *)
      assert (g ≠ []) as Hgne by (intros ->; simpl in Hpos; lia).
      destruct (IH gs (g ++ [l]) (render <$> gs, render (g ++ [l])))
        as (gs' & g' & Hinv & Hcat & Hnil).
      * split_and!; [done|done| |].
        -- rewrite Forall_app, Forall_singleton. split; [done|]. by apply packed_snoc.
        -- intros i g1 g2 l' H1 H2 Hl'. unfold text in *.
           apply lookup_snoc_Some in H2 as [[Hlt H2]|[Hi <-]].
           ++ apply lookup_snoc_Some in H1 as [[_ H1]|[? _]]; [|lia].
              apply (Hadj i g1 g2 l'); [by apply lookup_app_l_Some..|done].
           ++ apply lookup_snoc_Some in H1 as [[_ H1]|[? _]]; [|lia].
              destruct g as [|l0 g]; [done|]. simpl in Hl'. injection Hl' as <-.
              apply (Hadj i g1 (l0 :: g) l0); [by apply lookup_app_l_Some| |done].
              by apply list_lookup_middle.
      * intros Hnil. by destruct g.
      * rewrite render_app in Hinv. unfold render at 3 in Hinv. simpl in Hinv.
        rewrite app_nil_r in Hinv.
        exists gs', g'. split_and!; [exact Hinv| |].
        -- by rewrite Hcat, <- !app_assoc.
        -- intros Hg'. destruct (Hnil Hg') as [_ Habs]. by destruct g.
    + (* the first line *)
      assert (g = []) as ->.
      { destruct g; [done|]. assert (0 < length (render (t :: g))); [|lia].
        by apply render_length_pos. }
      rewrite (Hg eq_refl) in *. simpl.
      destruct (IH [] [l] ([], render [l])) as (gs' & g' & Hinv & Hcat & Hnil).
      * split_and!; [done|done| |].
        -- apply Forall_singleton, packed_singleton.
        -- intros i g1 g2 l' H1 H2. by destruct i.
      * done.
      * unfold render in Hinv at 1. simpl in Hinv. rewrite app_nil_r in Hinv.
        exists gs', g'. split_and!; [exact Hinv|exact Hcat|].
        intros Hg'. by destruct (Hnil Hg').
Qed.

(** The chunks of a text that does not fit in one chunk, as groups of
    lines. *)
Lemma splitCodeIntoChunks_groups code n :
  n < length code →
  ∃ groups,
    splitCodeIntoChunks code n = render <$> groups
    ∧ concat groups = split_lines code
    ∧ Forall (λ g, g ≠ []) groups
    ∧ Forall (packed n) groups
    ∧ closed_when_full n groups.
Proof.
  intros Hlong. unfold splitCodeIntoChunks.
  destruct (Nat.leb_spec (length code) n) as [?|_]; [lia|].
  destruct (chunk_fold_groups n (split_lines code) [] [] ([], []))
    as (gs & g & (Hst & Hne & Hpacked & Hadj) & Hcat & Hnil).
  { split_and!; [done|done| |].
    - apply Forall_singleton. intros before line after Heq. by destruct before.
    - intros i g1 g2 l _ H2. by destruct i. }
  { done. }
  rewrite Hst. simpl in Hcat.
  assert (g ≠ []) as Hg.
  { intros ->. destruct (Hnil eq_refl) as [Habs _].
    by apply split_lines_nonempty in Habs. }
  pose proof (render_length_pos g Hg) as Hpos.
  destruct (Nat.ltb_spec 0 (length (render g))) as [_|?]; [|lia].
  exists (gs ++ [g]). split_and!.
  - by rewrite fmap_app.
  - rewrite concat_app. simpl. by rewrite app_nil_r.
  - apply Forall_app. split; [done|]. by apply Forall_singleton.
  - done.
  - done.
Qed.

(** C8, as the code has it.  The chunks of a text longer than
    [chunkSize] are the lines of the text, in order and each followed by
    a line feed, in groups that are not empty.  The size test leaves out
    the line feed that is appended after each line, so a chunk has at most
    [chunkSize + 1] code units, unless it is one single line that is
    itself longer than [chunkSize].  A line is added to the running chunk
    exactly when it fits: within a chunk, the lines before a line, with
    their line feeds, and that line (without its own) have at most
    [chunkSize] code units together; and of two chunks that follow each
    other, the first with the first line of the second has more. *)
Theorem splitCodeIntoChunks_bound code n :
  n < length code →
  ∃ groups : list (list text),
    splitCodeIntoChunks code n
    = (λ group, concat ((λ line, line ++ nl) <$> group)) <$> groups
    ∧ concat groups = split_lines code
    ∧ Forall (λ group, group ≠ []) groups
    ∧ Forall (λ chunk, length chunk ≤ n + 1
                       ∨ ∃ line, line ∈ split_lines code ∧ chunk = line ++ nl
                                 ∧ n < length line)
             (splitCodeIntoChunks code n)
    ∧ (∀ group before line after,
         group ∈ groups → group = before ++ line :: after → before ≠ [] →
         length (concat ((λ line, line ++ nl) <$> before)) + length line ≤ n)
    ∧ (∀ i group next line,
         groups !! i = Some group → groups !! (S i) = Some next →
         head next = Some line →
         n < length (concat ((λ line, line ++ nl) <$> group)) + length line).
Proof.
  intros Hlong.
  destruct (splitCodeIntoChunks_groups code n Hlong)
    as (groups & Hchunks & Hcat & Hne & Hpacked & Hadj).
  exists groups. split_and!; try done.
  - rewrite Hchunks. apply Forall_fmap, Forall_forall. intros g Hg.
    rewrite Forall_forall in Hne, Hpacked.
    destruct (packed_bound n g (Hne g Hg) (Hpacked g Hg)) as [Hle|(line & -> & Hlen)];
      [by left|right].
    exists line. split_and!; [|by unfold render; simpl; rewrite app_nil_r|done].
    rewrite <- Hcat. apply list_elem_of_In, in_concat. exists [line].
    split; [by apply list_elem_of_In|by left].
  - intros group before line after Hin Heq Hbefore.
    rewrite Forall_forall in Hpacked. by apply (Hpacked group Hin before line after).
Qed.

Lemma splitCodeIntoChunks_bound_witness :
  5 < length (lit "ab" ++ nl ++ lit "cd" ++ nl ++ lit "ef")
  ∧ ∃ groups : list (list text),
      splitCodeIntoChunks (lit "ab" ++ nl ++ lit "cd" ++ nl ++ lit "ef") 5
      = (λ group, concat ((λ line, line ++ nl) <$> group)) <$> groups
      ∧ concat groups = [lit "ab"; lit "cd"; lit "ef"]
      ∧ Forall (λ chunk, length chunk ≤ 6) (splitCodeIntoChunks
                                             (lit "ab" ++ nl ++ lit "cd" ++ nl ++ lit "ef") 5).
Proof.
  assert (5 < length (lit "ab" ++ nl ++ lit "cd" ++ nl ++ lit "ef")) as Hlong
    by (vm_compute; lia).
  split; [exact Hlong|].
  destruct (splitCodeIntoChunks_bound _ 5 Hlong) as (groups & H1 & H2 & _).
  exists groups. split_and!; [exact H1|exact H2|].
  vm_compute. repeat constructor.
Defined.

(** C8 as stated fails: with target size 5 the first chunk of three
    two-character lines has six code units, and no line, even with its
    line feed, exceeds 5. *)
Lemma splitCodeIntoChunks_exceeds_target :
  let code := lit "ab" ++ nl ++ lit "cd" ++ nl ++ lit "ef" in
  5 < length code
  ∧ splitCodeIntoChunks code 5 = [lit "ab" ++ nl ++ lit "cd" ++ nl; lit "ef" ++ nl]
  ∧ 5 < length (lit "ab" ++ nl ++ lit "cd" ++ nl)
  ∧ Forall (λ line, length (line ++ nl) ≤ 5) (split_lines code).
Proof.
  vm_compute. split_and!; try lia; try done.
  repeat constructor.
Qed.

(** ** Section extractor *)

(** The headings of the example are found where they are: the summary
    starts after the eleven code units of its heading line. *)
Example example_summary_start :
  find_start example_review (lit "Summary") = Some 11
  ∧ extractSection example_review (lit "Issues") (Some (lit "Recommendations"))
    = join nl [lit "### Critical"; lit "1. SQL injection"; lit "### High";
               lit "1. No input validation"].
Proof. by vm_compute. Qed.

(** C6: parsing the example response gives the summary, the issues of
    each severity, the recommendations and the strengths of the example. *)
Theorem parseReviewResponse_example case_tables focus chunk total :
  let r := parseReviewResponse case_tables example_review focus chunk total in
  summary r = lit "All good"
  ∧ Issues.critical (issues r) = [lit "1. SQL injection"]
  ∧ Issues.high (issues r) = [lit "1. No input validation"]
  ∧ Issues.medium (issues r) = []
  ∧ Issues.low (issues r) = []
  ∧ recommendations r = lit "Add tests"
  ∧ strengths r = lit "Clear naming".
Proof. cbv zeta. unfold parseReviewResponse. cbn [summary issues recommendations strengths]. split_and!; by vm_compute. Qed.

(** ** Retry controller *)

(** C3: at most four calls are made.  When the first two calls fail and
    the third succeeds, three calls are made and the result carries
    [retryAttempts = 2] and [retrySuccess = true].  When every call fails,
    exactly four calls are made and the error of the last one is thrown
    with [retryAttempts = 3] and [retrySuccess = false]. *)
Theorem processChunkWithRetry_attempts call random :
  let run := processChunkWithRetry call random in
  calls run.2 ≤ 4
  ∧ (∀ e0 e1 r,
       call 0 = Throw e0 → call 1 = Throw e1 → call 2 = Return r →
       ∃ r', run.1 = Return r' ∧ r' = set_retry 2 r
             ∧ retryAttempts r' = Some 2 ∧ retrySuccess r' = Some true
             ∧ calls run.2 = 3)
  ∧ ((∀ attempt, ∃ e, call attempt = Throw e) →
       ∃ e e', call 3 = Throw e ∧ run.1 = Throw e' ∧ e' = Err.with_retry 3 false e
               ∧ Err.retryAttempts e' = Some 3 ∧ Err.retrySuccess e' = Some false
               ∧ calls run.2 = 4).
Proof.
  cbv zeta. unfold processChunkWithRetry. split_and!.
  - cbn -[delayWithJitter].
    destruct (call 0), (call 1), (call 2), (call 3); cbn -[delayWithJitter]; lia.
  - intros e0 e1 r H0 H1 H2. cbn -[delayWithJitter]. rewrite H0, H1, H2.
    cbn -[delayWithJitter]. eexists. split_and!; reflexivity.
  - intros Hall.
    destruct (Hall 0) as [e0 H0], (Hall 1) as [e1 H1], (Hall 2) as [e2 H2],
      (Hall 3) as [e3 H3].
    cbn -[delayWithJitter]. rewrite H0, H1, H2, H3. cbn -[delayWithJitter].
    exists e3. eexists. split_and!; reflexivity.
Qed.

Lemma processChunkWithRetry_attempts_witness :
  (∃ r', (processChunkWithRetry
            (fails_then_succeeds 2 (Err.Error (lit "boom")) example_result)
            (λ _, 0%Q)).1 = Return r'
         ∧ retryAttempts r' = Some 2 ∧ retrySuccess r' = Some true)
  ∧ (∃ e', (processChunkWithRetry (always_fails (Err.Error (lit "boom"))) (λ _, 0%Q)).1
           = Throw e'
           ∧ Err.retryAttempts e' = Some 3 ∧ Err.retrySuccess e' = Some false
           ∧ calls (processChunkWithRetry (always_fails (Err.Error (lit "boom")))
                                          (λ _, 0%Q)).2 = 4).
Proof.
  split.
  - destruct (processChunkWithRetry_attempts
                (fails_then_succeeds 2 (Err.Error (lit "boom")) example_result)
                (λ _, 0%Q)) as (_ & H & _).
    destruct (H (Err.Error (lit "boom")) (Err.Error (lit "boom")) example_result)
      as (r' & ? & ? & ? & ? & ?); [reflexivity..|].
    exists r'. by split_and!.
  - destruct (processChunkWithRetry_attempts
                (always_fails (Err.Error (lit "boom"))) (λ _, 0%Q)) as (_ & _ & H).
    destruct H as (e & e' & ? & ? & ? & ? & ? & ?).
    { intros attempt. by exists (Err.Error (lit "boom")). }
    exists e'. by split_and!.
Defined.

(** ** Numbers *)

Section DoubleLemmas.
Local Open Scope Q_scope.

Lemma pow2_pos e : 0 < Double.pow2 e.
Proof. apply Qpower_0_lt. reflexivity. Qed.

Lemma pow2_add a b : Double.pow2 (a + b) == Double.pow2 a * Double.pow2 b.
Proof. apply Qpower_plus. discriminate. Qed.

Lemma pow2_Z n : (0 <= n)%Z -> Double.pow2 n == inject_Z (2 ^ n).
Proof. intros H. unfold Double.pow2. by rewrite Zpower_Qpower. Qed.

Lemma pow2_lt_inv a b : Double.pow2 a < Double.pow2 b -> (a < b)%Z.
Proof. intros H. apply (Qpower_lt_compat_l_inv 2); [exact H|reflexivity]. Qed.

Lemma pow2_le a b : (a <= b)%Z -> Double.pow2 a <= Double.pow2 b.
Proof. intros H. apply Qpower_le_compat_l; [exact H|discriminate]. Qed.


Lemma inject_Z_pos z : (0 < z)%Z -> 0 < inject_Z z.
Proof. intros H. change 0 with (inject_Z 0). by rewrite <- Zlt_Qlt. Qed.

Lemma pow2_sub a b : Double.pow2 (a - b) == Double.pow2 a / Double.pow2 b.
Proof. apply Qpower_minus. discriminate. Qed.

(** A positive rational is above [2^(log2 n - log2 d - 1)]. *)
Lemma log2_quotient_lt (n d : positive) :
  Double.pow2 (Z.log2 (Zpos n) - Z.log2 (Zpos d) - 1) < Zpos n # d.
Proof.
  destruct (Z.log2_spec (Zpos n)) as [Hn _]; [lia|].
  destruct (Z.log2_spec (Zpos d)) as [_ Hd]; [lia|].
  pose proof (Z.log2_nonneg (Zpos n)) as Hn0.
  pose proof (Z.log2_nonneg (Zpos d)) as Hd0.
  set (a := Z.log2 (Zpos n)) in *. set (b := Z.log2 (Zpos d)) in *.
  replace (a - b - 1)%Z with (a - Z.succ b)%Z by lia.
  rewrite pow2_sub, !pow2_Z by lia.
  assert (0 < 2 ^ a)%Z as Ha by (apply Z.pow_pos_nonneg; lia).
  assert (0 < 2 ^ Z.succ b)%Z as Hb by (apply Z.pow_pos_nonneg; lia).
  rewrite (Qmake_Qdiv (Zpos n) d).
  apply Qlt_shift_div_r; [by apply inject_Z_pos|].
  unfold Qdiv. rewrite <- Qmult_assoc, (Qmult_comm (/ _)), Qmult_assoc.
  apply Qlt_shift_div_l; [by apply inject_Z_pos|].
  rewrite <- !inject_Z_mult, <- Zlt_Qlt. nia.
Qed.

Lemma log2_quotient_gt (n d : positive) :
  Zpos n # d < Double.pow2 (Z.log2 (Zpos n) - Z.log2 (Zpos d) + 1).
Proof.
  destruct (Z.log2_spec (Zpos n)) as [_ Hn]; [lia|].
  destruct (Z.log2_spec (Zpos d)) as [Hd _]; [lia|].
  pose proof (Z.log2_nonneg (Zpos n)) as Hn0.
  pose proof (Z.log2_nonneg (Zpos d)) as Hd0.
  set (a := Z.log2 (Zpos n)) in *. set (b := Z.log2 (Zpos d)) in *.
  replace (a - b + 1)%Z with (Z.succ a - b)%Z by lia.
  rewrite pow2_sub, !pow2_Z by lia.
  assert (0 < 2 ^ Z.succ a)%Z as Ha by (apply Z.pow_pos_nonneg; lia).
  assert (0 < 2 ^ b)%Z as Hb by (apply Z.pow_pos_nonneg; lia).
  rewrite (Qmake_Qdiv (Zpos n) d).
  apply Qlt_shift_div_l; [by apply inject_Z_pos|].
  unfold Qdiv. rewrite <- Qmult_assoc, (Qmult_comm (/ _)), Qmult_assoc.
  apply Qlt_shift_div_r; [by apply inject_Z_pos|].
  rewrite <- !inject_Z_mult, <- Zlt_Qlt. nia.
Qed.

(** [mag] is the binade: [2^(mag y) <= y < 2^(mag y + 1)]. *)
Lemma mag_spec y :
  0 < y -> Double.pow2 (Double.mag y) <= y /\ y < Double.pow2 (Double.mag y + 1).
Proof.
  intros Hpos. unfold Double.mag. cbv zeta.
  destruct y as [n d]. destruct n as [|n|n]; [by compute in Hpos| |by compute in Hpos].
  cbn [Qnum Qden].
  destruct (Qle_bool _ _) eqn:E.
  - apply Qle_bool_iff in E. split; [done|]. apply log2_quotient_gt.
  - split.
    + apply Qlt_le_weak, log2_quotient_lt.
    + replace (_ - 1 + 1)%Z with (Z.log2 (Zpos n) - Z.log2 (Zpos d))%Z by lia.
      apply Qnot_le_lt. intros Hle. apply Qle_bool_iff in Hle. congruence.
Qed.

Lemma mag_unique y m :
  Double.pow2 m <= y -> y < Double.pow2 (m + 1) -> Double.mag y = m.
Proof.
  intros Hlo Hhi.
  assert (0 < y) as Hpos by (eapply Qlt_le_trans; [apply (pow2_pos m)|done]).
  destruct (mag_spec y Hpos) as [Hlo' Hhi'].
  assert (Double.mag y < m + 1)%Z by (apply pow2_lt_inv; by eapply Qle_lt_trans).
  assert (m < Double.mag y + 1)%Z by (apply pow2_lt_inv; by eapply Qle_lt_trans).
  lia.
Qed.

Lemma mag_lt y k : 0 < y -> y < Double.pow2 k -> (Double.mag y < k)%Z.
Proof.
  intros Hpos Hlt. unfold Double.mag. cbv zeta.
  destruct (Qle_bool _ y) eqn:E.
  - apply Qle_bool_iff in E. apply pow2_lt_inv. by eapply Qle_lt_trans.
  - destruct y as [n d]. destruct n as [|n|n]; [by compute in Hpos| |by compute in Hpos].
    apply pow2_lt_inv. eapply Qlt_trans; [|exact Hlt]. apply log2_quotient_lt.
Qed.

#[local] Instance rne_comp : Proper (Qeq ==> eq) Double.rne.
Proof.
  intros x y H. unfold Double.rne. cbv zeta. rewrite (Qfloor_comp x y H).
  assert ((x - inject_Z (Qfloor y) ?= 1 # 2) = (y - inject_Z (Qfloor y) ?= 1 # 2)) as ->;
    [|done].
  apply Qcompare_comp; [|reflexivity]. apply Qplus_comp; [exact H|reflexivity].
Qed.

Lemma rne_between q A B :
  inject_Z A <= q -> q <= inject_Z B -> (A <= Double.rne q <= B)%Z.
Proof.
  intros HA HB.
  pose proof (Qfloor_resp_le _ _ HA) as HfA. rewrite Qfloor_Z in HfA.
  pose proof (Qfloor_resp_le _ _ HB) as HfB. rewrite Qfloor_Z in HfB.
  pose proof (Qfloor_le q) as Hf.
  unfold Double.rne. cbv zeta.
  destruct (Qcompare_spec (q - inject_Z (Qfloor q)) (1 # 2)) as [He|Hl|Hg].
  - assert (Qfloor q < B)%Z; [|destruct (Z.even _); lia].
    apply Z.le_neq. split; [done|]. intros Heq. rewrite Heq in He. lra.
  - lia.
  - assert (Qfloor q < B)%Z; [|lia].
    apply Z.le_neq. split; [done|]. intros Heq. rewrite Heq in Hg. lra.
Qed.

(** Rounding stays between the numbers of 53 bits that surround its
    argument. *)
Lemma round_between x L H e :
  (-1074 <= e)%Z -> (Z.abs L < 2 ^ 53)%Z -> (Z.abs H < 2 ^ 53)%Z ->
  inject_Z L * Double.pow2 e <= x -> x <= inject_Z H * Double.pow2 e ->
  inject_Z L * Double.pow2 e <= Double.round x
  /\ Double.round x <= inject_Z H * Double.pow2 e.
Proof.
  intros He HL HH Hlo Hhi.
  pose proof (pow2_pos e) as Hpe.
  assert (Double.ulp_exp x <= e \/ x == 0)%Z as [Hc|H0].
  { destruct (Qlt_le_dec 0 (Qabs x)) as [Hpos|Hzero].
    - left. unfold Double.ulp_exp.
      assert (Double.mag (Qabs x) < e + 53)%Z; [|lia].
      apply mag_lt; [done|]. rewrite pow2_add, (pow2_Z 53) by lia.
      apply Qabs_Qlt_condition.
      assert (inject_Z (- 2 ^ 53) < inject_Z L) as HL' by (rewrite <- Zlt_Qlt; lia).
      assert (inject_Z H < inject_Z (2 ^ 53)) as HH' by (rewrite <- Zlt_Qlt; lia).
      rewrite inject_Z_opp in HL'. split; nra.
    - right. pose proof (Qabs_nonneg x). apply Qabs_Qle_condition in Hzero. lra. }
  - set (c := Double.ulp_exp x) in *.
    pose proof (pow2_pos c) as Hpc.
    assert (Double.pow2 e == inject_Z (2 ^ (e - c)) * Double.pow2 c) as Hec.
    { rewrite <- pow2_Z by lia. rewrite <- pow2_add. by replace (e - c + c)%Z with e by lia. }
    unfold Double.round. fold c. rewrite Hec in *. rewrite !Qmult_assoc, <- !inject_Z_mult in *.
    destruct (rne_between (x / Double.pow2 c) (L * 2 ^ (e - c)) (H * 2 ^ (e - c))) as [Ha Hb].
    + apply Qle_shift_div_l; done.
    + apply Qle_shift_div_r; done.
    + rewrite Zle_Qle in Ha, Hb. split; nra.
  - assert (Double.round x == 0) as ->; [|rewrite H0 in Hlo, Hhi; done].
    unfold Double.round.
    rewrite (rne_comp (x / Double.pow2 (Double.ulp_exp x)) 0).
    + change (Double.rne 0) with 0%Z. apply Qmult_0_l.
    + unfold Qdiv. rewrite <- (Qmult_0_l (/ Double.pow2 (Double.ulp_exp x))).
      apply Qmult_comp; [exact H0|reflexivity].
Qed.


Lemma mag_comp x y : 0 < x -> x == y -> Double.mag x = Double.mag y.
Proof.
  intros Hpos Heq. destruct (mag_spec x Hpos) as [Hlo Hhi].
  symmetry. apply mag_unique; by rewrite <- Heq.
Qed.

#[local] Instance round_comp : Proper (Qeq ==> Qeq) Double.round.
Proof.
  intros x y Heq. destruct (Qlt_le_dec 0 (Qabs x)) as [Hpos|Hzero].
  - assert (Double.ulp_exp x = Double.ulp_exp y) as Hc.
    { unfold Double.ulp_exp. rewrite (mag_comp (Qabs x) (Qabs y)); [done|done|].
      by rewrite Heq. }
    unfold Double.round. rewrite <- Hc.
    rewrite (rne_comp (y / _) (x / Double.pow2 (Double.ulp_exp x))); [reflexivity|].
    apply Qmult_comp; [by symmetry|reflexivity].
  - assert (x == 0) as Hx.
    { pose proof (Qabs_nonneg x). apply Qabs_Qle_condition in Hzero. lra. }
    assert (∀ z, z == 0 -> Double.round z == 0) as Hround.
    { intros z Hz. unfold Double.round.
      rewrite (rne_comp (z / Double.pow2 (Double.ulp_exp z)) 0).
      - change (Double.rne 0) with 0%Z. apply Qmult_0_l.
      - unfold Qdiv. rewrite <- (Qmult_0_l (/ Double.pow2 (Double.ulp_exp z))).
        apply Qmult_comp; [exact Hz|reflexivity]. }
    rewrite (Hround x Hx), (Hround y); [reflexivity|]. by rewrite <- Heq.
Qed.

#[local] Instance add_comp : Proper (Qeq ==> Qeq ==> Qeq) Double.add.
Proof. intros x x' Hx y y' Hy. unfold Double.add. by rewrite Hx, Hy. Qed.
#[local] Instance sub_comp : Proper (Qeq ==> Qeq ==> Qeq) Double.sub.
Proof. intros x x' Hx y y' Hy. unfold Double.sub. by rewrite Hx, Hy. Qed.
#[local] Instance mul_comp : Proper (Qeq ==> Qeq ==> Qeq) Double.mul.
Proof. intros x x' Hx y y' Hy. unfold Double.mul. by rewrite Hx, Hy. Qed.

(** A number of at most 53 bits times a power of two is not rounded. *)
Lemma round_exact M e :
  (-1074 <= e)%Z -> (Z.abs M < 2 ^ 53)%Z ->
  Double.round (inject_Z M * Double.pow2 e) == inject_Z M * Double.pow2 e.
Proof.
  intros He HM.
  destruct (round_between (inject_Z M * Double.pow2 e) M M e) as [Hlo Hhi];
    try done; try apply Qle_refl.
  by apply Qle_antisym.
Qed.

Lemma exponentialDelay_exact attempt :
  exponentialDelay attempt == Qmin 10000 (1000 * inject_Z (2 ^ Z.of_nat attempt)).
Proof.
  unfold exponentialDelay, MAX_DELAY, BASE_DELAY, Double.mul.
  assert (1000 * inject_Z (2 ^ Z.of_nat attempt)
          == inject_Z 125 * Double.pow2 (Z.of_nat attempt + 3)) as Heq.
  { rewrite pow2_add, !pow2_Z by lia. change (inject_Z (2 ^ 3)) with 8. 
    change (inject_Z 125) with 125. ring. }
  rewrite Heq, round_exact; [reflexivity|lia|done].
Qed.

Lemma exponentialDelay_range attempt :
  1000 <= exponentialDelay attempt /\ exponentialDelay attempt <= 10000.
Proof.
  rewrite exponentialDelay_exact.
  assert (1 <= inject_Z (2 ^ Z.of_nat attempt)) as Hpow.
  { change 1 with (inject_Z 1). rewrite <- Zle_Qle.
    pose proof (Z.pow_pos_nonneg 2 (Z.of_nat attempt)). lia. }
  destruct (Q.min_spec 10000 (1000 * inject_Z (2 ^ Z.of_nat attempt)))
    as [[Hlt ->]|[Hle ->]]; split; lra.
Qed.

Lemma exponentialDelay_values :
  exponentialDelay 0 == 1000 /\ exponentialDelay 1 == 2000 /\ exponentialDelay 2 == 4000.
Proof. by vm_compute. Qed.

Lemma exponentialDelay_cases attempt :
  exponentialDelay attempt == 1000 \/ exponentialDelay attempt == 2000
  \/ exponentialDelay attempt == 4000 \/ exponentialDelay attempt == 8000
  \/ exponentialDelay attempt == 10000.
Proof.
  destruct attempt as [|[|[|[|n]]]];
    [left; by vm_compute|right; left; by vm_compute|do 2 right; left; by vm_compute
    |do 3 right; left; by vm_compute|do 4 right].
  rewrite exponentialDelay_exact. apply Q.min_l.
  assert (2 ^ 4 <= 2 ^ Z.of_nat (S (S (S (S n)))))%Z as H
    by (apply Z.pow_le_mono_r; lia).
  rewrite Zle_Qle in H. change (inject_Z (2 ^ 4)) with 16 in H. lra.
Qed.

(** The delay for a base value [b] of which [0.2 * b] is computed as
    [2 * h]: it is within [h] of [b]. *)
Lemma delayWithJitter_near (b h : Z) attempt random :
  exponentialDelay attempt == inject_Z b ->
  Double.mul (Double.round 0.2) (inject_Z b) == inject_Z (2 * h) ->
  (100 <= b - h)%Z -> (0 <= h)%Z -> (b + h < 2 ^ 53)%Z ->
  0 <= random -> random < 1 ->
  inject_Z (b - h) <= delayWithJitter attempt random
  /\ delayWithJitter attempt random <= inject_Z (b + h).
Proof.
  intros Hb Ha Hfloor Hh Hbig H0 H1. unfold delayWithJitter, jitter.
  rewrite Hb, Ha.
  destruct (round_between (random - 0.5) (-1) 1 (-1)) as [Hd1 Hd2]; try done.
  { change (inject_Z (-1) * Double.pow2 (-1)) with (- (1 # 2)). lra. }
  { change (inject_Z 1 * Double.pow2 (-1)) with (1 # 2). lra. }
  change (inject_Z (-1) * Double.pow2 (-1)) with (- (1 # 2)) in Hd1.
  change (inject_Z 1 * Double.pow2 (-1)) with (1 # 2) in Hd2.
  fold (Double.sub random 0.5) in Hd1, Hd2.
  set (d := Double.sub random 0.5) in *.
  assert (0 <= inject_Z h) as Hh' by (change 0 with (inject_Z 0); by rewrite <- Zle_Qle).
  assert (inject_Z (2 * h) == 2 * inject_Z h) as H2h by (by rewrite inject_Z_mult).
  destruct (round_between (inject_Z (2 * h) * d) (- h) h 0) as [Hj1 Hj2]; try lia.
  { change (Double.pow2 0) with 1. rewrite inject_Z_opp, H2h. nra. }
  { change (Double.pow2 0) with 1. rewrite H2h. nra. }
  fold (Double.mul (inject_Z (2 * h)) d) in Hj1, Hj2.
  set (j := Double.mul (inject_Z (2 * h)) d) in *.
  change (Double.pow2 0) with 1 in Hj1, Hj2. rewrite inject_Z_opp in Hj1.
  destruct (round_between (inject_Z b + j) (b - h) (b + h) 0) as [Hs1 Hs2]; try lia.
  { change (Double.pow2 0) with 1. unfold Zminus. rewrite inject_Z_plus, inject_Z_opp. lra. }
  { change (Double.pow2 0) with 1. rewrite inject_Z_plus. lra. }
  fold (Double.add (inject_Z b) j) in Hs1, Hs2.
  change (Double.pow2 0) with 1 in Hs1, Hs2.
  assert (100 <= inject_Z (b - h)) as Hfl
    by (change 100 with (inject_Z 100); by rewrite <- Zle_Qle).
  destruct (Q.max_spec 100 (Double.add (inject_Z b) j)) as [[Hm ->]|[Hm ->]]; split; lra.
Qed.

Lemma delayWithJitter_within_tenth attempt random :
  0 <= random -> random < 1 ->
  0.9 * exponentialDelay attempt <= delayWithJitter attempt random
  /\ delayWithJitter attempt random <= 1.1 * exponentialDelay attempt
  /\ 100 <= delayWithJitter attempt random.
Proof.
  intros H0 H1.
  assert (100 <= delayWithJitter attempt random) as Hfloor by apply Q.le_max_l.
  destruct (exponentialDelay_cases attempt) as [Hb|[Hb|[Hb|[Hb|Hb]]]].
  - destruct (delayWithJitter_near 1000 100 attempt random) as [Hlo Hhi];
      [done|by vm_compute|lia|lia|lia|done|done|].
    change (inject_Z (1000 - 100)) with 900 in Hlo.
    change (inject_Z (1000 + 100)) with 1100 in Hhi. rewrite Hb. split_and!; lra.
  - destruct (delayWithJitter_near 2000 200 attempt random) as [Hlo Hhi];
      [done|by vm_compute|lia|lia|lia|done|done|].
    change (inject_Z (2000 - 200)) with 1800 in Hlo.
    change (inject_Z (2000 + 200)) with 2200 in Hhi. rewrite Hb. split_and!; lra.
  - destruct (delayWithJitter_near 4000 400 attempt random) as [Hlo Hhi];
      [done|by vm_compute|lia|lia|lia|done|done|].
    change (inject_Z (4000 - 400)) with 3600 in Hlo.
    change (inject_Z (4000 + 400)) with 4400 in Hhi. rewrite Hb. split_and!; lra.
  - destruct (delayWithJitter_near 8000 800 attempt random) as [Hlo Hhi];
      [done|by vm_compute|lia|lia|lia|done|done|].
    change (inject_Z (8000 - 800)) with 7200 in Hlo.
    change (inject_Z (8000 + 800)) with 8800 in Hhi. rewrite Hb. split_and!; lra.
  - destruct (delayWithJitter_near 10000 1000 attempt random) as [Hlo Hhi];
      [done|by vm_compute|lia|lia|lia|done|done|].
    change (inject_Z (10000 - 1000)) with 9000 in Hlo.
    change (inject_Z (10000 + 1000)) with 11000 in Hhi. rewrite Hb. split_and!; lra.
Qed.

(** The ends of the band are reached: the draw 0 gives [0.9 * base], and
    the largest draw below 1 gives [1.1 * base], by rounding. *)
Lemma delayWithJitter_ends attempt :
  delayWithJitter attempt 0 == 0.9 * exponentialDelay attempt
  /\ delayWithJitter attempt largest_draw == 1.1 * exponentialDelay attempt.
Proof.
  unfold delayWithJitter, jitter.
  destruct (exponentialDelay_cases attempt) as [Hb|[Hb|[Hb|[Hb|Hb]]]];
    rewrite !Hb; by vm_compute.
Qed.

End DoubleLemmas.

(** ** Backoff *)

(** The delays before the first retry: the smallest draw gives 900 ms
    and the largest gives 1100 ms, where the exact sum, just below 1100,
    is rounded; 800 ms and 1200 ms are out of reach. *)
Example delayWithJitter_first_retry :
  (delayWithJitter 0 0 == 900)%Q
  ∧ (delayWithJitter 0 largest_draw == 1100)%Q
  ∧ ∀ random, (0 <= random → random < 1 →
               ¬ delayWithJitter 0 random <= 800 ∧ ¬ 1200 <= delayWithJitter 0 random)%Q.
Proof.
  split_and!; [by vm_compute..|]. intros random H0 H1.
  destruct (delayWithJitter_within_tenth 0 random H0 H1) as (Hlo & Hhi & _).
  destruct exponentialDelay_values as (E0 & _). rewrite E0 in Hlo, Hhi.
  split; intros Hle; lra.
Qed.

(** The rounding of [Double] agrees with the binary64 arithmetic of the
    kernel: on draws over the range, for each retry, the delay of the
    model is the number that the expression of the source evaluates to. *)
Example delayWithJitter_agrees_with_kernel :
  forallb (λ attempt, forallb (agrees_with_kernel attempt) example_draws) [0; 1; 2; 3] = true
  ∧ (Qred <$> Q_of_float
                (delayWithJitter_kernel 0 float_below_1)) = Some 1100%Q.
Proof. split; by vm_compute. Qed.

(** C4, what the code computes: before retry [k = attempt + 1] the base
    value is [min(10000, 1000 * 2^(k-1))] and the floor of 100 ms holds,
    but for every draw in [[0, 1)] the delay lies within ten percent of
    the base value, from [0.9 * base] to [1.1 * base]; both ends are
    reached, the lower one by the draw 0 and the upper one, by rounding,
    by the largest draw below 1.  The outer halves of the band of twenty
    percent are never reached. *)
Theorem delayWithJitter_band attempt random :
  (0 <= random → random < 1 →
   exponentialDelay attempt
   == Qmin 10000 (1000 * inject_Z (2 ^ Z.of_nat attempt))
   ∧ 100 <= delayWithJitter attempt random
   ∧ 0.9 * exponentialDelay attempt <= delayWithJitter attempt random
   ∧ delayWithJitter attempt random <= 1.1 * exponentialDelay attempt
   ∧ delayWithJitter attempt 0 == 0.9 * exponentialDelay attempt
   ∧ delayWithJitter attempt (1 - (1 # 9007199254740992))
     == 1.1 * exponentialDelay attempt
   ∧ ¬ delayWithJitter attempt random <= 0.8 * exponentialDelay attempt
   ∧ ¬ 1.2 * exponentialDelay attempt <= delayWithJitter attempt random)%Q.
Proof.
  intros H0 H1. pose proof (exponentialDelay_range attempt) as [Hlo Hhi].
  destruct (delayWithJitter_within_tenth attempt random H0 H1) as (Ha & Hb & Hc).
  destruct (delayWithJitter_ends attempt) as [He0 He1].
  split_and!; try done; [apply exponentialDelay_exact|..]; intros Hle; lra.
Qed.

Lemma delayWithJitter_band_witness :
  (0 <= 0 ∧ 0 < 1
   ∧ 0.9 * exponentialDelay 0 <= delayWithJitter 0 0
   ∧ delayWithJitter 0 0 <= 1.1 * exponentialDelay 0
   ∧ ¬ delayWithJitter 0 0 <= 0.8 * exponentialDelay 0)%Q.
Proof.
  assert (0 <= 0)%Q as H0 by lra. assert (0 < 1)%Q as H1 by lra.
  destruct (delayWithJitter_band 0 0 H0 H1) as (_ & _ & Hlo & Hhi & _ & _ & Hout & _).
  by split_and!.
Defined.

(** ** Request executor *)

(** The [catch] of the [!response.ok] branch also catches the error that
    the [try] block throws after a successful [JSON.parse]: whatever the
    body parses to, the error that leaves the branch is the one built
    from the raw text. *)
Lemma api_error_raw JSON_parse status statusText body :
  api_error JSON_parse status statusText body
  = Throw (Err.DeepseekApiError
             (lit "DeepSeek API error: " ++ of_nat status ++ lit " " ++ statusText
              ++ lit " - " ++ body)
             status).
Proof.
  unfold api_error.
  assert (∀ v, api_error_try JSON_parse status body ≠ Return v) as Hthrows.
  { intros v. unfold api_error_try. destruct (JSON_parse body); [|done].
    by destruct (Json.get _ _). }
  destruct (api_error_try JSON_parse status body) as [v|e]; [|done].
  by destruct (Hthrows v).
Qed.

Lemma startsWith_app p s : startsWith p (p ++ s) = true.
Proof. induction p as [|c p IH]; simpl; [done|]. by rewrite N.eqb_refl. Qed.

Lemma includes_app p a s : includes p s = true → includes p (a ++ s) = true.
Proof.
  intros H. induction a as [|c a IH]; simpl; [done|].
  rewrite IH. apply orb_true_r.
Qed.

Lemma includes_suffix p a : includes p (a ++ p) = true.
Proof.
  apply includes_app. destruct p; simpl; [done|].
  rewrite N.eqb_refl. simpl. rewrite <- (app_nil_r p) at 2.
  by rewrite startsWith_app.
Qed.

(** The typed error carries the status code of the response, and its
    message ends with the raw body, whether or not the body is JSON. *)
Lemma reviewCodeChunk_http_failure case_tables JSON_parse focus chunk total status statusText body :
  ∃ e, reviewCodeChunk case_tables JSON_parse focus chunk total (HttpFailure status statusText body)
       = Throw e
       ∧ Err.name e = lit "DeepseekApiError" ∧ Err.statusCode e = Some status
       ∧ includes body (Err.message e) = true.
Proof.
  simpl. rewrite api_error_raw. eexists. split_and!; try reflexivity.
  cbn [Err.message Err.DeepseekApiError]. rewrite !app_assoc. apply includes_suffix.
Qed.

(** C5 at a JSON error body: the [try] block builds the message with the
    parsed detail, but the error that the call fails with is the one of
    the [catch]; it carries the status code and the raw body, in which the
    detail does not occur (its line feed is an escape there). *)
Theorem reviewCodeChunk_drops_parsed_detail case_tables :
  example_JSON_parse example_error_body
  = Some (Json.Obj [(lit "error", Json.Obj [(lit "message", Json.Str example_error_detail)])])
  ∧ api_error_try example_JSON_parse 429 example_error_body
    = Throw (Err.DeepseekApiError (lit "DeepSeek API error: 429 - " ++ example_error_detail)
                                  429)
  ∧ ∃ e, reviewCodeChunk case_tables example_JSON_parse [] 1 1
           (HttpFailure 429 (lit "Too Many Requests") example_error_body) = Throw e
         ∧ Err.statusCode e = Some 429
         ∧ Err.message e
           = lit "DeepSeek API error: 429 Too Many Requests - " ++ example_error_body
         ∧ includes example_error_detail (Err.message e) = false.
Proof.
  split_and!; [by vm_compute|by vm_compute|].
  eexists. split_and!; [by vm_compute|by vm_compute..].
Qed.

(** ** Result merger *)

Lemma get_push sev sev' x i :
  Sev.get sev (Sev.push sev' x i)
  = if decide (sev' = sev) then Sev.get sev i ++ [x] else Sev.get sev i.
Proof. by destruct sev, sev'. Qed.

Lemma bucket_cons sev p l :
  bucket sev (p :: l) = if decide (p.1 = sev) then p.2 :: bucket sev l else bucket sev l.
Proof. unfold bucket. rewrite filter_cons. by case_decide. Qed.

Lemma all_issues_push sev x i : all_issues (Sev.push sev x i) ≡ₚ x :: all_issues i.
Proof. unfold all_issues. destruct sev; simpl; solve_Permutation. Qed.

Section MergerLemmas.
Variable case_tables : text → text.

Lemma result_step_tagged st r :
  result_step case_tables st r
  = foldl (tagged_step case_tables) st
          (sev ← Sev.all; pair sev <$> Sev.get sev (issues r)).
Proof.
  unfold result_step, Sev.all. cbn [mbind list_bind foldl]. 
  rewrite app_nil_r, !foldl_app, !foldl_fmap. reflexivity.
Qed.

Lemma foldl_result_step_tagged rs st :
  foldl (result_step case_tables) st rs
  = foldl (tagged_step case_tables) st (tagged_issues rs).
Proof.
  revert st. induction rs as [|r rs IH]; intros st; [done|].
  unfold tagged_issues. cbn [mbind list_bind foldl]. rewrite foldl_app.
  rewrite <- result_step_tagged. apply IH.
Qed.

(** The merge loop, with its [Set], computes the de-duplication of the
    specification, which keeps the list of the keys seen. *)
Lemma foldl_tagged_first_seen (sev : Sev.t) (l : list (Sev.t * text)) (S : gset text)
    (i : Issues.t) (seen : list text) :
  (∀ k, k ∈ S ↔ k ∈ seen) →
  Sev.get sev (foldl (tagged_step case_tables) (S, i) l).2
  = Sev.get sev i ++ bucket sev (first_seen (normalize case_tables) seen l).
Proof.
  revert S i seen. induction l as [|[sev' issue] l IH]; intros S i seen Hseen.
  - simpl. by rewrite app_nil_r.
  - cbn [foldl first_seen]. unfold tagged_step at 2, issue_step. cbn [fst snd].
    case_decide as Hin; case_bool_decide as Hin'; rewrite Hseen in Hin; try done.
    + by apply IH.
    + erewrite IH; last first.
      { intros k. rewrite elem_of_union, elem_of_singleton, elem_of_cons, Hseen. done. }
      rewrite get_push, bucket_cons. cbn [fst snd].
      case_decide; [|done]. by rewrite <- app_assoc.
Qed.

(** Invariant of the merge loop: the issues kept so far have distinct
    keys, all of them in the [Set]. *)
Lemma foldl_tagged_NoDup (l : list (Sev.t * text)) (S : gset text) (i : Issues.t) :
  NoDup (normalize case_tables <$> all_issues i) →
  (∀ x, x ∈ all_issues i → normalize case_tables x ∈ S) →
  NoDup (normalize case_tables
         <$> all_issues (foldl (tagged_step case_tables) (S, i) l).2).
Proof.
  revert S i. induction l as [|[sev issue] l IH]; intros S i Hnd Hin; [done|].
  cbn [foldl]. unfold tagged_step at 2, issue_step. cbn [fst snd].
  case_decide as Hk; [by apply IH|]. apply IH.
  - rewrite all_issues_push, fmap_cons. apply NoDup_cons. split; [|done].
    intros Hk'. apply list_elem_of_fmap in Hk' as (y & Hy & Hy').
    apply Hk. rewrite Hy. by apply Hin.
  - intros x. rewrite all_issues_push, elem_of_cons, elem_of_union, elem_of_singleton.
    intros [->|Hx]; [by left|right; by apply Hin].
Qed.

Lemma combineChunkResults_merged r1 r2 rs focus :
  ∃ rep, combineChunkResults case_tables (r1 :: r2 :: rs) focus = Return rep
         ∧ issues rep = combine_issues case_tables (r1 :: r2 :: rs)
         ∧ issueCount rep
           = Some (Count.mk (length (Issues.critical (issues rep)))
                            (length (Issues.high (issues rep)))
                            (length (Issues.medium (issues rep)))
                            (length (Issues.low (issues rep)))
                            (Some (length (Issues.critical (issues rep))
                                   + length (Issues.high (issues rep))
                                   + length (Issues.medium (issues rep))
                                   + length (Issues.low (issues rep)))))
         ∧ processedChunks rep = Some (length (r1 :: r2 :: rs))
         ∧ totalChunks rep = totalChunks r1
         ∧ chunkResults rep = None ∧ errors rep = None ∧ partialSuccess rep = None.
Proof. eexists. split_and!; reflexivity. Qed.

(** The merged issues, as the first occurrences among all the issues. *)
Lemma combine_issues_first_seen rs :
  (∀ sev, Sev.get sev (combine_issues case_tables rs)
          = bucket sev (first_seen (normalize case_tables) [] (tagged_issues rs)))
  ∧ NoDup (normalize case_tables <$> all_issues (combine_issues case_tables rs)).
Proof.
  split.
  - intros sev. unfold combine_issues. rewrite foldl_result_step_tagged.
    rewrite (foldl_tagged_first_seen sev _ ∅ Issues.empty []); [by destruct sev|].
    intros k. set_solver.
  - unfold combine_issues. rewrite foldl_result_step_tagged.
    apply foldl_tagged_NoDup; [constructor|]. intros x Hx. by apply elem_of_nil in Hx.
Qed.

End MergerLemmas.

(** C7: when two or more results are merged, each severity list is the
    first-seen de-duplication of the issues of all chunks, in the order
    of the chunks and of the severities, where the key of an issue is its
    lower-cased, then trimmed text; no key occurs twice in the merged
    lists; and [issueCount] counts the four merged lists, its total being
    the sum of their lengths.  The key does fold the case and strip the
    white space: the two spellings of the example have the same key. *)
Theorem combineChunkResults_dedup case_tables rs focus :
  2 ≤ length rs →
  let key := λ issue, trim (toLowerCase case_tables issue) in
  ∃ rep,
    combineChunkResults case_tables rs focus = Return rep
    ∧ (∀ sev, Sev.get sev (issues rep) = bucket sev (first_seen key [] (tagged_issues rs)))
    ∧ NoDup (key <$> all_issues (issues rep))
    ∧ issueCount rep
      = Some {| Count.critical := length (Issues.critical (issues rep));
                Count.high := length (Issues.high (issues rep));
                Count.medium := length (Issues.medium (issues rep));
                Count.low := length (Issues.low (issues rep));
                Count.total :=
                  Some (length (Issues.critical (issues rep))
                        + length (Issues.high (issues rep))
                        + length (Issues.medium (issues rep))
                        + length (Issues.low (issues rep))) |}
    ∧ key (lit "Missing null check") = lit "missing null check"
    ∧ key (lit "  missing NULL check ") = lit "missing null check".
Proof.
  intros Hlen key. destruct rs as [|r1 [|r2 rs]]; [simpl in Hlen; lia..|].
  destruct (combineChunkResults_merged case_tables r1 r2 rs focus)
    as (rep & Hrep & Hissues & Hcount & _).
  destruct (combine_issues_first_seen case_tables (r1 :: r2 :: rs)) as [Hget Hnd].
  rewrite <- Hissues in Hget, Hnd. exists rep.
  split_and!; [done|exact Hget|exact Hnd|exact Hcount|by vm_compute..].
Qed.

Lemma combineChunkResults_dedup_witness :
  2 ≤ length example_results
  ∧ ∃ rep, combineChunkResults no_tables example_results [] = Return rep
           ∧ Issues.high (issues rep)
             = [lit "Missing null check"; lit "Unused import"; lit "Dead code"]
           ∧ (Count.total <$> issueCount rep) = Some (Some 3).
Proof.
  assert (2 ≤ length example_results) as Hlen by (simpl; lia).
  split; [exact Hlen|].
  destruct (combineChunkResults_dedup no_tables example_results [] Hlen)
    as (rep & Hrep & Hsev & _ & Hcount & _).
  exists rep. split; [exact Hrep|].
  pose proof (Hsev Sev.High) as Hhigh. cbn [Sev.get] in Hhigh.
  assert (Issues.high (issues rep)
          = [lit "Missing null check"; lit "Unused import"; lit "Dead code"]) as Hh.
  { rewrite Hhigh. by vm_compute. }
  split; [exact Hh|].
  pose proof (Hsev Sev.Critical) as Hc. pose proof (Hsev Sev.Medium) as Hm.
  pose proof (Hsev Sev.Low) as Hl. cbn [Sev.get] in Hc, Hm, Hl.
  rewrite Hcount. cbn [fmap option_fmap option_map Count.total].
  rewrite Hh, Hc, Hm, Hl. by vm_compute.
Defined.

(** The example of the merger: of the two spellings of the same issue
    the first is kept, and the total counts the merged lists. *)
Example combineChunkResults_example :
  ∃ rep, combineChunkResults no_tables example_results [] = Return rep
         ∧ Issues.high (issues rep)
           = [lit "Missing null check"; lit "Unused import"; lit "Dead code"]
         ∧ (Count.total <$> issueCount rep) = Some (Some 3).
Proof. eexists. split_and!; [reflexivity|by vm_compute..]. Qed.

(** Case variants beyond Latin-1 are merged as the case tables of the
    engine have it: two spellings of a Cyrillic word, U+0414 U+0410 and
    U+0434 U+0430, are one issue when the tables map the first on the
    second. *)
Example combineChunkResults_cyrillic case_tables :
  case_tables [1044; 1040]%N = [1076; 1072]%N →
  case_tables [1076; 1072]%N = [1076; 1072]%N →
  ∃ rep, combineChunkResults case_tables
           [result_with_high 1 [[1044; 1040]%N]; result_with_high 2 [[1076; 1072]%N]] []
         = Return rep
         ∧ Issues.high (issues rep) = [[1044; 1040]%N]
         ∧ (Count.total <$> issueCount rep) = Some (Some 1).
Proof.
  intros H1 H2. eexists. split; [reflexivity|].
  cbn [issues issueCount combineChunkResults].
  unfold combine_issues. cbn [foldl]. unfold result_step, Sev.all. cbn [foldl].
  unfold severity_step. cbn [result_with_high issues Sev.get Issues.critical Issues.high
    Issues.medium Issues.low foldl].
  unfold issue_step, normalize, toLowerCase. cbn [forallb N.leb N.compare Pos.compare
    Pos.compare_cont andb fst snd].
  rewrite H1, H2. by vm_compute.
Qed.

(** C9 on the code: the report that the merge of two or more results
    returns has [issueCount], [processedChunks] and the [totalChunks] of
    the first result, but no [chunkResults] (the object that holds them is
    not the one returned), and [errors] and [partialSuccess] are not set
    by the merge. *)
Theorem combineChunkResults_fields case_tables rs focus :
  2 ≤ length rs →
  ∃ rep first,
    combineChunkResults case_tables rs focus = Return rep
    ∧ head rs = Some first
    ∧ chunkResults rep = None
    ∧ totalChunks rep = totalChunks first
    ∧ processedChunks rep = Some (length rs)
    ∧ is_Some (issueCount rep)
    ∧ errors rep = None ∧ partialSuccess rep = None.
Proof.
  intros Hlen. destruct rs as [|r1 [|r2 rs]]; [simpl in Hlen; lia..|].
  destruct (combineChunkResults_merged case_tables r1 r2 rs focus)
    as (rep & Hrep & _ & Hcount & Hproc & Htotal & Hchunks & Herr & Hpartial).
  exists rep, r1. rewrite Hcount. by split_and!.
Qed.

Lemma combineChunkResults_fields_witness :
  2 ≤ length example_results
  ∧ ∃ rep, combineChunkResults no_tables example_results [] = Return rep
           ∧ chunkResults rep = None ∧ totalChunks rep = 3.
Proof.
  assert (2 ≤ length example_results) as Hlen by (simpl; lia).
  split; [exact Hlen|].
  destruct (combineChunkResults_fields no_tables example_results [] Hlen)
    as (rep & first & Hrep & Hfirst & Hchunks & Htotal & _).
  exists rep. split_and!; [done|done|].
  rewrite Htotal. by injection Hfirst as <-.
Defined.

(** The retry tracking of [enhanceOutputFormat] reads [chunkResults]:
    after a merge of two recovered chunks it counts none. *)
Example merged_report_counts_no_recovery :
  ∃ rep, combineChunkResults no_tables example_recovered [] = Return rep
         ∧ Forall (λ r, retrySuccess r = Some true) example_recovered
         ∧ chunkResults rep = None
         ∧ retrySuccessCount rep = 0
         ∧ includes (lit "Chunks Recovered") (summary (enhanceOutputFormat rep)) = false.
Proof.
  eexists. split_and!; [reflexivity|by repeat constructor|done|done|by vm_compute].
Qed.

(** ** Chunk orchestrator *)

Section OrchestratorLemmas.
Variables (case_tables : text → text) (JSON_parse : text → option Json.value).
Variables (chunks : list text) (focus : list text) (env : Env).

(** After the tasks of [order] have completed, [chunkResults] and
    [errors] have grown by their successes and failures, in that order. *)
Lemma foldl_complete_lists order st :
  results (foldl (complete case_tables JSON_parse chunks focus env) st order) = results st ++ omap (success_of case_tables JSON_parse chunks focus env) order
  ∧ failures (foldl (complete case_tables JSON_parse chunks focus env) st order) = failures st ++ omap (failure_of case_tables JSON_parse chunks focus env) order.
Proof.
  revert st. induction order as [|i order IH]; intros st.
  - simpl. by rewrite !app_nil_r.
  - cbn [foldl omap list_omap]. destruct (IH (complete case_tables JSON_parse chunks focus env st i)) as [-> ->].
    unfold complete, success_of, failure_of.
    destruct (chunks !! i) as [chunk|]; [|done].
    destruct (chunk_outcome _ _ _ _ _ i); simpl; by rewrite <- ?app_assoc.
Qed.

Lemma settled_lists :
  results (settled case_tables JSON_parse chunks focus env) = succeeded case_tables JSON_parse chunks focus env
  ∧ failures (settled case_tables JSON_parse chunks focus env)
    = failed_entries case_tables JSON_parse chunks focus env.
Proof. unfold settled. by destruct (foldl_complete_lists (completion env) (started chunks)). Qed.

(** Each chunk succeeds or fails, not both. *)
Lemma omap_success_failure_length order :
  Forall (λ i, i < length chunks) order →
  length (omap (success_of case_tables JSON_parse chunks focus env) order) + length (omap (failure_of case_tables JSON_parse chunks focus env) order) = length order.
Proof.
  induction 1 as [|i order Hi _ IH]; [done|].
  cbn [omap list_omap]. unfold success_of at 1, failure_of at 1.
  destruct (lookup_lt_is_Some_2 chunks i Hi) as [chunk ->].
  destruct (chunk_outcome _ _ _ _ _ i); simpl; lia.
Qed.

Lemma complete_status_length st i :
  length (status (complete case_tables JSON_parse chunks focus env st i)) = length (status st).
Proof.
  unfold complete. destruct (chunks !! i); [|done].
  destruct (chunk_outcome _ _ _ _ _ i); simpl; by rewrite length_insert.
Qed.

Lemma foldl_complete_status_length order st :
  length (status (foldl (complete case_tables JSON_parse chunks focus env) st order)) = length (status st).
Proof.
  revert st. induction order as [|i order IH]; intros st; [done|].
  cbn [foldl]. by rewrite IH, complete_status_length.
Qed.

(** A task that has completed stays so. *)
Lemma foldl_complete_keeps_settled order st i s :
  status st !! i = Some s → is_settled s →
  ∃ s', status (foldl (complete case_tables JSON_parse chunks focus env) st order) !! i = Some s' ∧ is_settled s'.
Proof.
  revert st s. induction order as [|j order IH]; intros st s Hs Hset; [by exists s|].
  cbn [foldl]. unfold complete at 2.
  destruct (chunks !! j) as [chunk|]; [|by eapply IH].
  destruct (decide (j = i)) as [->|Hne].
  - destruct (chunk_outcome _ _ _ _ _ i); simpl.
    + apply (IH _ completed); [|by left]. cbn [status].
      apply list_lookup_insert_eq. by eapply lookup_lt_Some.
    + apply (IH _ failed); [|by right]. cbn [status].
      apply list_lookup_insert_eq. by eapply lookup_lt_Some.
  - destruct (chunk_outcome _ _ _ _ _ j); simpl;
      (apply (IH _ s); [|done]); cbn [status]; by rewrite list_lookup_insert_ne.
Qed.

Lemma foldl_complete_settles order st i :
  i ∈ order → i < length chunks → length (status st) = length chunks →
  ∃ s', status (foldl (complete case_tables JSON_parse chunks focus env) st order) !! i = Some s' ∧ is_settled s'.
Proof.
  revert st. induction order as [|j order IH]; intros st Hin Hi Hlen.
  - by apply elem_of_nil in Hin.
  - cbn [foldl]. destruct (decide (j = i)) as [->|Hne].
    + destruct (lookup_lt_is_Some_2 chunks i Hi) as [chunk Hchunk].
      unfold complete at 2. rewrite Hchunk.
      destruct (chunk_outcome _ _ _ _ _ i); simpl.
      * apply (foldl_complete_keeps_settled _ _ _ completed); [|by left].
        cbn [status]. apply list_lookup_insert_eq. lia.
      * apply (foldl_complete_keeps_settled _ _ _ failed); [|by right].
        cbn [status]. apply list_lookup_insert_eq. lia.
    + apply IH; [|done|by rewrite complete_status_length].
      apply elem_of_cons in Hin as [->|Hin]; done.
Qed.

Lemma started_status_length : length (status (started chunks)) = length chunks.
Proof.
  unfold started. cbn [status].
  generalize (seq 0 (length chunks)). intros l.
  assert (∀ st : list ChunkStatus,
            length (foldl (λ st i, <[i:=in_progress]> st) st l) = length st) as H.
  { induction l as [|i l IH]; intros st; [done|].
    cbn [foldl]. by rewrite IH, length_insert. }
  by rewrite H, length_replicate.
Qed.

(** When every index is in the order of completion, every status is
    [completed] or [failed] after the wait. *)
Lemma settled_status :
  completion env ≡ₚ seq 0 (length chunks) →
  Forall is_settled (status (settled case_tables JSON_parse chunks focus env)).
Proof.
  intros Hperm. apply Forall_lookup. intros i s Hs.
  assert (i < length chunks) as Hi.
  { apply lookup_lt_Some in Hs. unfold settled in Hs.
    by rewrite foldl_complete_status_length, started_status_length in Hs. }
  destruct (foldl_complete_settles (completion env) (started chunks) i)
    as (s' & Hs' & Hset); [|done|apply started_status_length|].
  - rewrite Hperm. apply elem_of_seq. lia.
  - unfold settled in Hs. rewrite Hs in Hs'. by injection Hs' as <-.
Qed.

End OrchestratorLemmas.

(** What the controller returns is a result of one of its calls, with
    the retry annotation or without. *)
Lemma retry_loop_Return (P : Review → Prop) call random fuel attempt lastError retries r :
  (∀ a r, call a = Return r → P r) →
  (∀ n r, P r → P (set_retry n r)) →
  (retry_loop call random fuel attempt lastError retries).1 = Return r → P r.
Proof.
  intros Hcall Hset. revert attempt lastError retries.
  induction fuel as [|fuel IH]; intros attempt lastError retries; [done|].
  cbn [retry_loop]. destruct (call attempt) as [r0|e] eqn:Ecall.
  - cbn [fst]. intros [= <-]. destruct (0 <? _); [apply Hset|]; by eapply Hcall.
  - destruct (attempt =? MAX_RETRIES); [done|].
    destruct (retry_loop call random fuel (S attempt) (Some e) _) as [outcome events] eqn:E.
    cbn [fst]. intros ->. eapply (IH (S attempt)). by rewrite E.
Qed.

Lemma chunk_outcome_is_chunk_result case_tables JSON_parse chunks focus env i r :
  chunk_outcome case_tables JSON_parse chunks focus env i = Return r → is_chunk_result r.
Proof.
  unfold chunk_outcome, chunk_run, processChunkWithRetry.
  apply retry_loop_Return.
  - intros a r0. destruct (exchange env i a); simpl; try done.
    + by rewrite api_error_raw.
    + by intros [= <-].
  - by intros n r0 (? & ? & ? & ? & ?).
Qed.

Lemma succeeded_are_chunk_results case_tables JSON_parse chunks focus env :
  Forall is_chunk_result (succeeded case_tables JSON_parse chunks focus env).
Proof.
  apply Forall_forall. intros r Hr.
  apply list_elem_of_omap in Hr as (i & _ & Hi). unfold success_of in Hi.
  destruct (chunks !! i); [|done].
  destruct (chunk_outcome _ _ _ _ _ i) eqn:E; [|done].
  injection Hi as <-. by eapply chunk_outcome_is_chunk_result.
Qed.

Lemma combined_unfold case_tables JSON_parse chunks focus env :
  combined case_tables JSON_parse chunks focus env
  = match succeeded case_tables JSON_parse chunks focus env,
          failed_entries case_tables JSON_parse chunks focus env with
    | [], first :: _ =>
        Throw (Err.Error
                 (lit "All "
                  ++ of_nat (length (failed_entries case_tables JSON_parse chunks focus env))
                  ++ lit " chunks failed to process. First error: "
                  ++ Failure.error first))
    | ok, ko =>
        match combineChunkResults case_tables ok focus with
        | Throw e => Throw e
        | Return c =>
            Return (match ko with
                    | [] => c
                    | _ => set_summary (warning chunks (length ko) ++ summary c)
                                       (set_failures ko c)
                    end)
        end
    end.
Proof.
  unfold combined. cbv zeta.
  destruct (settled_lists case_tables JSON_parse chunks focus env) as [-> ->].
  by destruct (succeeded _ _ _ _ _), (failed_entries _ _ _ _ _).
Qed.

(** What is merged when at least one chunk has succeeded: the single
    result itself, or the merged report. *)
Lemma combineChunkResults_succeeded case_tables JSON_parse chunks focus env :
  succeeded case_tables JSON_parse chunks focus env ≠ [] →
  ∃ c, combineChunkResults case_tables (succeeded case_tables JSON_parse chunks focus env) focus = Return c
       ∧ chunkResults c = None ∧ errors c = None ∧ partialSuccess c = None
       ∧ processedChunks c
         = (if decide (length (succeeded case_tables JSON_parse chunks focus env) = 1) then None
            else Some (length (succeeded case_tables JSON_parse chunks focus env))).
Proof.
  intros Hne. pose proof (succeeded_are_chunk_results case_tables JSON_parse chunks focus env) as Hall.
  destruct (succeeded case_tables JSON_parse chunks focus env) as [|r1 [|r2 rs]]; [done| |].
  - exists r1. apply Forall_singleton in Hall as (? & ? & ? & ? & ?). by split_and!.
  - destruct (combineChunkResults_merged case_tables r1 r2 rs focus)
      as (rep & Hrep & _ & _ & Hproc & _ & Hchunks & Herr & Hpartial).
    exists rep. by split_and!.
Qed.

(** C1, as the code has it.  After the wait every chunk task has
    completed or failed.  When every chunk fails, the call throws an error
    whose message names the number of failures and the message of the
    first failure recorded.  When some chunks fail and some succeed, the
    report has [partialSuccess = true] and an [errors] list with one entry
    for each failed chunk; [processedChunks] is the number of successes
    when two or more chunks succeeded, and is absent when exactly one did,
    since that result is returned as it is. *)
Theorem reviewChunks_outcomes case_tables JSON_parse chunks focus env :
  1 ≤ length chunks →
  completion env ≡ₚ seq 0 (length chunks) →
  let ok := succeeded case_tables JSON_parse chunks focus env in
  let ko := failed_entries case_tables JSON_parse chunks focus env in
  Forall is_settled (status (settled case_tables JSON_parse chunks focus env))
  ∧ length ok + length ko = length chunks
  ∧ ko ≡ₚ omap (failure_of case_tables JSON_parse chunks focus env) (seq 0 (length chunks))
  ∧ (ok = [] →
     ∃ first, head ko = Some first
       ∧ reviewChunks case_tables JSON_parse chunks focus env
         = Throw (Err.Error (lit "All " ++ of_nat (length chunks)
                             ++ lit " chunks failed to process. First error: "
                             ++ Failure.error first)))
  ∧ (ok ≠ [] → ko ≠ [] →
     ∃ rep, reviewChunks case_tables JSON_parse chunks focus env = Return rep
       ∧ partialSuccess rep = Some true
       ∧ errors rep = Some ko
       ∧ processedChunks rep
         = if decide (length ok = 1) then None else Some (length ok)).
Proof.
  intros Hn Hperm ok ko.
  assert (length ok + length ko = length chunks) as Hlen.
  { unfold ok, ko, succeeded, failed_entries. rewrite omap_success_failure_length.
    - by rewrite Hperm, length_seq.
    - apply Forall_forall. intros i Hi. rewrite Hperm in Hi.
      apply elem_of_seq in Hi. lia. }
  split_and!.
  - by apply settled_status.
  - done.
  - unfold ko, failed_entries. by rewrite Hperm.
  - intros Hok. unfold reviewChunks. rewrite combined_unfold.
    fold ok ko. rewrite Hok in *. simpl in Hlen.
    destruct ko as [|first rest]; [simpl in Hlen; lia|].
    exists first. split; [done|]. by rewrite Hlen.
  - intros Hok Hko. unfold reviewChunks. rewrite combined_unfold.
    destruct (combineChunkResults_succeeded case_tables JSON_parse chunks focus env Hok)
      as (c & Hc & Hchunks & Herr & Hpartial & Hproc).
    subst ok ko.
    destruct (succeeded case_tables JSON_parse chunks focus env) as [|r1 oks]; [done|].
    rewrite Hc.
    destruct (failed_entries case_tables JSON_parse chunks focus env) as [|f1 kos]; [done|].
    eexists. split; [reflexivity|]. by split_and!.
Qed.

Lemma reviewChunks_outcomes_witness :
  1 ≤ length example_chunks
  ∧ completion example_env ≡ₚ seq 0 (length example_chunks)
  ∧ ∃ rep, reviewChunks no_tables no_JSON example_chunks [] example_env = Return rep
           ∧ partialSuccess rep = Some true
           ∧ (length <$> errors rep) = Some 2
           ∧ processedChunks rep = Some 3.
Proof.
  assert (1 ≤ length example_chunks) as Hn by (simpl; lia).
  assert (completion example_env ≡ₚ seq 0 (length example_chunks)) as Hperm.
  { apply (bool_decide_unpack _). by vm_compute. }
  split_and!; [exact Hn|exact Hperm|].
  destruct (reviewChunks_outcomes no_tables no_JSON example_chunks [] example_env Hn Hperm)
    as (_ & _ & _ & _ & Hpartial).
  destruct Hpartial as (rep & Hrep & Hflag & Herrors & Hproc).
  { by vm_compute. }
  { by vm_compute. }
  exists rep. split_and!; [exact Hrep|exact Hflag| |].
  - rewrite Herrors. by vm_compute.
  - rewrite Hproc. by vm_compute.
Defined.

(** The example of the orchestrator, evaluated: the entries of [errors]
    carry the chunk number, the message and the start of the chunk. *)
Example reviewChunks_example :
  ∃ rep, reviewChunks no_tables no_JSON example_chunks [] example_env = Return rep
         ∧ partialSuccess rep = Some true
         ∧ errors rep
           = Some [Failure.mk 4 (lit "DeepSeek API request timed out for chunk 4")
                              (lit "d...");
                   Failure.mk 2 (lit "DeepSeek API request timed out for chunk 2")
                              (lit "b...")]
         ∧ processedChunks rep = Some 3
         ∧ totalChunks rep = 5.
Proof. eexists. split_and!; [reflexivity|by vm_compute..]. Qed.

Example reviewChunks_all_fail :
  reviewChunks no_tables no_JSON example_pair [] example_dead_env
  = Throw (Err.Error (lit "All 2 chunks failed to process. First error: DeepSeek API request timed out for chunk 2")).
Proof. by vm_compute. Qed.

(** C1 as stated fails: a text of two chunks of which the first succeeds
    and the second fails; the report has [partialSuccess = true] and one
    entry in [errors], but no [processedChunks], where the specification
    has 1. *)
Lemma reviewWithDeepseek_one_success_no_processedChunks :
  splitCodeIntoChunks example_long_code 3000
  = [replicate 2000 97%N ++ nl; replicate 2000 98%N ++ nl]
  ∧ length (succeeded no_tables no_JSON (splitCodeIntoChunks example_long_code 3000) []
                      example_pair_env) = 1
  ∧ ∃ rep, reviewWithDeepseek no_tables no_JSON example_long_code [] example_config
                              example_pair_env = Return rep
           ∧ partialSuccess rep = Some true
           ∧ (length <$> errors rep) = Some 1
           ∧ processedChunks rep = None
           ∧ processedChunks rep ≠ Some 1.
Proof.
  split_and!; [by vm_compute..|].
  eexists. split_and!; [reflexivity|by vm_compute..].
Qed.

(** ** Output formatting *)

(** The result of a chunk carries the number of chunks of the run, its
    own number and the focus areas of the run. *)
Lemma chunk_outcome_numbers case_tables JSON_parse chunks focus env i r :
  chunk_outcome case_tables JSON_parse chunks focus env i = Return r →
  totalChunks r = length chunks ∧ chunkNumber r = Some (i + 1) ∧ focusAreas r = focus.
Proof.
  unfold chunk_outcome, chunk_run, processChunkWithRetry.
  apply (retry_loop_Return
           (λ r, totalChunks r = length chunks ∧ chunkNumber r = Some (i + 1)
                 ∧ focusAreas r = focus)).
  - intros a r0. destruct (exchange env i a); simpl; try done.
    + by rewrite api_error_raw.
    + by intros [= <-].
  - by intros n r0 (? & ? & ?).
Qed.

Lemma succeeded_totalChunks case_tables JSON_parse chunks focus env :
  Forall (λ r, totalChunks r = length chunks ∧ focusAreas r = focus)
         (succeeded case_tables JSON_parse chunks focus env).
Proof.
  apply Forall_forall. intros r Hr.
  apply list_elem_of_omap in Hr as (i & _ & Hi). unfold success_of in Hi.
  destruct (chunks !! i); [|done].
  destruct (chunk_outcome _ _ _ _ _ i) eqn:E; [|done].
  injection Hi as <-. by destruct (chunk_outcome_numbers _ _ _ _ _ _ _ E) as (? & _ & ?).
Qed.

Lemma succeeded_chunks_nonempty case_tables JSON_parse chunks focus env :
  succeeded case_tables JSON_parse chunks focus env ≠ [] → 1 ≤ length chunks.
Proof.
  intros Hne.
  destruct (succeeded case_tables JSON_parse chunks focus env) as [|r rs] eqn:E; [done|].
  assert (r ∈ succeeded case_tables JSON_parse chunks focus env) as Hr by (rewrite E; left).
  apply list_elem_of_omap in Hr as (i & _ & Hi). unfold success_of in Hi.
  destruct (chunks !! i) eqn:El; [|done]. apply lookup_lt_Some in El. lia.
Qed.

Lemma enhanceOutputFormat_summary r :
  chunkResults r = None →
  summary (enhanceOutputFormat r)
  = quickStats r ++ keyIssues r ++ nl ++ lit "**" ++ nl ++ nl ++ summary r.
Proof.
  intros Hnone. unfold enhanceOutputFormat, retrySuccessCount. by rewrite Hnone.
Qed.

(** What [reviewWithDeepseek] hands to [enhanceOutputFormat]: the merge
    of the successes, with the warning before its summary when a chunk
    has failed.  It has no [chunkResults]; its counts are those of its
    issue lists, its focus areas those of the run. *)
Lemma combined_Return case_tables JSON_parse chunks focus env merged :
  combined case_tables JSON_parse chunks focus env = Return merged →
  let ok := succeeded case_tables JSON_parse chunks focus env in
  let ko := failed_entries case_tables JSON_parse chunks focus env in
  ∃ c, combineChunkResults case_tables ok focus = Return c
       ∧ chunkResults merged = None
       ∧ issueCount_or_lengths merged
         = Count.mk (length (Issues.critical (issues merged)))
                    (length (Issues.high (issues merged)))
                    (length (Issues.medium (issues merged)))
                    (length (Issues.low (issues merged)))
                    (Count.total (issueCount_or_lengths merged))
       ∧ focusAreas merged = focus
       ∧ or_one (processedChunks merged) = length ok
       ∧ or_one (Some (totalChunks merged)) = length chunks
       ∧ summary merged
         = (if decide (ko = []) then [] else warning chunks (length ko)) ++ summary c.
Proof.
  rewrite combined_unfold. intros H ok ko.
  destruct (decide (ok = [])) as [Hnil|Hne].
  { subst ok. rewrite Hnil in H.
    destruct (failed_entries case_tables JSON_parse chunks focus env); simpl in H;
      discriminate. }
  pose proof (succeeded_chunks_nonempty _ _ _ _ _ Hne) as Hn.
  pose proof (succeeded_totalChunks case_tables JSON_parse chunks focus env) as Htotal.
  pose proof (succeeded_are_chunk_results case_tables JSON_parse chunks focus env) as Hshape.
  assert (or_one (Some (length chunks)) = length chunks) as Hone
    by (destruct (length chunks); [lia|done]).
  subst ok ko.
  destruct (succeeded case_tables JSON_parse chunks focus env) as [|r1 [|r2 oks]]; [done| |].
  - apply Forall_singleton in Htotal as [Htotal Hfocus].
    apply Forall_singleton in Hshape as (Hp & Hcr & Hic & _).
    exists r1. simpl in H.
    destruct (failed_entries case_tables JSON_parse chunks focus env) as [|f kos];
      injection H as <-; (split; [done|]); unfold issueCount_or_lengths;
      cbn [chunkResults issueCount issues focusAreas processedChunks totalChunks summary
           set_summary set_failures]; rewrite Hp, Hic, Htotal; by split_and!.
  - apply Forall_cons in Htotal as [[Htotal _] _].
    destruct (combineChunkResults_merged case_tables r1 r2 oks focus)
      as (c & Hc & _ & Hcount & Hproc & Htc & Hcr & _).
    assert (focusAreas c = focus) as Hfocus by (by injection Hc as <-).
    exists c. rewrite Hc in H.
    destruct (failed_entries case_tables JSON_parse chunks focus env) as [|f kos];
      injection H as <-; (split; [done|]); unfold issueCount_or_lengths;
      cbn [chunkResults issueCount issues focusAreas processedChunks totalChunks summary
           set_summary set_failures]; rewrite Hcount, Hproc, Htc, Htotal;
      by split_and!.
Qed.

(** C10: when a review returns, the summary of the report starts with
    the generated block: an empty line, the heading [## Quick Stats], the
    total and the count of each severity of the issue lists of the
    report, the focus areas, and the number of chunks that succeeded over
    the number of chunks.  The block is followed by the key issues, the
    separator and the summary of the merge; when chunks have failed, the
    warning note with their number comes there, between the separator and
    the summary of the merge, not at the start. *)
Theorem reviewWithDeepseek_summary case_tables JSON_parse code focus config env rep :
  reviewWithDeepseek case_tables JSON_parse code focus config env = Return rep →
  let chunks := splitCodeIntoChunks code 3000 in
  let ok := succeeded case_tables JSON_parse chunks focus env in
  let ko := failed_entries case_tables JSON_parse chunks focus env in
  let critical := length (Issues.critical (issues rep)) in
  let high := length (Issues.high (issues rep)) in
  let medium := length (Issues.medium (issues rep)) in
  let low := length (Issues.low (issues rep)) in
  ∃ c,
    combineChunkResults case_tables ok focus = Return c
    ∧ summary rep
      = nl ++ lit "## Quick Stats" ++ nl
        ++ lit "- **Total Issues**: " ++ of_nat (critical + high + medium + low) ++ nl
        ++ lit "- **Critical**: " ++ of_nat critical ++ nl
        ++ lit "- **High**: " ++ of_nat high ++ nl
        ++ lit "- **Medium**: " ++ of_nat medium ++ nl
        ++ lit "- **Low**: " ++ of_nat low ++ nl
        ++ lit "- **Focus Areas**: " ++ join (lit ", ") focus ++ nl
        ++ lit "- **Chunks Processed**: " ++ of_nat (length ok) ++ lit "/"
        ++ of_nat (length chunks) ++ nl
        ++ nl
        ++ keyIssues rep ++ nl ++ lit "**" ++ nl ++ nl
        ++ (if decide (ko = []) then []
            else [9888; 65039]%N ++ lit " Note: " ++ of_nat (length ko) ++ lit " of "
                 ++ of_nat (length chunks)
                 ++ lit " chunks failed to process. The review is incomplete."
                 ++ nl ++ nl)
        ++ summary c
    ∧ (critical = 0 → high = 0 → keyIssues rep = []).
Proof.
  intros H chunks ok ko critical high medium low.
  unfold reviewWithDeepseek, reviewChunks in H.
  destruct (apiKey config) as [[|k key]|]; try discriminate H.
  fold chunks in H.
  destruct (combined case_tables JSON_parse chunks focus env) as [merged|e] eqn:Hmerged;
    [|discriminate H].
  injection H as <-.
  destruct (combined_Return _ _ _ _ _ _ Hmerged)
    as (c & Hc & Hnone & Hcount & Hfocus & Hproc & Htotal & Hsummary).
  exists c. split; [exact Hc|].
  assert (keyIssues (enhanceOutputFormat merged) = keyIssues merged) as Hkeys by done.
  assert (issues (enhanceOutputFormat merged) = issues merged) as Hissues by done.
  subst critical high medium low. rewrite Hkeys, Hissues. split.
  - rewrite (enhanceOutputFormat_summary _ Hnone). unfold quickStats, retrySuccessCount.
    cbv zeta. rewrite Hnone, Hcount, Hfocus, Hproc, Htotal, Hsummary.
    cbn [Count.critical Count.high Count.medium Count.low Nat.ltb Nat.leb].
    fold ok ko. unfold warning, warning_sign. fold chunks.
    case_decide; rewrite <- ?app_assoc; reflexivity.
  - intros Hc0 Hh0. unfold keyIssues. cbv zeta. rewrite Hcount.
    cbn [Count.critical Count.high]. by rewrite Hc0, Hh0.
Qed.

Lemma reviewWithDeepseek_summary_witness :
  ∃ rep, reviewWithDeepseek no_tables no_JSON example_three_code [lit "security"]
                            example_config example_three_env = Return rep
         ∧ startsWith
             (nl ++ lit "## Quick Stats" ++ nl
              ++ lit "- **Total Issues**: 2" ++ nl
              ++ lit "- **Critical**: 1" ++ nl
              ++ lit "- **High**: 1" ++ nl
              ++ lit "- **Medium**: 0" ++ nl
              ++ lit "- **Low**: 0" ++ nl
              ++ lit "- **Focus Areas**: security" ++ nl
              ++ lit "- **Chunks Processed**: 2/3" ++ nl
              ++ nl)
             (summary rep) = true
         ∧ includes
             (nl ++ lit "**" ++ nl ++ nl ++ [9888; 65039]%N
              ++ lit " Note: 1 of 3 chunks failed to process. The review is incomplete."
              ++ nl ++ nl ++ lit "Code Review Summary (2 chunks):")
             (summary rep) = true.
Proof.
  destruct (reviewWithDeepseek no_tables no_JSON example_three_code [lit "security"]
              example_config example_three_env) as [rep|e] eqn:Hrep;
    [|by vm_compute in Hrep].
  exists rep. split; [reflexivity|].
  destruct (reviewWithDeepseek_summary _ _ _ _ _ _ _ Hrep) as (c & Hc & Hsummary & _).
  rewrite Hsummary. clear Hsummary.
  vm_compute in Hrep. injection Hrep as <-.
  vm_compute in Hc. injection Hc as <-.
  split; by vm_compute.
Defined.

(** A partial failure with one success, evaluated: the summary starts
    with the block and the warning comes later. *)
Example reviewChunks_partial_summary :
  ∃ rep, reviewChunks no_tables no_JSON example_pair [lit "security"] example_pair_env
         = Return rep
         ∧ startsWith (nl ++ lit "## Quick Stats" ++ nl) (summary rep) = true
         ∧ startsWith (warning example_pair 1) (summary rep) = false
         ∧ includes (lit "- **Chunks Processed**: 1/2" ++ nl) (summary rep) = true
         ∧ includes (warning example_pair 1) (summary rep) = true.
Proof. eexists. split_and!; [reflexivity|by vm_compute..]. Qed.

(** * Further properties *)

(** ** Chunker *)

(** X1: the chunker never returns an empty list, a chunk is empty only
    when the whole text is, and there are never more chunks than lines. *)
Theorem splitCodeIntoChunks_nonempty code n :
  splitCodeIntoChunks code n ≠ []
  ∧ Forall (λ c, c ≠ [] ∨ code = []) (splitCodeIntoChunks code n)
  ∧ length (splitCodeIntoChunks code n) ≤ length (split_lines code).
Proof.
  destruct (decide (n < length code)) as [Hlong|Hshort].
  - destruct (splitCodeIntoChunks_groups code n Hlong) as (groups & -> & Hcat & Hne & _).
    assert (length groups ≤ length (split_lines code)) as Hlen.
    { rewrite <- Hcat. clear Hcat. induction Hne as [|g groups Hg _ IH]; [done|].
      simpl. rewrite length_app. destruct g; [done|]. simpl. lia. }
    split_and!.
    + destruct groups; [|done]. simpl in Hcat. symmetry in Hcat.
      by apply split_lines_nonempty in Hcat.
    + apply Forall_fmap. eapply Forall_impl; [exact Hne|]. intros g Hg. left.
      intros Hr. by apply render_nil_inv in Hr.
    + by rewrite length_fmap.
  - unfold splitCodeIntoChunks.
    destruct (Nat.leb_spec (length code) n) as [_|?]; [|lia].
    split_and!; [done| |].
    + apply Forall_singleton. destruct code; [by right|by left].
    + simpl. pose proof (split_lines_nonempty code).
      destruct (split_lines code); [done|simpl; lia].
Qed.

(** ** Trimming and slices *)

Lemma trim_start_split s :
  ∃ pre, s = pre ++ trim_start s ∧ forallb is_space pre = true.
Proof.
  induction s as [|c s (pre & IH & Hpre)]; [by exists []|].
  simpl. destruct (is_space c) eqn:E.
  - exists (c :: pre). simpl. rewrite E, Hpre. split; [by f_equal|done].
  - by exists [].
Qed.

Lemma trim_start_head s c s' : trim_start s = c :: s' → is_space c = false.
Proof.
  induction s as [|d s IH]; [done|]. simpl.
  destruct (is_space d) eqn:E; [done|]. by intros [= <- _].
Qed.

Lemma trim_start_fixed c s : is_space c = false → trim_start (c :: s) = c :: s.
Proof. intros H. simpl. by rewrite H. Qed.

Lemma trim_split s :
  ∃ pre post, s = pre ++ trim s ++ post
              ∧ forallb is_space pre = true ∧ forallb is_space post = true.
Proof.
  unfold trim. destruct (trim_start_split s) as (pre & Hs & Hpre).
  destruct (trim_start_split (reverse (trim_start s))) as (post & Hr & Hpost).
  exists pre, (reverse post). split_and!; [|done|].
  - rewrite Hs at 1. f_equal. rewrite <- reverse_app, <- Hr. by rewrite reverse_involutive.
  - rewrite forallb_forall in *. intros x Hx. apply Hpost.
    apply list_elem_of_In. apply list_elem_of_In in Hx. by rewrite elem_of_reverse in Hx.
Qed.

Lemma trim_slice s : slice_of (trim s) s.
Proof. destruct (trim_split s) as (pre & post & H & _). by exists pre, post. Qed.

(** The ends of a trimmed text are not white space. *)
Lemma trim_ends s :
  match trim s with
  | [] => True
  | c :: _ => is_space c = false
  end
  ∧ match reverse (trim s) with
    | [] => True
    | c :: _ => is_space c = false
    end.
Proof.
  unfold trim. rewrite reverse_involutive.
  destruct (trim_start (reverse (trim_start s))) as [|c r] eqn:E; [done|].
  pose proof (trim_start_head _ _ _ E) as Hc. split; [|done].
  rewrite reverse_cons.
  destruct (trim_start_split (reverse (trim_start s))) as (pre & Hr & _).
  rewrite E in Hr. apply (f_equal reverse) in Hr.
  rewrite reverse_involutive, reverse_app, reverse_cons in Hr.
  destruct (reverse r ++ [c]) as [|d t] eqn:Et.
  { by destruct (reverse r). }
  simpl in Hr. by eapply trim_start_head.
Qed.

Lemma trim_idempotent s : trim (trim s) = trim s.
Proof.
  destruct (trim_ends s) as [Hhead Hlast]. 
  destruct (trim s) as [|c t] eqn:E; [done|].
  unfold trim at 1. rewrite (trim_start_fixed c t Hhead).
  destruct (reverse (c :: t)) as [|d r] eqn:Er.
  { apply (f_equal reverse) in Er. by rewrite reverse_involutive in Er. }
  rewrite (trim_start_fixed d r Hlast), <- Er. by rewrite reverse_involutive.
Qed.

Lemma trim_nonempty s : existsb (λ c, negb (is_space c)) s = true → trim s ≠ [].
Proof.
  intros Hex Hnil. destruct (trim_split s) as (pre & post & Hs & Hpre & Hpost).
  rewrite Hnil in Hs. simpl in Hs. subst s.
  rewrite existsb_app in Hex. rewrite forallb_forall in Hpre, Hpost.
  apply orb_true_iff in Hex as [Hex|Hex]; apply existsb_exists in Hex as (c & Hc & Hn).
  - by rewrite (Hpre c Hc) in Hn.
  - by rewrite (Hpost c Hc) in Hn.
Qed.

Lemma slice_of_trans a b c : slice_of a b → slice_of b c → slice_of a c.
Proof.
  intros (p1 & q1 & ->) (p2 & q2 & ->). exists (p2 ++ p1), (q1 ++ q2).
  by rewrite <- !app_assoc.
Qed.

Lemma substring_slice a b s : slice_of (substring a b s) s.
Proof.
  unfold substring. exists (take (a `min` b) s), (drop (a `max` b - a `min` b) (drop (a `min` b) s)).
  by rewrite take_drop, take_drop.
Qed.

Lemma extractSection_slice_of t name next :
  slice_of (extractSection t name next) t ∧ trimmed (extractSection t name next).
Proof.
  unfold extractSection, trimmed. destruct t as [|c t]; [split; [by exists [], []|done]|].
  destruct (find_start (c :: t) name) as [startIndex|].
  - split; [|apply trim_idempotent].
    eapply slice_of_trans; [apply trim_slice|apply substring_slice].
  - split; [by exists [], (c :: t)|done].
Qed.

(** X2: a section that [extractSection] returns is a run of code units of
    the text, as they are, without white space at either end. *)
Theorem extractSection_slice t name next :
  slice_of (extractSection t name next) t ∧ trimmed (extractSection t name next).
Proof. apply extractSection_slice_of. Qed.

(** ** The matcher *)

(** A successful run hands to its continuation what is left of the text. *)
Lemma star_suffix greedy p prev s (k : cont) res :
  star greedy p prev s k = Some res →
  ∃ prev' s', k prev' s' = Some res ∧ s' `suffix_of` s.
Proof.
  revert prev. induction s as [|c s IH]; intros prev; cbn [star].
  - destruct greedy; destruct (k prev []) eqn:E; intros [= <-]; by exists prev, [].
  - assert (star greedy p (Some c) s k = Some res →
            ∃ prev' s', k prev' s' = Some res ∧ s' `suffix_of` c :: s) as Hmore.
    { intros (prev' & s' & Hk & Hs)%IH. exists prev', s'. split; [done|].
      by apply suffix_cons_r. }
    assert (k prev (c :: s) = Some res →
            ∃ prev' s', k prev' s' = Some res ∧ s' `suffix_of` c :: s) as Hstop.
    { intros Hk. by exists prev, (c :: s). }
    destruct greedy, (p c).
    + destruct (star true p (Some c) s k) eqn:E; [intros [= <-]; by apply Hmore|done].
    + done.
    + destruct (k prev (c :: s)) eqn:E; [intros [= <-]; by apply Hstop|done].
    + destruct (k prev (c :: s)) eqn:E; [intros [= <-]; by apply Hstop|done].
Qed.

Lemma run_suffix r prev s (k : cont) res :
  run r prev s k = Some res →
  ∃ prev' s', k prev' s' = Some res ∧ s' `suffix_of` s.
Proof.
  revert prev s k. induction r as [p|r1 IH1 r2 IH2|r1 IH1 r2 IH2|greedy p| | |r1 IH1|];
    intros prev s k; cbn [run].
  - destruct s as [|c s]; [done|]. destruct (p c); [|done].
    intros Hk. exists (Some c), s. split; [done|]. by apply suffix_cons_r.
  - intros (prev1 & s1 & (prev2 & s2 & Hk & H2)%IH2 & H1)%IH1.
    exists prev2, s2. split; [done|]. by etrans.
  - destruct (run r1 prev s k) eqn:E.
    + intros [= <-]. by apply IH1 in E.
    + by intros ?%IH2.
  - apply star_suffix.
  - destruct (xorb _ _); [|done]. intros Hk. by exists prev, s.
  - destruct s; [|done]. intros Hk. by exists prev, [].
  - destruct (run r1 prev s _); [|done]. intros Hk. by exists prev, s.
  - intros Hk. by exists prev, s.
Qed.

Lemma match_at_suffix r prev s rest :
  match_at r prev s = Some rest → rest `suffix_of` s.
Proof. intros (prev' & s' & [= <-] & Hs)%run_suffix. done. Qed.

(** A pattern that starts with a class matches texts that start with a
    code unit of the class; what is left is shorter. *)
Lemma match_at_first p r1 r2 prev s rest :
  match_at (Seq (Seq (Chr p) r1) r2) prev s = Some rest →
  ∃ c s', s = c :: s' ∧ p c = true ∧ rest `suffix_of` s'.
Proof.
  unfold match_at. cbn [run]. destruct s as [|c s]; [done|].
  destruct (p c) eqn:E; [|done].
  intros (prev1 & s1 & (prev2 & s2 & [= <-] & H2)%run_suffix & H1)%run_suffix.
  exists c, s. split_and!; [done|done|by etrans].
Qed.

(** Every match of a global search is a match at some position. *)
Lemma scan_all_match r prev s skip m :
  m ∈ scan_all r prev s skip →
  ∃ prev' s' rest, match_at r prev' s' = Some rest
                   ∧ m = take (length s' - length rest) s'.
Proof.
  revert prev skip. induction s as [|c s IH]; intros prev skip; cbn [scan_all].
  - destruct skip; [|by intros ?%elem_of_nil].
    destruct (match_at r prev []) as [rest|] eqn:E; [|by intros ?%elem_of_nil].
    intros [->|?%elem_of_nil]%elem_of_cons; [|done]. by exists prev, [], rest.
  - destruct skip as [|skip].
    + destruct (match_at r prev (c :: s)) as [rest|] eqn:E.
      * intros [->|Hin]%elem_of_cons; [by exists prev, (c :: s), rest|by eapply IH].
      * by apply IH.
    + by apply IH.
Qed.

Lemma digit_not_space c : is_digit c = true → is_space c = false.
Proof.
  unfold is_digit, is_space, mem. cbn [existsb].
  intros [H1%N.leb_le H2%N.leb_le]%andb_true_iff.
  repeat match goal with
         | |- context [(c =? ?k)%N] => destruct (N.eqb_spec c k); [lia|]
         end.
  destruct (N.leb_spec 8192 c); [lia|done].
Qed.

Lemma numbered_item_match prev s rest :
  match_at numbered_item prev s = Some rest →
  trim (take (length s - length rest) s) ≠ [].
Proof.
  intros (c & s' & -> & Hc & Hs)%match_at_first.
  apply suffix_length in Hs. simpl.
  replace (S (length s') - length rest) with (S (length s' - length rest)) by lia.
  simpl. apply trim_nonempty. simpl. by rewrite (digit_not_space c Hc).
Qed.

(** X3: every issue that [extractIssuesBySeverity] returns is a text
    that is not empty and has no white space at either end. *)
Theorem extractIssuesBySeverity_clean case_tables t severity :
  Forall (λ issue, issue ≠ [] ∧ trimmed issue) (extractIssuesBySeverity case_tables t severity).
Proof.
  unfold extractIssuesBySeverity. destruct t as [|c t]; [done|].
  destruct (find_start (c :: t) severity) as [startIndex|]; [|done].
  cbv zeta. set (severityText := trim _).
  destruct (match_all numbered_item severityText) as [ms|] eqn:E.
  - apply Forall_fmap, Forall_forall. intros m Hm. split; [|apply trim_idempotent].
    unfold match_all in E. destruct (scan_all _ _ _ _) eqn:Es; [done|].
    injection E as <-. rewrite <- Es in Hm.
    apply scan_all_match in Hm as (prev' & s' & rest & Hmatch & ->).
    by eapply numbered_item_match.
  - apply Forall_fmap, Forall_forall. intros p Hp. split; [|apply trim_idempotent].
    apply list_elem_of_In, filter_In in Hp as [_ Hp].
    unfold text_eqb in Hp. by case_bool_decide.
Qed.

(** ** Headings *)

Lemma run_cat_cons r rs prev s k :
  run (cat (r :: rs)) prev s k = run r prev s (λ prev' s', run (cat rs) prev' s' k).
Proof. reflexivity. Qed.

Lemma run_cat_skip rs1 rs2 prev s (k : cont) res :
  run (cat (rs1 ++ rs2)) prev s k = Some res →
  ∃ prev' s', s' `suffix_of` s ∧ run (cat rs2) prev' s' k = Some res.
Proof.
  revert prev s. induction rs1 as [|r rs1 IH]; intros prev s.
  - intros H. by exists prev, s.
  - rewrite <- app_comm_cons, run_cat_cons.
    intros (prev1 & s1 & (prev2 & s2 & Hs2 & Hrun)%IH & Hs1)%run_suffix.
    exists prev2, s2. split; [by etrans|done].
Qed.

(** Where a word of a pattern matches under the [i] flag, the text has
    the letters of the word, up to the case of the Basic Latin letters. *)
Lemma run_word_i w prev s (k : cont) res :
  run (word_i w) prev s k = Some res →
  ∃ m rest, s = m ++ rest ∧ canon <$> m = canon <$> w.
Proof.
  unfold word_i. revert prev s. induction w as [|a w IH]; intros prev s.
  - intros _. by exists [], s.
  - rewrite fmap_cons, run_cat_cons. unfold chr_i at 1. cbn [run].
    destruct s as [|c s]; [done|]. destruct (N.eqb_spec (canon c) (canon a)) as [Hc|]; [|done].
    intros (m & rest & -> & Hm)%IH. exists (c :: m), rest. split; [done|].
    rewrite !fmap_cons. by f_equal.
Qed.

Lemma heading_regexes_match name regex prev s rest :
  regex ∈ heading_regexes name →
  match_at regex prev s = Some rest →
  ∃ pre m post, s = pre ++ m ++ post ∧ canon <$> m = canon <$> name.
Proof.
  assert (∀ prev s (k : cont) res,
            run (cat [WordB; word_i name; WordB; Star true colon_or_space]) prev s k
            = Some res →
            ∃ pre m post, s = pre ++ m ++ post ∧ canon <$> m = canon <$> name) as Hword.
  { intros prev0 s0 k res.
    intros (prev1 & s1 & [pre ->] & Hrun)%(run_cat_skip [WordB] _).
    rewrite run_cat_cons in Hrun. apply run_word_i in Hrun as (m & post & -> & Hm).
    by exists pre, m, post. }
  assert (∀ n prev s (k : cont) res,
            run (cat (replicate n (chr_i 35)
                      ++ [Star true is_space;
                          cat [WordB; word_i name; WordB; Star true colon_or_space]]))
                prev s k = Some res →
            ∃ pre m post, s = pre ++ m ++ post ∧ canon <$> m = canon <$> name) as Hhash.
  { intros n prev0 s0 k res.
    intros (prev1 & s1 & [pre1 ->] & Hrun)%run_cat_skip.
    rewrite run_cat_cons in Hrun.
    apply run_suffix in Hrun as (prev2 & s2 & Hrun & [pre2 ->]).
    rewrite run_cat_cons in Hrun.
    apply Hword in Hrun as (pre & m & post & -> & Hm).
    exists (pre1 ++ pre2 ++ pre), m, post. by rewrite <- !app_assoc. }
  unfold heading_regexes. cbv zeta. unfold match_at.
  rewrite !elem_of_cons. intros [->|[->|[->|[->|?%elem_of_nil]]]]; [eauto..|done].
Qed.

Lemma includes_slice p pre post : includes p (pre ++ p ++ post) = true.
Proof.
  apply includes_app. destruct (p ++ post) as [|c t] eqn:E.
  - by destruct p.
  - cbn [includes]. by rewrite <- E, startsWith_app.
Qed.

Lemma search_match r prev s index found :
  search r prev s index = Some found →
  ∃ prev' pre s' rest, s = pre ++ s' ∧ match_at r prev' s' = Some rest.
Proof.
  revert prev index. induction s as [|c s IH]; intros prev index; cbn [search].
  - destruct (match_at r prev []) as [rest|] eqn:E; [|done].
    intros _. by exists prev, [], [], rest.
  - destruct (match_at r prev (c :: s)) as [rest|] eqn:E.
    + intros _. by exists prev, [], (c :: s), rest.
    + intros (prev' & pre & s' & rest & -> & Hm)%IH.
      by exists prev', (c :: pre), s', rest.
Qed.

(** A heading that occurs nowhere in the text, whatever the case of its
    letters, is not found. *)
Lemma find_start_absent t name :
  includes (canon <$> name) (canon <$> t) = false → find_start t name = None.
Proof.
  intros Habs. unfold find_start.
  assert (∀ regex, regex ∈ heading_regexes name → match1 regex t = None) as Hnone.
  { intros regex Hin. destruct (match1 regex t) as [found|] eqn:E; [|done].
    apply search_match in E as (prev' & pre0 & s' & rest & -> & Hm).
    destruct (heading_regexes_match name regex prev' s' rest Hin Hm)
      as (pre & m & post & -> & Hcanon).
    rewrite !fmap_app, Hcanon, app_assoc in Habs.
    by rewrite includes_slice in Habs. }
  assert (∀ rs, Forall (λ regex, match1 regex t = None) rs →
                foldl (start_step t) None rs = None) as Hfold.
  { induction 1 as [|regex rs Hr _ IH]; [done|].
    cbn [foldl]. unfold start_step at 2. by rewrite Hr. }
  rewrite Hfold; [done|]. by apply Forall_forall.
Qed.

Lemma headings_absent_aux case_tables t name next :
  includes (canon <$> name) (canon <$> t) = false →
  extractSection t name next = [] ∧ extractIssuesBySeverity case_tables t name = [].
Proof.
  intros Habs. unfold extractSection, extractIssuesBySeverity.
  destruct t as [|c t]; [done|]. by rewrite (find_start_absent _ _ Habs).
Qed.

(** X4: a section whose name occurs nowhere in the text, whatever the
    case of its letters, is empty, and a severity whose name occurs
    nowhere in the issues has no issues. *)
Theorem headings_absent case_tables t name next :
  includes (canon <$> name) (canon <$> t) = false →
  extractSection t name next = [] ∧ extractIssuesBySeverity case_tables t name = [].
Proof. apply headings_absent_aux. Qed.

Lemma headings_absent_witness :
  includes (canon <$> lit "Strengths") (canon <$> lit "## Summary: fine") = false
  ∧ extractSection (lit "## Summary: fine") (lit "Strengths") None = [].
Proof.
  assert (includes (canon <$> lit "Strengths") (canon <$> lit "## Summary: fine") = false)
    as Habs by reflexivity.
  split; [exact Habs|].
  by destruct (headings_absent no_tables (lit "## Summary: fine") (lit "Strengths") None
                 Habs).
Defined.

(** X5: the summary of a parsed response is a run of code units of the
    response and is empty only when the response is; a response without
    the word Summary is its own summary, and a response without the word
    Issues has no issues.  The raw response is kept as it is. *)
Theorem parseReviewResponse_summary case_tables reviewText focus chunk total :
  let r := parseReviewResponse case_tables reviewText focus chunk total in
  slice_of (summary r) reviewText
  ∧ (summary r ≠ [] ∨ reviewText = [])
  ∧ rawResponse r = reviewText
  ∧ (includes (canon <$> lit "Summary") (canon <$> reviewText) = false →
     summary r = reviewText)
  ∧ (includes (canon <$> lit "Issues") (canon <$> reviewText) = false →
     issues r = Issues.empty).
Proof.
  cbv zeta. unfold parseReviewResponse. cbn [summary rawResponse issues].
  split_and!.
  - destruct (extractSection reviewText (lit "Summary") (Some (lit "Issues"))) eqn:E.
    + exists [], []. by rewrite app_nil_r.
    + rewrite <- E. apply extractSection_slice_of.
  - destruct (extractSection reviewText (lit "Summary") (Some (lit "Issues"))).
    + destruct reviewText; [by right|by left].
    + by left.
  - done.
  - intros Habs. by rewrite (proj1 (headings_absent_aux case_tables _ _ _ Habs)).
  - intros Habs.
    rewrite (proj1 (headings_absent_aux case_tables _ (lit "Issues")
                      (Some (lit "Recommendations")) Habs)).
    reflexivity.
Qed.

Lemma parseReviewResponse_summary_witness :
  includes (canon <$> lit "Summary") (canon <$> lit "Looks fine.") = false
  ∧ includes (canon <$> lit "Issues") (canon <$> lit "Looks fine.") = false
  ∧ summary (parseReviewResponse no_tables (lit "Looks fine.") [] 1 1) = lit "Looks fine."
  ∧ issues (parseReviewResponse no_tables (lit "Looks fine.") [] 1 1) = Issues.empty.
Proof.
  assert (includes (canon <$> lit "Summary") (canon <$> lit "Looks fine.") = false)
    as H1 by reflexivity.
  assert (includes (canon <$> lit "Issues") (canon <$> lit "Looks fine.") = false)
    as H2 by reflexivity.
  destruct (parseReviewResponse_summary no_tables (lit "Looks fine.") [] 1 1)
    as (_ & _ & _ & Hs & Hi).
  split_and!; [exact H1|exact H2|exact (Hs H1)|exact (Hi H2)].
Defined.

(** ** Retry controller *)






(** ** Result merger *)

Lemma first_seen_sublist key seen l : first_seen key seen l `sublist_of` l.
Proof.
  revert seen. induction l as [|[sev issue] l IH]; intros seen; simpl; [done|].
  case_bool_decide; [by apply sublist_cons|by apply sublist_skip].
Qed.

Lemma bucket_app sev l1 l2 : bucket sev (l1 ++ l2) = bucket sev l1 ++ bucket sev l2.
Proof. unfold bucket. by rewrite filter_app, fmap_app. Qed.

Lemma bucket_pair sev sev' (l : list text) :
  bucket sev (pair sev' <$> l) = if decide (sev' = sev) then l else [].
Proof.
  induction l as [|x l IH]; [by case_decide|].
  rewrite fmap_cons, bucket_cons, IH. cbn [fst snd]. by case_decide.
Qed.

Lemma bucket_tagged sev rs : bucket sev (tagged_issues rs) = issues_in sev rs.
Proof.
  unfold tagged_issues, issues_in. induction rs as [|r rs IH]; [done|].
  cbn [mbind list_bind]. rewrite bucket_app, IH. f_equal.
  unfold Sev.all. cbn [mbind list_bind]. rewrite !bucket_app, !bucket_pair.
  destruct sev; repeat case_decide; try done; simpl; by rewrite ?app_nil_r.
Qed.

Lemma bucket_sublist sev l1 l2 : l1 `sublist_of` l2 → bucket sev l1 `sublist_of` bucket sev l2.
Proof.
  induction 1 as [|p l1 l2 _ IH|p l1 l2 _ IH]; [done| |]; rewrite !bucket_cons.
  - case_decide; [by apply sublist_skip|done].
  - case_decide; [by apply sublist_cons|done].
Qed.

(** The keys kept, with those seen before, are the keys that came in,
    with those seen before. *)
Lemma first_seen_keys (key : text → text) seen l k :
  k ∈ seen ∨ k ∈ key <$> (snd <$> first_seen key seen l)
  ↔ k ∈ seen ∨ k ∈ key <$> (snd <$> l).
Proof.
  revert seen. induction l as [|[sev issue] l IH]; intros seen; [done|].
  cbn [first_seen]. case_bool_decide as Hin.
  - rewrite IH, !fmap_cons, elem_of_cons. cbn [snd].
    split; intros [?|?]; auto; destruct_or?; subst; auto.
  - rewrite !fmap_cons, !elem_of_cons. cbn [snd].
    specialize (IH (key issue :: seen)). rewrite !elem_of_cons in IH. tauto.
Qed.

Lemma buckets_Permutation l :
  bucket Sev.Critical l ++ bucket Sev.High l ++ bucket Sev.Medium l ++ bucket Sev.Low l
  ≡ₚ snd <$> l.
Proof.
  induction l as [|[sev x] l IH]; [done|].
  rewrite !bucket_cons, fmap_cons. cbn [fst snd]. rewrite <- IH.
  destruct sev; repeat case_decide; try done; solve_Permutation.
Qed.

Lemma bucket_elem sev l x : x ∈ bucket sev l → x ∈ snd <$> l.
Proof.
  unfold bucket. intros (p & -> & Hp)%list_elem_of_fmap.
  apply list_elem_of_fmap. exists p. split; [done|].
  by apply list_elem_of_filter in Hp as [_ Hp].
Qed.

Lemma all_issues_length i :
  length (all_issues i)
  = length (Issues.critical i) + length (Issues.high i) + length (Issues.medium i)
    + length (Issues.low i).
Proof. unfold all_issues. rewrite !length_app. lia. Qed.

Section MergerKeys.
Variable case_tables : text → text.

Lemma combine_issues_Permutation rs :
  all_issues (combine_issues case_tables rs)
  ≡ₚ snd <$> first_seen (normalize case_tables) [] (tagged_issues rs).
Proof.
  destruct (combine_issues_first_seen case_tables rs) as [Hget _].
  rewrite <- buckets_Permutation, <- !Hget. done.
Qed.

Lemma combine_issues_keys rs :
  list_to_set (normalize case_tables <$> all_issues (combine_issues case_tables rs))
  = issue_keys case_tables rs.
Proof.
  unfold issue_keys. rewrite combine_issues_Permutation. apply set_eq. intros k.
  rewrite !elem_of_list_to_set.
  pose proof (first_seen_keys (normalize case_tables) [] (tagged_issues rs) k) as H.
  rewrite !elem_of_nil in H. tauto.
Qed.

Lemma combineChunkResults_total r1 r2 rs focus :
  ∃ rep count, combineChunkResults case_tables (r1 :: r2 :: rs) focus = Return rep
               ∧ issueCount rep = Some count
               ∧ Count.total count = Some (size (issue_keys case_tables (r1 :: r2 :: rs))).
Proof.
  destruct (combineChunkResults_merged case_tables r1 r2 rs focus)
    as (rep & Hrep & Hissues & Hcount & _).
  exists rep. eexists. split_and!; [done|exact Hcount|]. cbn [Count.total]. f_equal.
  rewrite <- all_issues_length, Hissues, <- combine_issues_keys.
  destruct (combine_issues_first_seen case_tables (r1 :: r2 :: rs)) as (_ & Hnd).
  by rewrite size_list_to_set, length_fmap.
Qed.






End MergerKeys.

(** X8: a merge of two or more results neither invents nor loses an
    issue: each merged severity list is a sub-sequence of the issues of
    that severity of the results, in their order, and the key (the
    lower-cased, trimmed text) of every issue of every result is the key
    of a merged issue. *)
Theorem combineChunkResults_keeps_issues case_tables rs focus :
  2 ≤ length rs →
  let key := λ issue, trim (toLowerCase case_tables issue) in
  ∃ rep, combineChunkResults case_tables rs focus = Return rep
         ∧ (∀ sev, Sev.get sev (issues rep) `sublist_of` issues_in sev rs)
         ∧ (∀ sev issue, issue ∈ issues_in sev rs →
                         key issue ∈ key <$> all_issues (issues rep)).
Proof.
  intros Hlen key. destruct rs as [|r1 [|r2 rs]]; [simpl in Hlen; lia..|].
  destruct (combineChunkResults_merged case_tables r1 r2 rs focus)
    as (rep & Hrep & Hissues & _).
  exists rep. rewrite Hissues. split_and!; [done| |].
  - intros sev. destruct (combine_issues_first_seen case_tables (r1 :: r2 :: rs)) as (-> & _).
    rewrite <- bucket_tagged. apply bucket_sublist, first_seen_sublist.
  - intros sev issue Hin. rewrite <- bucket_tagged in Hin. apply bucket_elem in Hin.
    apply (elem_of_list_to_set (C:=gset text)).
    change key with (normalize case_tables). rewrite combine_issues_keys.
    unfold issue_keys. apply elem_of_list_to_set. by apply list_elem_of_fmap_2.
Qed.

Lemma combineChunkResults_keeps_issues_witness :
  2 ≤ length example_results
  ∧ ∃ rep, combineChunkResults no_tables example_results [] = Return rep
           ∧ Issues.high (issues rep) `sublist_of` issues_in Sev.High example_results.
Proof.
  assert (2 ≤ length example_results) as Hlen by (simpl; lia).
  split; [exact Hlen|].
  destruct (combineChunkResults_keeps_issues no_tables example_results [] Hlen)
    as (rep & Hrep & Hsub & _).
  exists rep. split; [exact Hrep|exact (Hsub Sev.High)].
Defined.

(** X9: the total of a merged report is the number of distinct keys
    (lower-cased, trimmed texts) of the issues of all the results, so it
    is the same in whatever order the results come. *)
Theorem combineChunkResults_total_order case_tables rs rs' focus :
  2 ≤ length rs → rs ≡ₚ rs' →
  let key := λ issue, trim (toLowerCase case_tables issue) in
  let keys : gset text := list_to_set (key <$> (snd <$> tagged_issues rs)) in
  ∃ rep rep' count count',
    combineChunkResults case_tables rs focus = Return rep
    ∧ combineChunkResults case_tables rs' focus = Return rep'
    ∧ issueCount rep = Some count ∧ issueCount rep' = Some count'
    ∧ Count.total count = Some (size keys)
    ∧ Count.total count' = Count.total count.
Proof.
  intros Hlen Hperm key keys.
  assert (2 ≤ length rs') as Hlen' by by rewrite <- Hperm.
  assert (issue_keys case_tables rs' = issue_keys case_tables rs) as Hkeys.
  { unfold issue_keys, tagged_issues. by rewrite Hperm. }
  destruct rs as [|r1 [|r2 rs]]; [simpl in Hlen; lia..|].
  destruct rs' as [|r1' [|r2' rs']]; [simpl in Hlen'; lia..|].
  destruct (combineChunkResults_total case_tables r1 r2 rs focus)
    as (rep & count & H1 & H2 & H3).
  destruct (combineChunkResults_total case_tables r1' r2' rs' focus)
    as (rep' & count' & H1' & H2' & H3').
  exists rep, rep', count, count'. split_and!; try done.
  by rewrite H3', H3, Hkeys.
Qed.

Lemma combineChunkResults_total_order_witness :
  2 ≤ length example_results
  ∧ example_results ≡ₚ reverse example_results
  ∧ ∃ rep rep' count count',
      combineChunkResults no_tables example_results [] = Return rep
      ∧ combineChunkResults no_tables (reverse example_results) [] = Return rep'
      ∧ issueCount rep = Some count ∧ issueCount rep' = Some count'
      ∧ Count.total count' = Count.total count.
Proof.
  assert (2 ≤ length example_results) as Hlen by (simpl; lia).
  assert (example_results ≡ₚ reverse example_results) as Hperm
    by (symmetry; apply reverse_Permutation).
  split_and!; [exact Hlen|exact Hperm|].
  destruct (combineChunkResults_total_order no_tables example_results
              (reverse example_results) [] Hlen Hperm)
    as (rep & rep' & count & count' & H1 & H2 & H3 & H4 & _ & H6).
  exists rep, rep', count, count'. by split_and!.
Defined.



(** ** Chunk orchestrator *)

(** X11: the orchestrator returns a report exactly when at least one
    chunk has succeeded; otherwise it throws. *)
Theorem reviewChunks_returns_iff case_tables JSON_parse chunks focus env :
  (∃ rep, reviewChunks case_tables JSON_parse chunks focus env = Return rep)
  ↔ succeeded case_tables JSON_parse chunks focus env ≠ [].
Proof.
  unfold reviewChunks. rewrite combined_unfold. split.
  - intros [rep Hrep] Hnil. rewrite Hnil in Hrep.
    by destruct (failed_entries case_tables JSON_parse chunks focus env).
  - intros Hne.
    destruct (combineChunkResults_succeeded case_tables JSON_parse chunks focus env Hne)
      as (c & Hc & _).
    destruct (succeeded case_tables JSON_parse chunks focus env) as [|r1 oks]; [done|].
    rewrite Hc. by eexists.
Qed.

Lemma reviewChunks_returns_iff_witness :
  succeeded no_tables no_JSON example_pair [] example_pair_env ≠ []
  ∧ ∃ rep, reviewChunks no_tables no_JSON example_pair [] example_pair_env = Return rep.
Proof.
  assert (succeeded no_tables no_JSON example_pair [] example_pair_env ≠ []) as Hne
    by by vm_compute.
  split; [exact Hne|].
  exact (proj2 (reviewChunks_returns_iff no_tables no_JSON example_pair [] example_pair_env) Hne).
Defined.

(** X12: a report has [errors] and [partialSuccess] exactly when a chunk
    has failed: then [errors] lists the failures and [partialSuccess] is
    [true]; when every chunk succeeded both are absent. *)
Theorem reviewChunks_errors_iff case_tables JSON_parse chunks focus env rep :
  reviewChunks case_tables JSON_parse chunks focus env = Return rep →
  let ko := failed_entries case_tables JSON_parse chunks focus env in
  errors rep = (if decide (ko = []) then None else Some ko)
  ∧ partialSuccess rep = (if decide (ko = []) then None else Some true).
Proof.
  intros Hrep ko. subst ko. unfold reviewChunks in Hrep. rewrite combined_unfold in Hrep.
  destruct (decide (succeeded case_tables JSON_parse chunks focus env = [])) as [Hnil|Hne].
  { rewrite Hnil in Hrep. by destruct (failed_entries case_tables JSON_parse chunks focus env). }
  destruct (combineChunkResults_succeeded case_tables JSON_parse chunks focus env Hne)
    as (c & Hc & _ & Herr & Hpartial & _).
  destruct (succeeded case_tables JSON_parse chunks focus env) as [|r1 oks]; [done|].
  rewrite Hc in Hrep.
  destruct (failed_entries case_tables JSON_parse chunks focus env) as [|f kos];
    injection Hrep as <-; by case_decide.
Qed.

Lemma reviewChunks_errors_iff_witness :
  ∃ rep, reviewChunks no_tables no_JSON example_pair [] example_ok_env = Return rep
         ∧ errors rep = None ∧ partialSuccess rep = None.
Proof.
  assert (∃ rep, reviewChunks no_tables no_JSON example_pair [] example_ok_env = Return rep)
    as [rep Hrep] by (eexists; reflexivity).
  destruct (reviewChunks_errors_iff _ _ _ _ _ _ Hrep) as [Herr Hpartial].
  exists rep. split_and!; [exact Hrep|..].
  - rewrite Herr. by vm_compute.
  - rewrite Hpartial. by vm_compute.
Defined.

Lemma reviewWithDeepseek_Throw case_tables JSON_parse code focus config env e :
  reviewWithDeepseek case_tables JSON_parse code focus config env = Throw e →
  Err.name e = lit "Error" ∧ Err.message e ≠ []
  ∧ Err.statusCode e = None ∧ Err.chunkNumber e = None ∧ Err.retryAttempts e = None.
Proof.
  unfold reviewWithDeepseek, reviewChunks.
  destruct (apiKey config) as [[|k key]|]; try by intros [= <-].
  rewrite combined_unfold.
  destruct (succeeded case_tables JSON_parse _ focus env) as [|r1 oks] eqn:Eok.
  - destruct (failed_entries case_tables JSON_parse _ focus env); by intros [= <-].
  - destruct (combineChunkResults_succeeded case_tables JSON_parse (splitCodeIntoChunks code 3000)
                focus env) as (c & Hc & _); [by rewrite Eok|].
    rewrite Eok in Hc. by rewrite Hc.
Qed.

(** X13: what [reviewWithDeepseek] throws is always a plain [Error] with
    a message that is not empty; the typed errors of the chunks, with
    their status code and retry annotation, never leave it. *)
Theorem reviewWithDeepseek_throws_plain case_tables JSON_parse code focus config env e :
  reviewWithDeepseek case_tables JSON_parse code focus config env = Throw e →
  Err.name e = lit "Error" ∧ Err.message e ≠ []
  ∧ Err.statusCode e = None ∧ Err.chunkNumber e = None ∧ Err.retryAttempts e = None.
Proof. apply reviewWithDeepseek_Throw. Qed.

Lemma reviewWithDeepseek_throws_plain_witness :
  ∃ e, reviewWithDeepseek no_tables no_JSON example_long_code [] example_config example_dead_env
       = Throw e
       ∧ Err.name e = lit "Error" ∧ Err.statusCode e = None.
Proof.
  assert (∃ e, reviewWithDeepseek no_tables no_JSON example_long_code [] example_config
                 example_dead_env = Throw e) as [e He] by (eexists; reflexivity).
  destruct (reviewWithDeepseek_throws_plain _ _ _ _ _ _ _ He) as (Hn & _ & Hs & _).
  by exists e.
Defined.

(** ** The prompt *)

(** X14: the focus of the prompt is the known areas among those asked
    for, in the order security, performance, readability,
    maintainability and separated by a comma and a space, whatever the
    order and the repetitions of the input, and [general code quality]
    when none of the four is asked for. *)
Theorem focusInstructions_spec focus :
  focusInstructions focus
  = match List.filter (has_focus focus) prompt_focus_names with
    | [] => lit "general code quality"
    | names => join (lit ", ") names
    end.
Proof.
  unfold focusInstructions, prompt_focus_names. cbn [List.filter].
  destruct (has_focus focus (lit "security")), (has_focus focus (lit "performance")),
    (has_focus focus (lit "readability")), (has_focus focus (lit "maintainability"));
    by vm_compute.
Qed.

(** ** The command line *)

Lemma split_on_nonempty sep s : split_on sep s ≠ [].
Proof.
  destruct s as [|c s]; simpl; [done|].
  destruct (c =? sep)%N; [done|]. by destruct (split_on sep s).
Qed.

Lemma filter_all_true {A} (f : A → bool) l :
  List.filter (λ x, negb (f x)) l = [] → List.filter f l = l.
Proof.
  induction l as [|x l IH]; [done|]. simpl. destruct (f x); simpl; [|done].
  intros H. by rewrite IH.
Qed.

(** X15: whatever the value of [--focus], the focus areas passed on are
    its valid areas (split at the commas and trimmed), in their order, or
    [general] alone when it has none: never an empty list, never an
    unknown area. *)
Theorem runCLI_focusAreas_valid focus :
  runCLI_focusAreas focus
  = match List.filter is_valid_focus (trim <$> split_on 44 focus) with
    | [] => [lit "general"]
    | valid => valid
    end
  ∧ runCLI_focusAreas focus ≠ []
  ∧ forallb is_valid_focus (runCLI_focusAreas focus) = true.
Proof.
  assert (runCLI_focusAreas focus
          = match List.filter is_valid_focus (trim <$> split_on 44 focus) with
            | [] => [lit "general"]
            | valid => valid
            end) as Heq.
  { unfold runCLI_focusAreas. cbv zeta.
    destruct (List.filter (λ area, negb (is_valid_focus area)) _) eqn:E;
      [|simpl; by destruct (List.filter is_valid_focus _)].
    apply filter_all_true in E. rewrite E. simpl.
    destruct (trim <$> split_on 44 focus) eqn:Es; [|done].
    apply fmap_nil_inv in Es. by apply split_on_nonempty in Es. }
  rewrite Heq. split; [done|].
  destruct (List.filter is_valid_focus _) as [|a l] eqn:E; [done|].
  split; [done|]. rewrite <- E. apply forallb_forall. intros x Hx.
  by apply filter_In in Hx as [_ Hx].
Qed.

(** ** Configuration *)

Lemma KEY_neq : KEY ≠ LEGACY_KEY.
Proof. by vm_compute. Qed.

(** X16: in the loaded configuration a key other than the API key has
    the value of the environment, else that of [.aicodereviewrc], else
    that of [.env]. *)
Theorem loadConfig_precedence {V} (truthy : V → bool) dotenv rc process_env key :
  key ≠ KEY →
  loadConfig truthy dotenv rc process_env !! key
  = match process_env !! key with
    | Some v => Some v
    | None =>
        match default ∅ rc !! key with
        | Some v => Some v
        | None => default ∅ dotenv !! key
        end
    end.
Proof.
  intros Hkey. unfold loadConfig. cbv zeta.
  set (merged := process_env ∪ _).
  assert (merged !! key
          = match process_env !! key with
            | Some v => Some v
            | None =>
                match default ∅ rc !! key with
                | Some v => Some v
                | None => default ∅ dotenv !! key
                end
            end) as Hmerged.
  { unfold merged. rewrite lookup_union.
    destruct (process_env !! key) as [v|]; [by destruct (_ !! key)|].
    rewrite (left_id_L None union).
    destruct rc as [rcConfig|], dotenv as [envConfig|]; simpl;
      rewrite ?lookup_union, ?lookup_empty, ?(right_id_L None union);
      repeat (match goal with |- context [?m !! key] => destruct (m !! key) end);
      done. }
  destruct (truthy_at truthy merged LEGACY_KEY && negb (truthy_at truthy merged KEY));
    [|done].
  destruct (merged !! LEGACY_KEY); [|done]. by rewrite lookup_insert_ne.
Qed.

Lemma loadConfig_precedence_witness :
  loadConfig nonempty (Some {[lit "MODE" := lit "a"]}) (Some {[lit "MODE" := lit "b"]}) ∅
  !! lit "MODE" = Some (lit "b").
Proof.
  rewrite (loadConfig_precedence nonempty _ _ _ (lit "MODE")); [|by vm_compute].
  by vm_compute.
Defined.

(** After [loadConfig] a truthy legacy key comes with a truthy API key. *)
Lemma loadConfig_legacy {V} (truthy : V → bool) dotenv rc process_env :
  truthy_at truthy (loadConfig truthy dotenv rc process_env) LEGACY_KEY = true →
  truthy_at truthy (loadConfig truthy dotenv rc process_env) KEY = true.
Proof.
  unfold loadConfig. cbv zeta. set (merged := process_env ∪ _).
  destruct (truthy_at truthy merged LEGACY_KEY) eqn:Hlegacy;
    destruct (truthy_at truthy merged KEY) eqn:Hkey; cbn [andb negb]; try done.
  - unfold truthy_at in Hlegacy |- *.
    destruct (merged !! LEGACY_KEY) as [v|] eqn:E; [|done].
    intros _. by rewrite lookup_insert_eq.
  - by rewrite Hlegacy.
Qed.

(** X17: with a configuration from [loadConfig], [reviewWithDeepseek]
    finds an API key exactly when [DEEPSEEK_API_KEY] is set and not
    empty, which is when [validateConfig] reports no missing key; the key
    it uses is then that one, the legacy key having been copied to it. *)
Theorem loadConfig_api_key dotenv rc process_env :
  let config := loadConfig nonempty dotenv rc process_env in
  key_found (config_of config) = truthy_at nonempty config KEY
  ∧ validateConfig nonempty config [KEY]
    = (if key_found (config_of config) then [] else [KEY])
  ∧ (key_found (config_of config) = false ∨ apiKey (config_of config) = config !! KEY).
Proof.
  cbv zeta. pose proof (loadConfig_legacy nonempty dotenv rc process_env) as Hlegacy.
  set (config := loadConfig nonempty dotenv rc process_env) in *.
  unfold key_found, apiKey, config_of, validateConfig. cbn [DEEPSEEK_API_KEY
    NEXT_PUBLIC_DEEPSEEK_API_KEY List.filter].
  unfold truthy_at in *. 
  destruct (config !! KEY) as [[|c k]|] eqn:Ek; cbn [from_option nonempty] in *.
  - destruct (config !! LEGACY_KEY) as [[|c' k']|]; cbn in *; try (by split_and!; auto).
    by specialize (Hlegacy eq_refl).
  - split_and!; auto.
  - destruct (config !! LEGACY_KEY) as [[|c' k']|]; cbn in *; try (by split_and!; auto).
    by specialize (Hlegacy eq_refl).
Qed.

(** ** The status table *)

Section StatusLemmas.
Variables (case_tables : text → text) (JSON_parse : text → option Json.value).
Variables (chunks : list text) (focus : list text) (env : Env).

Lemma complete_status_eq st i :
  i < length chunks → length (status st) = length chunks →
  status (complete case_tables JSON_parse chunks focus env st i) !! i
  = Some (final_status case_tables JSON_parse chunks focus env i).
Proof.
  intros Hi Hlen. unfold complete, final_status.
  destruct (lookup_lt_is_Some_2 chunks i Hi) as [chunk ->].
  destruct (chunk_outcome _ _ _ _ _ i); cbn [status];
    apply list_lookup_insert_eq; lia.
Qed.

Lemma complete_status_keeps st i j :
  status st !! i = Some (final_status case_tables JSON_parse chunks focus env i) →
  status (complete case_tables JSON_parse chunks focus env st j) !! i
  = Some (final_status case_tables JSON_parse chunks focus env i).
Proof.
  intros Hs. destruct (decide (j = i)) as [->|Hne].
  - unfold complete, final_status in *. destruct (chunks !! i); [|done].
    destruct (chunk_outcome _ _ _ _ _ i); cbn [status];
      apply list_lookup_insert_eq; by eapply lookup_lt_Some.
  - unfold complete. destruct (chunks !! j); [|done].
    destruct (chunk_outcome _ _ _ _ _ j); cbn [status]; by rewrite list_lookup_insert_ne.
Qed.

Lemma foldl_complete_keeps order st i :
  status st !! i = Some (final_status case_tables JSON_parse chunks focus env i) →
  status (foldl (complete case_tables JSON_parse chunks focus env) st order) !! i
  = Some (final_status case_tables JSON_parse chunks focus env i).
Proof.
  revert st. induction order as [|j order IH]; intros st Hs; [done|].
  cbn [foldl]. by apply IH, complete_status_keeps.
Qed.

Lemma foldl_complete_final order st i :
  i ∈ order → i < length chunks → length (status st) = length chunks →
  status (foldl (complete case_tables JSON_parse chunks focus env) st order) !! i
  = Some (final_status case_tables JSON_parse chunks focus env i).
Proof.
  revert st. induction order as [|j order IH]; intros st Hin Hi Hlen.
  - by apply elem_of_nil in Hin.
  - cbn [foldl]. destruct (decide (j = i)) as [->|Hne].
    + by apply foldl_complete_keeps, complete_status_eq.
    + apply IH; [|done|by rewrite complete_status_length].
      apply elem_of_cons in Hin as [->|Hin]; done.
Qed.

Lemma settled_status_final :
  completion env ≡ₚ seq 0 (length chunks) →
  status (settled case_tables JSON_parse chunks focus env)
  = final_status case_tables JSON_parse chunks focus env <$> seq 0 (length chunks).
Proof.
  intros Hperm. apply list_eq. intros i. rewrite list_lookup_fmap.
  destruct (decide (i < length chunks)) as [Hi|Hi].
  - rewrite lookup_seq_lt by done. simpl. unfold settled.
    apply foldl_complete_final; [|done|apply started_status_length].
    rewrite Hperm. apply elem_of_seq. lia.
  - rewrite lookup_seq_ge by lia. simpl. apply lookup_ge_None.
    unfold settled. rewrite foldl_complete_status_length, started_status_length. lia.
Qed.

Lemma count_final_status order :
  Forall (λ i, i < length chunks) order →
  count_status completed (final_status case_tables JSON_parse chunks focus env <$> order)
  = length (omap (success_of case_tables JSON_parse chunks focus env) order)
  ∧ count_status failed (final_status case_tables JSON_parse chunks focus env <$> order)
    = length (omap (failure_of case_tables JSON_parse chunks focus env) order)
  ∧ count_status in_progress (final_status case_tables JSON_parse chunks focus env <$> order) = 0
  ∧ count_status retrying (final_status case_tables JSON_parse chunks focus env <$> order) = 0
  ∧ count_status pending (final_status case_tables JSON_parse chunks focus env <$> order) = 0.
Proof.
  unfold count_status.
  induction 1 as [|i order Hi _ (IH1 & IH2 & IH3 & IH4 & IH5)]; [done|].
  rewrite fmap_cons. cbn [List.filter omap list_omap].
  unfold success_of at 1, failure_of at 1.
  destruct (lookup_lt_is_Some_2 chunks i Hi) as [chunk ->].
  assert (final_status case_tables JSON_parse chunks focus env i
          = match chunk_outcome case_tables JSON_parse chunks focus env i with
            | Return _ => completed
            | Throw _ => failed
            end) as -> by done.
  destruct (chunk_outcome _ _ _ _ _ i); repeat (case_bool_decide; try done);
    cbn [length]; rewrite ?IH1, ?IH2, ?IH3, ?IH4, ?IH5; done.
Qed.

End StatusLemmas.

(** X18: when every task has completed, the status of each chunk is
    [completed] if its run returned a result and [failed] if it threw;
    none is left pending, in progress or retrying. *)
Theorem settled_status_outcomes case_tables JSON_parse chunks focus env :
  completion env ≡ₚ seq 0 (length chunks) →
  status (settled case_tables JSON_parse chunks focus env)
  = final_status case_tables JSON_parse chunks focus env <$> seq 0 (length chunks).
Proof. apply settled_status_final. Qed.

Lemma settled_status_outcomes_witness :
  status (settled no_tables no_JSON example_chunks [] example_env)
  = [completed; failed; completed; failed; completed].
Proof.
  rewrite (settled_status_outcomes no_tables no_JSON example_chunks [] example_env).
  - by vm_compute.
  - apply (bool_decide_unpack _). by vm_compute.
Defined.

(** X19: the progress line after the last task shows the number of
    chunks that succeeded over the number of chunks, the number that
    failed, and none retrying or in progress; those that succeeded and
    those that failed are all the chunks. *)
Theorem updateProgress_final case_tables JSON_parse chunks focus env :
  completion env ≡ₚ seq 0 (length chunks) →
  let ok := length (succeeded case_tables JSON_parse chunks focus env) in
  let ko := length (failed_entries case_tables JSON_parse chunks focus env) in
  ok + ko = length chunks
  ∧ updateProgress (status (settled case_tables JSON_parse chunks focus env)) (length chunks)
    = lit "Progress ["
      ++ join (lit " ") (glyph <$> (final_status case_tables JSON_parse chunks focus env
                                    <$> seq 0 (length chunks)))
      ++ lit "] - " ++ of_nat ok ++ lit "/" ++ of_nat (length chunks)
      ++ lit " completed, " ++ of_nat ko ++ lit " failed, 0 retrying, 0 in progress".
Proof.
  intros Hperm ok ko.
  assert (Forall (λ i, i < length chunks) (seq 0 (length chunks))) as Hrange.
  { apply Forall_forall. intros i Hi. apply elem_of_seq in Hi. lia. }
  destruct (count_final_status case_tables JSON_parse chunks focus env _ Hrange)
    as (H1 & H2 & H3 & H4 & _).
  assert (ok = length (omap (success_of case_tables JSON_parse chunks focus env)
                            (seq 0 (length chunks)))) as Hok.
  { unfold ok, succeeded. by rewrite Hperm. }
  assert (ko = length (omap (failure_of case_tables JSON_parse chunks focus env)
                            (seq 0 (length chunks)))) as Hko.
  { unfold ko, failed_entries. by rewrite Hperm. }
  split.
  - rewrite Hok, Hko, omap_success_failure_length; [|done]. apply length_seq.
  - unfold updateProgress. cbv zeta.
    rewrite settled_status_final by done. by rewrite H1, H2, H3, H4, <- Hok, <- Hko.
Qed.

Lemma updateProgress_final_witness :
  updateProgress (status (settled no_tables no_JSON example_chunks [] example_env)) 5
  = lit "Progress [" ++ join (lit " ") (glyph <$> [completed; failed; completed; failed;
                                                    completed])
    ++ lit "] - 3/5 completed, 2 failed, 0 retrying, 0 in progress".
Proof.
  destruct (updateProgress_final no_tables no_JSON example_chunks [] example_env) as [_ H].
  - apply (bool_decide_unpack _). by vm_compute.
  - change 5 with (length example_chunks). rewrite H. by vm_compute.
Defined.

(** ** The formatter *)

Lemma startsWith_spec p s : startsWith p s = true ↔ ∃ post, s = p ++ post.
Proof.
  revert s. induction p as [|a p IH]; intros s; simpl.
  - split; [by exists s|done].
  - destruct s as [|b s]; [split; [done|by intros [? ?]]|].
    rewrite andb_true_iff, N.eqb_eq, IH. split.
    + intros [-> [post ->]]. by exists post.
    + intros [post [= -> ->]]. split; [done|by exists post].
Qed.

Lemma includes_spec p s : includes p s = true ↔ slice_of p s.
Proof.
  split.
  - induction s as [|c s IH]; cbn [includes]; rewrite orb_true_iff.
    + intros [[post ->]%startsWith_spec|?]; [by exists [], post|done].
    + intros [[post ->]%startsWith_spec|(pre & post & ->)%IH]; [by exists [], post|].
      by exists (c :: pre), post.
  - intros (pre & post & ->). apply includes_slice.
Qed.

Lemma slice_of_refl a : slice_of a a.
Proof. exists [], []. by rewrite app_nil_r. Qed.

Lemma slice_of_app_l a x y : slice_of a x → slice_of a (x ++ y).
Proof. intros (pre & post & ->). exists pre, (post ++ y). by rewrite <- !app_assoc. Qed.

Lemma slice_of_app_r a x y : slice_of a y → slice_of a (x ++ y).
Proof. intros (pre & post & ->). exists (x ++ pre), post. by rewrite <- !app_assoc. Qed.

Lemma section_missing_two_hashes summary name :
  section_missing summary name = negb (includes (lit "## " ++ name) summary).
Proof.
  unfold section_missing.
  destruct (includes (lit "## " ++ name) summary) eqn:E2; [done|]. cbn [negb andb].
  destruct (includes (lit "### " ++ name) summary) eqn:E3; [|done].
  apply includes_spec in E3 as (pre & post & ->).
  assert (includes (lit "## " ++ name) (pre ++ (lit "### " ++ name) ++ post) = true)
    as Habs; [|by rewrite Habs in E2].
  apply includes_spec. exists (pre ++ lit "#"), post.
  rewrite <- !app_assoc. reflexivity.
Qed.

(** X20: the test that decides whether the formatter prints a section
    of its own only depends on the heading with two [#]: a summary that
    has the heading with three also has the one with two. *)
Theorem section_missing_spec summary name :
  section_missing summary name = negb (includes (lit "## " ++ name) summary).
Proof. apply section_missing_two_hashes. Qed.

Lemma formatOutput_Throw_iff case_tables chalk JSON_stringify results format :
  (∃ e, formatOutput case_tables chalk JSON_stringify results format = Throw e)
  ↔ Results.deepseek results = Results.Failed []
    ∧ toLowerCase case_tables format ≠ lit "json".
Proof.
  unfold formatOutput, formatMarkdown, formatText, text_eqb.
  repeat case_bool_decide; destruct (Results.deepseek results) as [[|c msg]|r];
    split; try (by intros [? ?]); try (by intros [? ?]; eexists); naive_solver.
Qed.

(** X21: the formatter throws exactly when the review failed with an
    empty message and the format is not JSON: it then reads the summary
    of an object that has none. *)
Theorem formatOutput_throws case_tables chalk JSON_stringify results format :
  (∃ e, formatOutput case_tables chalk JSON_stringify results format = Throw e)
  ↔ Results.deepseek results = Results.Failed []
    ∧ toLowerCase case_tables format ≠ lit "json".
Proof. apply formatOutput_Throw_iff. Qed.

Lemma formatOutput_throws_witness :
  ∃ e, formatOutput no_tables (λ _ s, s) (λ _, [])
                    (Results.mk [] [] [] (Results.Failed []) []) (lit "text") = Throw e.
Proof.
  apply (proj2 (formatOutput_throws no_tables (λ _ s, s) (λ _, [])
                  (Results.mk [] [] [] (Results.Failed []) []) (lit "text"))).
  split; [reflexivity|by vm_compute].
Defined.

Lemma item_lines_slice prefix items issue :
  issue ∈ items → slice_of (prefix ++ issue ++ nl) (item_lines prefix items).
Proof.
  unfold item_lines. induction 1 as [issue items|issue other items _ IH]; simpl.
  - apply slice_of_app_l, slice_of_refl.
  - by apply slice_of_app_r.
Qed.

Lemma markdown_severity_slice heading items issue :
  issue ∈ items →
  slice_of (lit "- " ++ issue ++ nl) (markdown_severity heading items).
Proof.
  intros Hin. unfold markdown_severity. destruct items as [|i items]; [by apply elem_of_nil in Hin|].
  cbn [length Nat.ltb Nat.leb].
  do 3 apply slice_of_app_r. by apply slice_of_app_l, item_lines_slice.
Qed.

(** X22: the markdown of a review has the summary of the report as it
    is, and, unless the summary has a heading [## Issues] of its own, a
    line [- issue] for every issue of the report. *)
Theorem formatMarkdown_shows results r :
  Results.deepseek results = Results.Reviewed r →
  ∃ out, formatMarkdown results = Return out
         ∧ slice_of (summary r) out
         ∧ (includes (lit "## Issues") (summary r) = false →
            Forall (λ issue, slice_of (lit "- " ++ issue ++ nl) out)
                   (all_issues (issues r))).
Proof.
  intros Hr. unfold formatMarkdown. rewrite Hr. cbv zeta.
  eexists. split; [reflexivity|]. split.
  - apply slice_of_app_r, slice_of_app_l, slice_of_refl.
  - intros Hnone. rewrite (section_missing_two_hashes _ (lit "Issues")).
    change (lit "## " ++ lit "Issues") with (lit "## Issues"). rewrite Hnone.
    cbn [negb]. unfold all_issues. rewrite !Forall_app, !Forall_forall.
    split_and!; intros issue Hin; apply slice_of_app_r;
      do 3 apply slice_of_app_r; apply slice_of_app_l; do 3 apply slice_of_app_r.
    + by apply slice_of_app_l, markdown_severity_slice.
    + by apply slice_of_app_r, slice_of_app_l, markdown_severity_slice.
    + by do 2 apply slice_of_app_r; apply slice_of_app_l, markdown_severity_slice.
    + by do 3 apply slice_of_app_r; apply markdown_severity_slice.
Qed.

Lemma formatMarkdown_shows_witness :
  ∃ out, formatMarkdown (Results.mk (lit "snippet") (lit "Code Snippet") []
                                    (Results.Reviewed example_result) [])
         = Return out
         ∧ slice_of (lit "- 1. SQL injection" ++ nl) out.
Proof.
  destruct (formatMarkdown_shows
              (Results.mk (lit "snippet") (lit "Code Snippet") []
                          (Results.Reviewed example_result) [])
              example_result eq_refl) as (out & Hout & _ & Hissues).
  exists out. split; [exact Hout|].
  specialize (Hissues eq_refl). rewrite Forall_forall in Hissues.
  apply (Hissues (lit "1. SQL injection")). by vm_compute; left.
Defined.

(** ** The entry point *)

Section EntryPoint.
Variables (case_tables : text → text) (chalk : Style → text → text).
Variables (JSON_stringify : Results.t → text) (JSON_parse : text → option Json.value).

(** The review of a source that has been read: the failure of the
    reviewer is recorded, with its message, and the formatter gets a
    report or a message that is not empty, so it returns. *)
Lemma reviewCode_review fs now filePath codeSnippet focusAreas outputFormat config env e :
  reviewCode case_tables chalk JSON_stringify JSON_parse fs now filePath codeSnippet
             focusAreas outputFormat config env = Throw e →
  match filePath with
  | Some (c :: path) => readFileContent fs (c :: path) = Throw e
  | _ =>
      match codeSnippet with
      | Some (_ :: _) => False
      | _ => e = Err.Error (lit "Either filePath or codeSnippet must be provided")
      end
  end.
Proof.
  unfold reviewCode. cbv zeta.
  set (focus := default [lit "general"] focusAreas).
  set (format := default (lit "text") outputFormat).
  set (cfg := default _ config).
  assert (∀ code sourceType sourceName,
            ¬ ∃ e', formatOutput case_tables chalk JSON_stringify
                      (Results.mk sourceType sourceName focus
                         match reviewWithDeepseek case_tables JSON_parse code focus cfg env with
                         | Return report => Results.Reviewed report
                         | Throw error => Results.Failed (Err.message error)
                         end now) format = Throw e') as Hformat.
  { intros code sourceType sourceName Hthrow.
    apply formatOutput_Throw_iff in Hthrow as [Hfailed _]. cbn [Results.deepseek] in Hfailed.
    destruct (reviewWithDeepseek case_tables JSON_parse code focus cfg env) as [report|error]
      eqn:Hreview; [done|].
    apply reviewWithDeepseek_Throw in Hreview as (_ & Hmessage & _).
    by injection Hfailed. }
  destruct filePath as [[|c path]|], codeSnippet as [[|d snippet]|];
    try (by intros [= <-]).
  all: try (destruct (readFileContent fs (c :: path)) as [content|error]; [|by intros [= <-]]).
  all: intros Hthrow; exfalso.
  all: match type of Hthrow with
       | context [formatOutput _ _ _ (Results.mk ?t ?n _ match reviewWithDeepseek _ _ ?code _ _ _ with _ => _ end _) _] =>
           apply (Hformat code t n)
       end.
  all: destruct (formatOutput _ _ _ _ _) as [out|e']; [done|by exists e'].
Qed.

End EntryPoint.

(** X23: [reviewCode] throws in two cases only: when neither a file path
    nor a snippet is given (or both are empty), with the message of that
    case, and when the file cannot be read, with the error of
    [readFileContent].  A failure of the review itself never makes it
    throw. *)
Theorem reviewCode_throws case_tables chalk JSON_stringify JSON_parse fs now filePath
    codeSnippet focusAreas outputFormat config env e :
  reviewCode case_tables chalk JSON_stringify JSON_parse fs now filePath codeSnippet
             focusAreas outputFormat config env = Throw e →
  (default [] filePath = [] ∧ default [] codeSnippet = []
   ∧ e = Err.Error (lit "Either filePath or codeSnippet must be provided"))
  ∨ (default [] filePath ≠ [] ∧ readFileContent fs (default [] filePath) = Throw e
     ∧ (Err.message e = lit "File not found: " ++ default [] filePath
        ∨ ∃ message, Err.message e
                     = lit "Error reading file " ++ default [] filePath ++ lit ": "
                       ++ message)).
Proof.
  intros Hthrow. apply reviewCode_review in Hthrow.
  destruct filePath as [[|c path]|]; cbn [default from_option].
  - left. destruct codeSnippet as [[|d snippet]|]; by split_and!.
  - right. split; [done|]. split; [done|].
    unfold readFileContent, read_error in Hthrow.
    destruct (access fs (c :: path)) as [error|].
    + case_bool_decide; injection Hthrow as <-; [by left|right; by eexists].
    + destruct (readFile fs (c :: path)) as [error|content]; [|done].
      case_bool_decide; injection Hthrow as <-; [by left|right; by eexists].
  - left. destruct codeSnippet as [[|d snippet]|]; by split_and!.
Qed.

Lemma reviewCode_throws_witness :
  reviewCode no_tables (λ _ s, s) (λ _, []) no_JSON
             {| access := λ _, None; readFile := λ _, inr [] |} [] None None None None None
             example_single_env
  = Throw (Err.Error (lit "Either filePath or codeSnippet must be provided")).
Proof.
  destruct (reviewCode no_tables (λ _ s, s) (λ _, []) no_JSON
              {| access := λ _, None; readFile := λ _, inr [] |} [] None None None None None
              example_single_env) as [out|e] eqn:Hrun; [by vm_compute in Hrun|].
  destruct (reviewCode_throws _ _ _ _ _ _ _ _ _ _ _ _ _ Hrun) as [(_ & _ & ->)|(Hne & _)];
    [done|by destruct Hne].
Defined.

(** X24: given a snippet and no file path, [reviewCode] returns,
    whatever the remote end does and whatever the format: the results
    name the snippet as the source and hold the report of the review, or,
    when the review has failed, its message, which is not empty. *)
Theorem reviewCode_snippet case_tables chalk JSON_stringify JSON_parse fs now codeSnippet
    focusAreas outputFormat config env :
  codeSnippet ≠ [] →
  ∃ results printed,
    reviewCode case_tables chalk JSON_stringify JSON_parse fs now None (Some codeSnippet)
               focusAreas outputFormat config env = Return (results, printed)
    ∧ Results.sourceType results = lit "snippet"
    ∧ Results.sourceName results = lit "Code Snippet"
    ∧ Results.focusAreas results = default [lit "general"] focusAreas
    ∧ Results.timestamp results = now
    ∧ match reviewWithDeepseek case_tables JSON_parse codeSnippet
              (default [lit "general"] focusAreas)
              (default {| DEEPSEEK_API_KEY := None; NEXT_PUBLIC_DEEPSEEK_API_KEY := None |}
                       config) env with
      | Return report => Results.deepseek results = Results.Reviewed report
      | Throw error =>
          Results.deepseek results = Results.Failed (Err.message error)
          ∧ Err.message error ≠ []
      end.
Proof.
  intros Hne. destruct codeSnippet as [|c snippet]; [done|].
  destruct (reviewCode case_tables chalk JSON_stringify JSON_parse fs now None
              (Some (c :: snippet)) focusAreas outputFormat config env)
    as [[results printed]|e] eqn:Hrun.
  - exists results, printed. split; [done|].
    unfold reviewCode in Hrun. cbv zeta in Hrun.
    destruct (formatOutput _ _ _ _ _) as [out|e']; [|done].
    injection Hrun as <- _. cbn [Results.sourceType Results.sourceName Results.focusAreas
      Results.timestamp Results.deepseek].
    split_and!; try done.
    destruct (reviewWithDeepseek _ _ _ _ _ _) as [report|error] eqn:Hreview; [done|].
    split; [done|]. by apply reviewWithDeepseek_Throw in Hreview as (_ & Hmessage & _).
  - by apply reviewCode_review in Hrun.
Qed.

Lemma reviewCode_snippet_witness :
  ∃ results printed,
    reviewCode no_tables (λ _ s, s) (λ _, []) no_JSON
               {| access := λ _, None; readFile := λ _, inr [] |} [] None
               (Some (lit "x = 1")) None None None example_single_env
    = Return (results, printed)
    ∧ Results.deepseek results
      = Results.Failed (lit "DeepSeek API key not found. Set DEEPSEEK_API_KEY or NEXT_PUBLIC_DEEPSEEK_API_KEY in .env or .aicodereviewrc").
Proof.
  destruct (reviewCode_snippet no_tables (λ _ s, s) (λ _, []) no_JSON
              {| access := λ _, None; readFile := λ _, inr [] |} [] (lit "x = 1")
              None None None example_single_env)
    as (results & printed & Hrun & _ & _ & _ & _ & Hreview); [done|].
  exists results, printed. split; [exact Hrun|].
  cbn in Hreview. by destruct Hreview as [-> _].
Defined.
